(** * AMPL-2023 front-end: hash table, symbol table and parser

    A shallow embedding of [hashtable.c], [symboltable.c] and [amplc.c],
    followed by the properties of the specification that these files decide.

    Conventions of the embedding:
    - [unsigned int] values are integers in [Z], wrapped with [uint] wherever
      the C code does arithmetic on them;
    - a linked bucket chain is the list of its entries, head first;
    - heap objects that the C code shares through pointers (hash tables and
      identifier-property records) live in explicit stores, and a pointer is
      an index into its store; [free] empties the slot, and reading an
      emptied or missing slot is a memory fault;
    - a [float] is the rational number it holds, and the conversions to
      [float] and the [float] division round as IEEE 754 binary32 does (to
      the nearest number of 24 significant bits, ties to even);
    - [malloc] never fails;
    - functions that print a diagnostic and exit return [Abort]; where the C
      code formats the text from a variadic argument that the caller did not
      pass, which is undefined behaviour, the diagnostic has no text;
    - the mutually recursive parser routines recurse on a fuel that every
      call decrements, and return [OutOfFuel] when it is used up;
    - the headers and the scanner are not among the sources; what the code
      uses of them is modelled from the specification and marked as such. *)

From Stdlib Require Import ZArith QArith Qround Qpower Lia Lqa.
From Stdlib Require Import String Ascii List Bool.
From Stdlib Require Import DecimalString.
From stdpp Require Import base option list.

(** ** Value types

    [valtypes.h] is not part of the sources at hand; only its uses are. *)

Module Valtypes.
Local Open Scope Z_scope.

(** A value type is a bit set, as the masks [& 6] and [^ TYPE_CALLABLE] of
    [parse_factor] require. *)
Definition ValType := Z.

(** Modelled from the spec: the constants of the missing [valtypes.h].  The
    spec fixes a base kind in {integer, boolean, none}, an array attribute and
    a callable attribute; [parse_factor] masks the base kind with [6]. *)
Definition TYPE_NONE : ValType := 0.
Definition TYPE_ARRAY : ValType := 1.
Definition TYPE_BOOLEAN : ValType := 2.
Definition TYPE_INTEGER : ValType := 4.
Definition TYPE_CALLABLE : ValType := 8.

Definition base_kind (t : ValType) : Z := Z.land t 6.

(** Modelled from the spec: the predicates of the missing [valtypes.h]:
    "IS_ARRAY, IS_CALLABLE, IS_FUNCTION (callable and base<>none),
    IS_PROCEDURE (callable and base=none), IS_INTEGER (base=int, not
    callable), IS_BOOLEAN (base=bool, not callable)". *)
Definition IS_ARRAY_TYPE (t : ValType) : bool := Z.testbit t 0.
Definition IS_CALLABLE_TYPE (t : ValType) : bool := Z.testbit t 3.
Definition IS_ARRAY (t : ValType) : bool := IS_ARRAY_TYPE t.
Definition IS_FUNCTION (t : ValType) : bool :=
  IS_CALLABLE_TYPE t && negb (base_kind t =? TYPE_NONE).
Definition IS_PROCEDURE (t : ValType) : bool :=
  IS_CALLABLE_TYPE t && (base_kind t =? TYPE_NONE).
Definition IS_INTEGER_TYPE (t : ValType) : bool :=
  (base_kind t =? TYPE_INTEGER) && negb (IS_CALLABLE_TYPE t).
Definition IS_BOOLEAN_TYPE (t : ValType) : bool :=
  (base_kind t =? TYPE_BOOLEAN) && negb (IS_CALLABLE_TYPE t).

(** Modelled from the spec: "a set-return-type operation strips the callable
    bit"; [SET_RETURN_TYPE(t)] updates [t] in place, here it returns the new
    value. *)
Definition SET_RETURN_TYPE (t : ValType) : ValType := Z.clearbit t 3.

End Valtypes.
Export Valtypes.

(** ** hashtable.c *)

Module Hashtable.
Local Open Scope Z_scope.

Definition uint (x : Z) : Z := x mod 2 ^ 32.

Definition INITIAL_DELTA_INDEX : Z := 4.

(** The return codes of [ht_insert].  [HASH_TABLE_KEY_VALUE_PAIR_EXISTS]
    comes from the missing [hashtable.h]; callers only test for
    [EXIT_SUCCESS]. *)
Inductive ht_code : Type :=
  | EXIT_SUCCESS
  | EXIT_FAILURE
  | HASH_TABLE_KEY_VALUE_PAIR_EXISTS.

(** the array of differences between a power-of-two and the largest prime
    less than that power-of-two *)
Definition delta : list Z :=
  [0; 0; 1; 1; 3; 1; 3; 1; 5; 3; 3; 9; 3; 1; 3; 19;
   15; 1; 5; 1; 3; 9; 3; 15; 3; 39; 5; 39; 57; 3; 35; 1].

(** *** Single-precision arithmetic

    [ht_insert] computes the load factor in [float].  The values it handles
    are unsigned integers and their quotients, so neither overflow nor
    subnormal numbers arise, and a [float] is modelled by the rational it
    holds. *)

(** The integer nearest to [y], the even one of two that are equally
    near. *)
Definition round_half_even (y : Q) : Z :=
  let f := Qfloor y in
  match (y - inject_Z f ?= 1 # 2)%Q with
  | Lt => f
  | Gt => f + 1
  | Eq => if Z.even f then f else f + 1
  end.

(** The exponent [e] of a positive rational: [2^e <= x < 2^(e+1)]. *)
Definition binade (x : Q) : Z :=
  let e0 := Z.log2 (Qnum x) - Z.log2 (Z.pos (Qden x)) in
  if Qle_bool (2 ^ e0) x then e0 else e0 - 1.

(** The binary32 number nearest to a rational that is not negative: 24
    significant bits, round to nearest, ties to even. *)
Definition binary32 (x : Q) : Q :=
  if Qle_bool x 0 then 0%Q
  else
    let e := binade x in
    (inject_Z (round_half_even (x / 2 ^ (e - 23))) * 2 ^ (e - 23))%Q.

(** [(float) x] for an [unsigned int], and [x / y] on [float]s. *)
Definition float_of_uint (x : Z) : Q := binary32 (inject_Z x).
Definition float_div (x y : Q) : Q := binary32 (x / y).

Section WithTypes.
Context {K V : Type}.

(** an entry in the hash table; [next_ptr] is the tail of the chain *)
Record HTentry : Type := mkHTentry { key : K; value : V }.

(** a hash table container *)
Record HashTab : Type := mkHashTab {
  table : list (list HTentry);
  size : Z;
  num_entries : Z;
  max_loadfactor : Q;
  idx : Z;
  hash : K -> Z -> Z;
  cmp : K -> K -> Z
}.

(** [ht->table[i]]; an index outside the allocation is a fault. *)
Definition bucket (tbl : list (list HTentry)) (i : Z) : option (list HTentry) :=
  if i <? 0 then None else tbl !! Z.to_nat i.

Definition talloc (tsize : Z) : list (list HTentry) :=
  replicate (Z.to_nat tsize) [].

Definition ht_init (loadfactor : Q) (hash : K -> Z -> Z) (cmp : K -> K -> Z)
  : HashTab :=
  {| table := talloc (Z.shiftl 1 INITIAL_DELTA_INDEX);
     size := 13;
     num_entries := 0;
     max_loadfactor := loadfactor;
     idx := INITIAL_DELTA_INDEX;
     hash := hash;
     cmp := cmp |}.

(** The chain walk shared by [ht_insert] and [ht_search]: the first entry
    whose key compares equal. *)
Fixpoint chain_search (cmpf : K -> K -> Z) (k : K) (chain : list HTentry)
  : option HTentry :=
  match chain with
  | [] => None
  | e :: next_ptr =>
      if cmpf k (key e) =? 0 then Some e else chain_search cmpf k next_ptr
  end.

(** The loop of [getsize]; [num] and [power] are C [int]s, so at most 29
    doublings of [num = 2] stay in range, and so does the final [num * 2]
    when it is below [2^31]. *)
Fixpoint getsize_loop (fuel : nat) (num power sz : Z) : option (Z * Z) :=
  match fuel with
  | O => None
  | S fuel' =>
      let num := num * 2 in
      let power := power + 1 in
      if num >=? sz then Some (num, power)
      else getsize_loop fuel' num power sz
  end.

Definition getsize (ht : HashTab) : option Z :=
  match getsize_loop 29 2 1 (size ht) with
  | None => None
  | Some (num, power) =>
      let power := power + 1 in
      match delta !! Z.to_nat power with
      | None => None
      | Some d =>
          if num * 2 <? 2 ^ 31 then Some (num * 2 - d) else None
      end
  end.

(** One step of the inner loop of [rehash]: the entry is pushed on the front
    of its chain in the new table. *)
Definition rehash_entry (hashf : K -> Z -> Z) (newSize : Z)
    (newTable : option (list (list HTentry))) (current : HTentry)
  : option (list (list HTentry)) :=
  match newTable with
  | None => None
  | Some nt =>
      let newHash := hashf (key current) newSize in
      match bucket nt newHash with
      | None => None
      | Some chain =>
          Some (<[Z.to_nat newHash := current :: chain]> nt)
      end
  end.

(** [rehash] visits the buckets [0 .. size-1] in order and every chain from
    its head. *)
Definition rehash (ht : HashTab) : option HashTab :=
  match getsize ht with
  | None => None
  | Some newSize =>
      if (0 <=? size ht) && (size ht <=? Z.of_nat (length (table ht))) then
        match fold_left (rehash_entry (hash ht) newSize)
                (concat (take (Z.to_nat (size ht)) (table ht)))
                (Some (talloc newSize)) with
        | None => None
        | Some newTable =>
            Some {| table := newTable;
                    size := newSize;
                    num_entries := num_entries ht;
                    max_loadfactor := max_loadfactor ht;
                    idx := idx ht;
                    hash := hash ht;
                    cmp := cmp ht |}
        end
      else None
  end.

(** [(float) (ht->num_entries + 1) / (float) ht->size]: both operands are
    converted to [float], and the quotient is rounded to [float]. *)
Definition current_loadfactor (ht : HashTab) : Q :=
  float_div (float_of_uint (uint (num_entries ht + 1)))
            (float_of_uint (size ht)).

(** [ht_insert] on a table that is not [NULL], with a key and a value that
    are not [NULL].  [None] is a memory fault. *)
Definition ht_insert (ht : HashTab) (k : K) (v : V)
  : option (ht_code * HashTab) :=
  let hash_value := hash ht k (size ht) in
  match bucket (table ht) hash_value with
  | None => None
  | Some current_entry =>
      match chain_search (cmp ht) k current_entry with
      | Some _ => Some (HASH_TABLE_KEY_VALUE_PAIR_EXISTS, ht)
      | None =>
          let rehashed :=
            if negb (Qle_bool (current_loadfactor ht) (max_loadfactor ht))
            then rehash ht
            else Some ht in
          match rehashed with
          | None => None
          | Some ht1 =>
              let hash_value := hash ht1 k (size ht1) in
              match bucket (table ht1) hash_value with
              | None => None
              | Some chain =>
                  Some (EXIT_SUCCESS,
                        {| table := <[Z.to_nat hash_value :=
                                        mkHTentry k v :: chain]> (table ht1);
                           size := size ht1;
                           num_entries := uint (num_entries ht1 + 1);
                           max_loadfactor := max_loadfactor ht1;
                           idx := idx ht1;
                           hash := hash ht1;
                           cmp := cmp ht1 |})
              end
          end
      end
  end.

(** [ht_search] on a table and a key that are not [NULL]: [Some None] is the
    [NULL] result, [None] a memory fault. *)
Definition ht_search (ht : HashTab) (k : K) : option (option V) :=
  match bucket (table ht) (hash ht k (size ht)) with
  | None => None
  | Some p =>
      Some (match chain_search (cmp ht) k p with
            | Some e => Some (value e)
            | None => None
            end)
  end.

(** The values that [ht_free] hands to [freeval], in order. *)
Definition ht_free_values (ht : HashTab) : option (list V) :=
  if (0 <=? size ht) && (size ht <=? Z.of_nat (length (table ht))) then
    Some (map value (concat (take (Z.to_nat (size ht)) (table ht))))
  else None.

End WithTypes.
Arguments HTentry : clear implicits.
Arguments HashTab : clear implicits.

End Hashtable.

(** ** Diagnostics and results

    [error.h] is not part of the sources; [eprintf] and [leprintf] print a
    message and exit, which ends the run with [Abort]. *)

(** Modelled from the spec: the [SourcePos] of the missing scanner
    interface, "a source position (line, column)". *)
Record SourcePos : Type := mkSourcePos { line : Z; col : Z }.

(** Modelled from the spec: the diagnostics of the missing [error.h]: a
    message that ends the process, behind the program name for [eprintf] and
    behind "<source-file>:<line>:<column>: " for [leprintf].  The text of a
    [leprintf] is [None] when it is formatted from a variadic argument that
    the caller did not pass: the C code then passes an indeterminate
    pointer to [%s], which is undefined behaviour, and the text that
    appears, if any, is not determined. *)
Inductive Diag : Type :=
  | Eprintf (msg : string)
  | Leprintf (pos : SourcePos) (msg : option string).

(** The outcome of running a piece of the program on a state: normal return,
    exit through a diagnostic, a memory fault (undefined behaviour), or the
    exhaustion of the fuel of the embedding. *)
Inductive Res (S A : Type) : Type :=
  | Ok (a : A) (s : S)
  | Abort (d : Diag)
  | Fault
  | OutOfFuel.
Arguments Ok {S A} a s.
Arguments Abort {S A} d.
Arguments Fault {S A}.
Arguments OutOfFuel {S A}.

(** The value with which a run returned, if it returned. *)
Definition returned {S A : Type} (r : Res S A) : option A :=
  match r with
  | Ok a _ => Some a
  | _ => None
  end.

(** ** symboltable.c *)

Module Symboltable.
Local Open Scope Z_scope.

Definition ptr : Type := nat.

(** Modelled from the spec: the record [IDPropt] of the missing
    [symboltable.h]: "its value-type; a local frame offset; a parameter
    count; an ordered sequence of parameter value-types".  A [NULL]
    parameter array is the empty list. *)
Record IDPropt : Type := mkIDPropt {
  type : ValType;
  offset : Z;
  nparams : Z;
  params : list ValType
}.

(** The static variables of the unit, with the two heaps they point into. *)
Record SymTab : Type := mkSymTab {
  tabs : list (option (Hashtable.HashTab string ptr));
  recs : list (option IDPropt);
  table : option ptr;
  saved_table : option ptr;
  curr_offset : Z;
  saved_offset : Z
}.

(** The value of a plain [char] as an [int] (signed, as on the usual
    targets). *)
Definition char_val (c : ascii) : Z :=
  let n := Z.of_N (N_of_ascii c) in
  if n <? 128 then n else n - 256.

(** The loop of [shift_hash] (the variant compiled without
    [DEBUG_SYMBOL_TABLE]); it stops at the terminating NUL. *)
Fixpoint shift_hash_loop (str : string) (h : Z) : Z :=
  match str with
  | EmptyString => h
  | String c str' =>
      if char_val c =? 0 then h
      else shift_hash_loop str'
             (Z.lxor (Hashtable.uint (Z.shiftl h 5))
                     (Hashtable.uint (char_val c)))
  end.

Definition shift_hash (k : string) (size : Z) : Z :=
  shift_hash_loop k 0 mod size.

(** [strcmp]: the sign of the first difference, up to the terminating NUL. *)
Fixpoint strcmp (s1 s2 : string) : Z :=
  match s1, s2 with
  | EmptyString, EmptyString => 0
  | EmptyString, String c2 _ => if (N_of_ascii c2 =? 0)%N then 0 else -1
  | String c1 _, EmptyString => if (N_of_ascii c1 =? 0)%N then 0 else 1
  | String c1 r1, String c2 r2 =>
      match N.compare (N_of_ascii c1) (N_of_ascii c2) with
      | Lt => -1
      | Gt => 1
      | Eq => if (N_of_ascii c1 =? 0)%N then 0 else strcmp r1 r2
      end
  end.

Definition key_strcmp (val1 val2 : string) : Z := strcmp val1 val2.

Definition loadfactor_075 : Q := 3 # 4.

(** Dereferences; a freed or unallocated slot is a fault. *)
Definition deref {A : Type} (heap : list (option A)) (p : ptr) : option A :=
  match heap !! p with
  | Some (Some a) => Some a
  | _ => None
  end.

(** [ht_init]: the new table is allocated at the end of the heap. *)
Definition new_table (s : SymTab) : ptr * SymTab :=
  (length (tabs s),
   {| tabs := tabs s
              ++ [Some (Hashtable.ht_init loadfactor_075 shift_hash
                          key_strcmp)];
      recs := recs s;
      table := table s;
      saved_table := saved_table s;
      curr_offset := curr_offset s;
      saved_offset := saved_offset s |}).

(** [ht_insert] through a table pointer, with its guard for a [NULL]
    table. *)
Definition ht_insert (s : SymTab) (ht : option ptr) (k : string) (v : ptr)
  : option (Hashtable.ht_code * SymTab) :=
  match ht with
  | None => Some (Hashtable.EXIT_FAILURE, s)
  | Some p =>
      match deref (tabs s) p with
      | None => None
      | Some h =>
          match Hashtable.ht_insert h k v with
          | None => None
          | Some (code, h') =>
              Some (code,
                    {| tabs := <[p := Some h']> (tabs s);
                       recs := recs s;
                       table := table s;
                       saved_table := saved_table s;
                       curr_offset := curr_offset s;
                       saved_offset := saved_offset s |})
          end
      end
  end.

(** [ht_search] through a table pointer, with its guard for a [NULL]
    table. *)
Definition ht_search (s : SymTab) (ht : option ptr) (k : string)
  : option (option ptr) :=
  match ht with
  | None => Some None
  | Some p =>
      match deref (tabs s) p with
      | None => None
      | Some h => Hashtable.ht_search h k
      end
  end.

(** Initialise the symbol table. *)
Definition init_symbol_table (s : SymTab) : Res SymTab unit :=
  let '(p, s1) := new_table s in
  Ok tt {| tabs := tabs s1;
           recs := recs s1;
           table := Some p;
           saved_table := None;
           curr_offset := 1;
           saved_offset := saved_offset s1 |}.

(** Open a new subroutine scope. *)
Definition open_subroutine (id : string) (prop : ptr) (s : SymTab)
  : Res SymTab bool :=
  let s0 := {| tabs := tabs s;
               recs := recs s;
               table := table s;
               saved_table := saved_table s;
               curr_offset := curr_offset s;
               saved_offset := curr_offset s |} in
  match table s0 with
  | None => Ok false s0
  | Some _ =>
      match ht_insert s0 (table s0) id prop with
      | None => Fault
      | Some (Hashtable.EXIT_SUCCESS, s1) =>
          let '(p, s2) := new_table s1 in
          Ok true {| tabs := tabs s2;
                     recs := recs s2;
                     table := Some p;
                     saved_table := table s1;
                     curr_offset := 1;
                     saved_offset := saved_offset s2 |}
      | Some (_, s1) => Ok false s1
      end
  end.

(** [freeprop], the [freeval] of [ht_free]: it reads the type of the record
    and frees the record. *)
Definition freeprop (heap : option (list (option IDPropt))) (p : ptr)
  : option (list (option IDPropt)) :=
  match heap with
  | None => None
  | Some rs =>
      match deref rs p with
      | None => None
      | Some _ => Some (<[p := None]> rs)
      end
  end.

(** Release the symbol table. *)
Definition release_symbol_table (s : SymTab) : Res SymTab unit :=
  match table s with
  | None => Ok tt s
  | Some p =>
      match deref (tabs s) p with
      | None => Fault
      | Some h =>
          match Hashtable.ht_free_values h with
          | None => Fault
          | Some vs =>
              match fold_left freeprop vs (Some (recs s)) with
              | None => Fault
              | Some rs =>
                  Ok tt {| tabs := <[p := None]> (tabs s);
                           recs := rs;
                           table := None;
                           saved_table := saved_table s;
                           curr_offset := curr_offset s;
                           saved_offset := saved_offset s |}
              end
          end
      end
  end.

(** Close the current subroutine scope. *)
Definition close_subroutine (s : SymTab) : Res SymTab unit :=
  let after :=
    match table s with
    | Some _ =>
        match release_symbol_table s with
        | Ok _ s1 =>
            Ok tt {| tabs := tabs s1;
                     recs := recs s1;
                     table := saved_table s1;
                     saved_table := saved_table s1;
                     curr_offset := curr_offset s1;
                     saved_offset := saved_offset s1 |}
        | r => r
        end
    | None => Ok tt s
    end in
  match after with
  | Ok _ s2 =>
      Ok tt {| tabs := tabs s2;
               recs := recs s2;
               table := table s2;
               saved_table := saved_table s2;
               curr_offset := 1;
               saved_offset := saved_offset s2 |}
  | r => r
  end.

(** Insert the properties of the identifier into the symbol table. *)
Definition insert_name (id : string) (prop : ptr) (s : SymTab)
  : Res SymTab bool :=
  match table s with
  | None => Abort (Eprintf "Symbol table is not initialized.")
  | Some _ =>
      match ht_insert s (table s) id prop with
      | None => Fault
      | Some (Hashtable.EXIT_SUCCESS, s1) =>
          match deref (recs s1) prop with
          | None => Fault
          | Some r =>
              if negb (IS_CALLABLE_TYPE (type r)) then
                Ok true {| tabs := tabs s1;
                           recs := <[prop := Some {| type := type r;
                                                     offset := curr_offset s1;
                                                     nparams := nparams r;
                                                     params := params r |}]>
                                     (recs s1);
                           table := table s1;
                           saved_table := saved_table s1;
                           curr_offset := Hashtable.uint (curr_offset s1 + 1);
                           saved_offset := saved_offset s1 |}
              else Ok true s1
          end
      | Some (_, s1) => Ok false s1
      end
  end.

(** Find the properties of the identifier in the symbol table.  The result
    is the pointer stored in [*prop]; the function returns [TRUE] exactly
    when it is not [NULL]. *)
Definition find_name (id : string) (s : SymTab) : Res SymTab (option ptr) :=
  match ht_search s (table s) id with
  | None => Fault
  | Some (Some p) => Ok (Some p) s
  | Some None =>
      match saved_table s with
      | None => Ok None s
      | Some _ =>
          match ht_search s (saved_table s) id with
          | None => Fault
          | Some None => Ok None s
          | Some (Some p) =>
              match deref (recs s) p with
              | None => Fault
              | Some r =>
                  if negb (IS_CALLABLE_TYPE (type r)) then Ok None s
                  else Ok (Some p) s
              end
          end
      end
  end.

(** The conversion of an [unsigned int] to [int]. *)
Definition to_int (x : Z) : Z := if x <? 2 ^ 31 then x else x - 2 ^ 32.

(** Get the width of the local variable array of the current subroutine. *)
Definition get_variables_width (s : SymTab) : Z := to_int (curr_offset s).

(** The static variables before [init_symbol_table] runs. *)
Definition initial : SymTab :=
  {| tabs := []; recs := []; table := None; saved_table := None;
     curr_offset := 0; saved_offset := 0 |}.

End Symboltable.

(** ** Tokens and the scanner

    [token.h] and the scanner are not part of the sources; the parser only
    relies on their contract. *)

Module Token.

(** Modelled from the spec: the token kinds of the missing [token.h]:
    "keywords, identifier, integer literal, string literal, punctuation,
    arithmetic/relational/logical operators, end-of-input", with the names
    the parser uses. *)
Inductive TokenType : Type :=
  | TOK_EOF | TOK_ID | TOK_NUM | TOK_STR
  | TOK_ARRAY | TOK_BOOL | TOK_CHILLAX | TOK_ELIF | TOK_ELSE | TOK_END
  | TOK_IF | TOK_INPUT | TOK_INT | TOK_LET | TOK_MAIN | TOK_NOT | TOK_OUTPUT
  | TOK_PROGRAM | TOK_RETURN | TOK_WHILE | TOK_TRUE | TOK_FALSE
  | TOK_EQ | TOK_GE | TOK_GT | TOK_LE | TOK_LT | TOK_NE
  | TOK_MINUS | TOK_OR | TOK_PLUS
  | TOK_AND | TOK_DIV | TOK_MUL | TOK_REM
  | TOK_ARROW | TOK_COLON | TOK_COMMA | TOK_DOTDOT | TOK_LBRACK | TOK_LPAREN
  | TOK_RBRACK | TOK_RPAREN | TOK_SEMICOLON.

Scheme Equality for TokenType.

(** Modelled from the spec: the [Token] of the missing [token.h], of which
    the parser reads the kind and the lexeme. *)
Record Token : Type := mkToken { type : TokenType; lexeme : string }.

(** Modelled from the spec: [get_token_string], "a stable mapping from kind
    to printable name"; the scenarios of the spec print fixed tokens as their
    lexeme between single quotes ([expected ':', but found 'main']). *)
Definition get_token_string (t : TokenType) : string :=
  match t with
  | TOK_EOF => "end-of-file"
  | TOK_ID => "an identifier"
  | TOK_NUM => "a number"
  | TOK_STR => "a string"
  | TOK_ARRAY => "'array'"
  | TOK_BOOL => "'bool'"
  | TOK_CHILLAX => "'chillax'"
  | TOK_ELIF => "'elif'"
  | TOK_ELSE => "'else'"
  | TOK_END => "'end'"
  | TOK_IF => "'if'"
  | TOK_INPUT => "'input'"
  | TOK_INT => "'int'"
  | TOK_LET => "'let'"
  | TOK_MAIN => "'main'"
  | TOK_NOT => "'not'"
  | TOK_OUTPUT => "'output'"
  | TOK_PROGRAM => "'program'"
  | TOK_RETURN => "'return'"
  | TOK_WHILE => "'while'"
  | TOK_TRUE => "'true'"
  | TOK_FALSE => "'false'"
  | TOK_EQ => "'='"
  | TOK_GE => "'>='"
  | TOK_GT => "'>'"
  | TOK_LE => "'<='"
  | TOK_LT => "'<'"
  | TOK_NE => "'/='"
  | TOK_MINUS => "'-'"
  | TOK_OR => "'or'"
  | TOK_PLUS => "'+'"
  | TOK_AND => "'and'"
  | TOK_DIV => "'/'"
  | TOK_MUL => "'*'"
  | TOK_REM => "'rem'"
  | TOK_ARROW => "'->'"
  | TOK_COLON => "':'"
  | TOK_COMMA => "','"
  | TOK_DOTDOT => "'..'"
  | TOK_LBRACK => "'['"
  | TOK_LPAREN => "'('"
  | TOK_RBRACK => "']'"
  | TOK_RPAREN => "')'"
  | TOK_SEMICOLON => "';'"
  end.

End Token.

(** ** amplc.c *)

Module Amplc.
Import Token.
Local Open Scope Z_scope.
Local Open Scope string_scope.

Abbreviation ptr := Symboltable.ptr.
Abbreviation IDPropt := Symboltable.IDPropt.

(** The global variables of the compiler: the scanner (the tokens it has not
    delivered yet, the position of the end of the file and its [position]),
    the lookahead [token], the [return_type] of the current subroutine, and
    the symbol table unit. *)
Record State : Type := mkState {
  source : list (Token * SourcePos);
  eof_position : SourcePos;
  position : SourcePos;
  token : Token;
  return_type : ValType;
  symtab : Symboltable.SymTab
}.

Definition set_position (p : SourcePos) (st : State) : State :=
  {| source := source st; eof_position := eof_position st; position := p;
     token := token st; return_type := return_type st; symtab := symtab st |}.

Definition set_return_type (t : ValType) (st : State) : State :=
  {| source := source st; eof_position := eof_position st;
     position := position st; token := token st; return_type := t;
     symtab := symtab st |}.

Definition set_symtab (s : Symboltable.SymTab) (st : State) : State :=
  {| source := source st; eof_position := eof_position st;
     position := position st; token := token st;
     return_type := return_type st; symtab := s |}.

(** Modelled from the spec: [get_token(&token)] of the missing scanner:
    "advance() overwrites the lookahead with the next token", and [position]
    is "the scanner's last token position", the place where that token
    began. *)
Definition get_token (st : State) : State :=
  match source st with
  | [] =>
      {| source := []; eof_position := eof_position st;
         position := eof_position st; token := mkToken TOK_EOF "";
         return_type := return_type st; symtab := symtab st |}
  | (t, p) :: rest =>
      {| source := rest; eof_position := eof_position st; position := p;
         token := t; return_type := return_type st; symtab := symtab st |}
  end.

(** *** The state-and-exit monad of the parser *)

Definition M (A : Type) : Type := State -> Res State A.

Definition ret {A : Type} (a : A) : M A := fun st => Ok a st.

Definition bind {A B : Type} (m : M A) (k : A -> M B) : M B :=
  fun st =>
    match m st with
    | Ok a st' => k a st'
    | Abort d => Abort d
    | Fault => Fault
    | OutOfFuel => OutOfFuel
    end.

Notation "'let*' x := m 'in' k" := (bind m (fun x => k))
  (at level 10, x name, m at level 100, k at level 200).

Definition out_of_fuel {A : Type} : M A := fun _ => OutOfFuel.
Definition fault {A : Type} : M A := fun _ => Fault.
Definition get {A : Type} (f : State -> A) : M A := fun st => Ok (f st) st.
Definition modify (f : State -> State) : M unit := fun st => Ok tt (f st).
Definition when (b : bool) (m : M unit) : M unit := if b then m else ret tt.

(** Calls into the symbol table unit. *)
Definition sym {A : Type} (f : Symboltable.SymTab -> Res Symboltable.SymTab A)
  : M A :=
  fun st =>
    match f (symtab st) with
    | Ok a s => Ok a (set_symtab s st)
    | Abort d => Abort d
    | Fault => Fault
    | OutOfFuel => OutOfFuel
    end.

Definition advance : M unit := modify get_token.
Definition tok : M TokenType := get (fun st => type (token st)).
Definition is_tok (t : TokenType) : M bool :=
  get (fun st => TokenType_beq (type (token st)) t).

(** [prop->...]: reads through a record pointer. *)
Definition load (p : ptr) : M IDPropt :=
  fun st =>
    match Symboltable.deref (Symboltable.recs (symtab st)) p with
    | Some r => Ok r st
    | None => Fault
    end.

(** *** Helper macros *)

Definition STARTS_FACTOR (toktype : TokenType) : bool :=
  match toktype with
  | TOK_ID | TOK_NUM | TOK_LPAREN | TOK_NOT | TOK_TRUE | TOK_FALSE => true
  | _ => false
  end.

Definition STARTS_EXPR (toktype : TokenType) : bool :=
  match toktype with
  | TOK_MINUS | TOK_ID | TOK_NUM | TOK_LPAREN | TOK_NOT | TOK_TRUE
  | TOK_FALSE => true
  | _ => false
  end.

(** Modelled from the spec: the three range tests run over the enumeration
    order of the missing [token.h]; the spec lists their members:
    IS_ADDOP: {"-", "or", "+"}, IS_MULOP: {"and", "/", "*", "rem"},
    IS_RELOP: IS_ORDOP with {"=", "/="}. *)
Definition IS_ADDOP (toktype : TokenType) : bool :=
  match toktype with
  | TOK_MINUS | TOK_OR | TOK_PLUS => true
  | _ => false
  end.

Definition IS_MULOP (toktype : TokenType) : bool :=
  match toktype with
  | TOK_AND | TOK_DIV | TOK_MUL | TOK_REM => true
  | _ => false
  end.

Definition IS_ORDOP (toktype : TokenType) : bool :=
  match toktype with
  | TOK_GT | TOK_GE | TOK_LT | TOK_LE => true
  | _ => false
  end.

Definition IS_RELOP (toktype : TokenType) : bool :=
  match toktype with
  | TOK_EQ | TOK_GE | TOK_GT | TOK_LE | TOK_LT | TOK_NE => true
  | _ => false
  end.

(** *** Error reporting *)

(** Modelled from the spec: the error kinds of the missing [errmsg.h], as
    listed in the error table of the spec and in the cases of
    [_abort_cp]. *)
Inductive Error : Type :=
  | ERR_EXPECT
  | ERR_EXPECTED_TYPE_SPECIFIER
  | ERR_EXPECTED_STATEMENT
  | ERR_EXPECTED_FACTOR
  | ERR_EXPECTED_EXPRESSION_OR_ARRAY_ALLOCATION
  | ERR_EXPECTED_EXPRESSION_OR_STRING
  | ERR_UNREACHABLE
  | ERR_MULTIPLE_DEFINITION
  | ERR_UNKNOWN_IDENTIFIER
  | ERR_NOT_A_VARIABLE
  | ERR_NOT_AN_ARRAY
  | ERR_NOT_A_FUNCTION
  | ERR_NOT_A_PROCEDURE
  | ERR_ILLEGAL_ARRAY_OPERATION
  | ERR_EXPECTED_SCALAR
  | ERR_TOO_FEW_ARGUMENTS
  | ERR_TOO_MANY_ARGUMENTS
  | ERR_MISSING_RETURN_EXPRESSION
  | ERR_RETURN_EXPRESSION_NOT_ALLOWED
  | ERR_TYPE_MISMATCH.

(** A variadic argument as the callers of [abort_c] pass them. *)
Inductive Arg : Type :=
  | AStr (s : string)
  | ATok (t : TokenType).

(** [va_arg(args, char * )]: the next argument when the caller passed a
    string.  Several callers of [abort_c] pass no argument at all; the value
    read is then indeterminate ([None]), which matters only where the
    message is formatted from it. *)
Definition va_arg_str (args : list Arg) : option string :=
  match args with
  | AStr s :: _ => Some s
  | _ => None
  end.

(** [va_arg(args, int)] for a token kind. *)
Definition va_arg_tok (args : list Arg) : option TokenType :=
  match args with
  | ATok t :: _ => Some t
  | _ => None
  end.

(** Modelled from the spec: [leprintf] of the missing [error.h]: the message
    is printed behind the current [position] and the process exits. *)
Definition leprintf {A : Type} (msg : option string) : M A :=
  fun st => Abort (Leprintf (position st) msg).

(** A format with one [%s], filled with an argument that may be
    indeterminate. *)
Definition fmt_s (before : string) (s : option string) (after : string)
  : option string :=
  match s with
  | Some s => Some (before ++ s ++ after)
  | None => None
  end.

(** handles all errors for parsing and type checking.  Where the message
    has a [%s] and the caller passed no argument, as [parse_call] does for
    [ERR_NOT_A_PROCEDURE] on a function and [parse_input] for
    [ERR_EXPECTED_SCALAR], the C code formats an indeterminate pointer:
    the run ends there in undefined behaviour, which the diagnostic
    without text stands for. *)
Definition _abort_cp {A : Type} (posp : option SourcePos) (err : Error)
    (args : list Arg) : M A :=
  fun st =>
    let st := match posp with
              | Some p => set_position p st
              | None => st
              end in
    let expstr (x : option string) : option string :=
      fmt_s "expected " x
            (", but found " ++ get_token_string (type (token st))) in
    let '(s, err) :=
      match err with
      | ERR_EXPECTED_SCALAR | ERR_ILLEGAL_ARRAY_OPERATION
      | ERR_MULTIPLE_DEFINITION | ERR_NOT_AN_ARRAY | ERR_NOT_A_FUNCTION
      | ERR_NOT_A_PROCEDURE | ERR_NOT_A_VARIABLE | ERR_TOO_FEW_ARGUMENTS
      | ERR_TOO_MANY_ARGUMENTS | ERR_UNKNOWN_IDENTIFIER | ERR_UNREACHABLE
      | ERR_EXPECTED_TYPE_SPECIFIER | ERR_EXPECTED_STATEMENT
      | ERR_EXPECTED_FACTOR | ERR_EXPECTED_EXPRESSION_OR_ARRAY_ALLOCATION
      | ERR_EXPECTED_EXPRESSION_OR_STRING | ERR_RETURN_EXPRESSION_NOT_ALLOWED
      | ERR_MISSING_RETURN_EXPRESSION => (va_arg_str args, err)
      | ERR_EXPECT => (None, err)
      | _ => (None, ERR_UNREACHABLE)
      end in
    let msg :=
      match err with
      | ERR_EXPECT =>
          expstr (option_map get_token_string (va_arg_tok args))
      | ERR_EXPECTED_FACTOR => expstr (Some "factor")
      | ERR_UNREACHABLE => fmt_s "unreachable: " s ""
      | ERR_EXPECTED_TYPE_SPECIFIER => expstr (Some "type specifier")
      | ERR_EXPECTED_STATEMENT => expstr (Some "statement")
      | ERR_EXPECTED_EXPRESSION_OR_ARRAY_ALLOCATION =>
          expstr (Some "expression or array allocation")
      | ERR_EXPECTED_EXPRESSION_OR_STRING =>
          expstr (Some "expression or string")
      | ERR_MULTIPLE_DEFINITION => fmt_s "multiple definition of '" s "'"
      | ERR_UNKNOWN_IDENTIFIER => fmt_s "unknown identifier '" s "'"
      | ERR_NOT_A_VARIABLE => fmt_s "'" s "' is not a variable"
      | ERR_NOT_AN_ARRAY => fmt_s "'" s "' is not an array"
      | ERR_NOT_A_FUNCTION => fmt_s "'" s "' is not a function"
      | ERR_ILLEGAL_ARRAY_OPERATION =>
          fmt_s "" s " is an illegal array operation"
      | ERR_MISSING_RETURN_EXPRESSION =>
          Some "missing return expression for a function"
      | ERR_RETURN_EXPRESSION_NOT_ALLOWED =>
          Some "a return expression is not allowed for a procedure"
      | ERR_TOO_FEW_ARGUMENTS => fmt_s "too few arguments for call to '" s "'"
      | ERR_TOO_MANY_ARGUMENTS =>
          fmt_s "too many arguments for call to '" s "'"
      | ERR_NOT_A_PROCEDURE => fmt_s "'" s "' is not a procedure"
      | ERR_EXPECTED_SCALAR =>
          fmt_s "expected scalar variable instead of '" s "'"
      | _ => fmt_s "unreachable: " s ""
      end in
    leprintf msg st.

(** handles errors *)
Definition abort_c {A : Type} (err : Error) (args : list Arg) : M A :=
  _abort_cp None err args.

(** handles errors and appends position *)
Definition abort_cp {A : Type} (posp : SourcePos) (err : Error)
    (args : list Arg) : M A :=
  _abort_cp (Some posp) err args.

(** Modelled from the spec: [get_valtype_string] of the missing value-type
    unit.  The spec prints [int] and [bool] ("incompatible types (expected
    int, found bool)"); the other names are composed from the attributes. *)
Definition get_valtype_string (t : ValType) : string :=
  (if (base_kind t =? TYPE_INTEGER)%Z then "int"
   else if (base_kind t =? TYPE_BOOLEAN)%Z then "bool"
   else "none")
  ++ (if IS_ARRAY_TYPE t then " array" else "")
  ++ (if IS_CALLABLE_TYPE t then " callable" else "").

(** [chktypes]; [ctx] is the text that the callers format with their
    trailing arguments.  The truncation of the buffers at [MAX_MSG_LEN]
    characters is not modelled. *)
Definition chktypes (found expected : ValType) (pos : SourcePos)
    (ctx : string) : M unit :=
  if negb (found =? expected)%Z then
    let* _ := modify (set_position pos) in
    leprintf (Some ("incompatible types (expected "
                    ++ get_valtype_string expected ++ ", found "
                    ++ get_valtype_string found ++ ") " ++ ctx))
  else ret tt.

(** Compares expected token to the current token *)
Definition expect (t : TokenType) : M unit :=
  let* b := is_tok t in
  if b then advance else abort_c ERR_EXPECT [ATok t].

(** Checks for valid id *)
Definition expect_id : M string :=
  let* b := is_tok TOK_ID in
  if b then
    let* id := get (fun st => lexeme (token st)) in
    let* _ := advance in
    ret id
  else abort_c ERR_EXPECT [ATok TOK_ID].

(** *** Constructors *)

(** [idpropt]: the record is allocated at the end of the record heap. *)
Definition idpropt (type : ValType) (offset nparams : Z)
    (params : list ValType) : M ptr :=
  fun st =>
    let s := symtab st in
    Ok (length (Symboltable.recs s))
       (set_symtab
          {| Symboltable.tabs := Symboltable.tabs s;
             Symboltable.recs :=
               Symboltable.recs s
               ++ [Some (Symboltable.mkIDPropt type offset nparams params)];
             Symboltable.table := Symboltable.table s;
             Symboltable.saved_table := Symboltable.saved_table s;
             Symboltable.curr_offset := Symboltable.curr_offset s;
             Symboltable.saved_offset := Symboltable.saved_offset s |} st).

(** a node of the provisional parameter list of [parse_subdef] *)
Record Variable_s : Type := variable {
  id : string;
  vtype : ValType;
  pos : SourcePos
}.

Definition find_name (id : string) : M (option ptr) :=
  sym (Symboltable.find_name id).
Definition insert_name (id : string) (prop : ptr) : M bool :=
  sym (Symboltable.insert_name id prop).
Definition get_variables_width : M Z :=
  get (fun st => Symboltable.get_variables_width (symtab st)).

(** The decimal text of [%d]. *)
Definition dec (z : Z) : string := NilZero.string_of_int (Z.to_int z).

(** *** Parser routines: expressions

    The routines are mutually recursive; the embedding recurses on a fuel
    that every call decrements. *)

Definition parse_relop : M unit := advance.
Definition parse_addop : M unit := advance.
Definition parse_mulop : M unit := advance.

(** The argument check that [parse_arglist] applies to each argument. *)
Definition check_argument (t1 param : ValType) (pos : SourcePos) (i : Z)
    (id : string) : M unit :=
  let ctx := "for argument " ++ dec (i + 1) ++ " of call to '" ++ id ++ "'" in
  if negb (IS_ARRAY_TYPE t1) && negb (IS_ARRAY_TYPE param) then
    if negb ((IS_INTEGER_TYPE t1 && IS_INTEGER_TYPE param)
             || (IS_BOOLEAN_TYPE t1 && IS_BOOLEAN_TYPE param)
             || (IS_CALLABLE_TYPE t1 && IS_CALLABLE_TYPE param))
    then chktypes t1 param pos ctx
    else ret tt
  else chktypes t1 param pos ctx.

(** [prop->params[i]] *)
Definition param_at (prop : IDPropt) (i : Z) : M ValType :=
  match Symboltable.params prop !! Z.to_nat i with
  | Some t => ret t
  | None => fault
  end.

Fixpoint parse_expr (fuel : nat) : M ValType :=
  match fuel with
  | O => out_of_fuel
  | S fuel =>
      let* t1 := parse_simple fuel in
      let* toktype := tok in
      if IS_RELOP toktype then
        let* _ := when (IS_ARRAY t1)
                    (abort_c ERR_ILLEGAL_ARRAY_OPERATION
                       [AStr (get_token_string toktype)]) in
        let* pos := get position in
        let* _ := parse_relop in
        let* t2 := parse_simple fuel in
        let* _ := when (IS_ARRAY t2)
                    (let* _ := modify (set_position pos) in
                     abort_c ERR_ILLEGAL_ARRAY_OPERATION
                       [AStr (get_token_string toktype)]) in
        let ctx := "for operator " ++ get_token_string toktype in
        match toktype with
        | TOK_EQ | TOK_NE =>
            let* _ := chktypes t1 t2 pos ctx in
            ret TYPE_BOOLEAN
        | _ =>
            let* _ := chktypes t1 TYPE_INTEGER pos ctx in
            let* _ := chktypes t2 TYPE_INTEGER pos ctx in
            ret TYPE_BOOLEAN
        end
      else ret t1
  end

with parse_simple (fuel : nat) : M ValType :=
  match fuel with
  | O => out_of_fuel
  | S fuel =>
      let* minus := is_tok TOK_MINUS in
      if minus then
        let* pos := get position in
        let* _ := advance in
        let pos2 := pos in
        let* t0 := parse_term fuel in
        let* _ := when (IS_ARRAY t0)
                    (let* _ := modify (set_position pos) in
                     abort_c ERR_ILLEGAL_ARRAY_OPERATION
                       [AStr "unary minus"]) in
        let pos2 := mkSourcePos (line pos2) (col pos2 + 1) in
        let* _ := chktypes t0 TYPE_INTEGER pos2 "for unary minus" in
        ret t0
      else
        let* t0 := parse_term fuel in
        let* toktype := tok in
        let* _ := when (IS_ADDOP toktype && IS_ARRAY t0)
                    (abort_c ERR_ILLEGAL_ARRAY_OPERATION
                       [AStr (get_token_string toktype)]) in
        let* _ := parse_simple_loop fuel t0 in
        ret t0
  end

(** [while (IS_ADDOP(token.type))] of [parse_simple] *)
with parse_simple_loop (fuel : nat) (t0 : ValType) : M unit :=
  match fuel with
  | O => out_of_fuel
  | S fuel =>
      let* toktype := tok in
      if IS_ADDOP toktype then
        let* pos := get position in
        let* _ := advance in
        let* t1 := parse_term fuel in
        let* _ := when (IS_ARRAY t1)
                    (let* _ := modify (set_position pos) in
                     abort_c ERR_ILLEGAL_ARRAY_OPERATION
                       [AStr (get_token_string toktype)]) in
        let ctx := "for operator " ++ get_token_string toktype in
        let* _ :=
          match toktype with
          | TOK_OR =>
              let* _ := chktypes t0 TYPE_BOOLEAN pos ctx in
              chktypes t1 TYPE_BOOLEAN pos ctx
          | _ =>
              let* _ := when (negb (IS_INTEGER_TYPE t0))
                          (chktypes t0 TYPE_INTEGER pos ctx) in
              when (negb (IS_INTEGER_TYPE t1))
                (chktypes t1 TYPE_INTEGER pos ctx)
          end in
        parse_simple_loop fuel t0
      else ret tt
  end

with parse_term (fuel : nat) : M ValType :=
  match fuel with
  | O => out_of_fuel
  | S fuel =>
      let* t0 := parse_factor fuel in
      let* toktype := tok in
      let* _ := when (IS_MULOP toktype && IS_ARRAY t0)
                  (abort_c ERR_ILLEGAL_ARRAY_OPERATION
                     [AStr (get_token_string toktype)]) in
      let* _ := parse_term_loop fuel t0 in
      ret t0
  end

(** [while (IS_MULOP(token.type))] of [parse_term] *)
with parse_term_loop (fuel : nat) (t0 : ValType) : M unit :=
  match fuel with
  | O => out_of_fuel
  | S fuel =>
      let* toktype := tok in
      if IS_MULOP toktype then
        let* pos := get position in
        let* _ := parse_mulop in
        let* t1 := parse_factor fuel in
        let* _ := when (IS_ARRAY t1)
                    (let* _ := modify (set_position pos) in
                     abort_c ERR_ILLEGAL_ARRAY_OPERATION
                       [AStr (get_token_string toktype)]) in
        let ctx := "for operator " ++ get_token_string toktype in
        let* _ :=
          match toktype with
          | TOK_AND =>
              let* _ := chktypes t0 TYPE_BOOLEAN pos ctx in
              chktypes t1 TYPE_BOOLEAN pos ctx
          | _ =>
              let* _ := chktypes t0 TYPE_INTEGER pos ctx in
              chktypes t1 TYPE_INTEGER pos ctx
          end in
        parse_term_loop fuel t0
      else ret tt
  end

with parse_factor (fuel : nat) : M ValType :=
  match fuel with
  | O => out_of_fuel
  | S fuel =>
      let* toktype := tok in
      match toktype with
      | TOK_ID =>
          let* pos := get position in
          let* id := expect_id in
          let* found := find_name id in
          match found with
          | None =>
              let* _ := modify (set_position pos) in
              abort_c ERR_UNKNOWN_IDENTIFIER [AStr id]
          | Some p =>
              let* prop := load p in
              let* next := tok in
              match next with
              | TOK_LBRACK =>
                  let* _ := when (negb (IS_ARRAY_TYPE (Symboltable.type prop)))
                              (let* _ := modify (set_position pos) in
                               abort_c ERR_NOT_AN_ARRAY [AStr id]) in
                  let t0 := Z.land (Symboltable.type prop) 6 in
                  let* _ := parse_index fuel id in
                  ret t0
              | TOK_LPAREN =>
                  let* _ := when (negb (IS_FUNCTION (Symboltable.type prop)))
                              (let* _ := modify (set_position pos) in
                               abort_c ERR_NOT_A_FUNCTION [AStr id]) in
                  let t0 := Z.lxor (Z.land (Symboltable.type prop) 6)
                                   TYPE_CALLABLE in
                  let* _ := parse_arglist fuel id pos in
                  ret t0
              | _ => ret (Symboltable.type prop)
              end
          end
      | TOK_NUM =>
          let* _ := advance in
          ret TYPE_INTEGER
      | TOK_LPAREN =>
          let* _ := expect TOK_LPAREN in
          let* t0 := parse_expr fuel in
          let* _ := expect TOK_RPAREN in
          ret t0
      | TOK_NOT =>
          let* pos_not := get position in
          let* _ := expect TOK_NOT in
          let* pos := get position in
          let* t0 := parse_factor fuel in
          let* _ := when (IS_ARRAY_TYPE t0)
                      (let* _ := modify (set_position pos_not) in
                       abort_c ERR_ILLEGAL_ARRAY_OPERATION [AStr "'not'"]) in
          let* _ := chktypes t0 TYPE_BOOLEAN pos "for 'not'" in
          ret t0
      | TOK_TRUE =>
          let* _ := expect TOK_TRUE in
          ret TYPE_BOOLEAN
      | TOK_FALSE =>
          let* _ := expect TOK_FALSE in
          ret TYPE_BOOLEAN
      | _ => abort_c ERR_EXPECTED_FACTOR []
      end
  end

with parse_index (fuel : nat) (id : string) : M unit :=
  match fuel with
  | O => out_of_fuel
  | S fuel =>
      let* _ := find_name id in
      let* _ := expect TOK_LBRACK in
      let* pos := get position in
      let* t1 := parse_simple fuel in
      let* _ := chktypes t1 TYPE_INTEGER pos
                  ("for array index of '" ++ id ++ "'") in
      expect TOK_RBRACK
  end

with parse_arglist (fuel : nat) (id : string) (idpos : SourcePos) : M unit :=
  match fuel with
  | O => out_of_fuel
  | S fuel =>
      let* found := find_name id in
      match found with
      | None =>
          let* _ := modify (set_position idpos) in
          abort_c ERR_UNKNOWN_IDENTIFIER [AStr id]
      | Some p =>
          let i := 0 in
          let* _ := expect TOK_LPAREN in
          let* toktype := tok in
          let* _ :=
            if STARTS_EXPR toktype then
              let* pos := get position in
              let* t1 := parse_expr fuel in
              let* prop := load p in
              let* param := param_at prop i in
              let* _ := check_argument t1 param pos i id in
              let i := Hashtable.uint (i + 1) in
              let* i := parse_arglist_loop fuel id p i in
              let* prop := load p in
              when (i <? Symboltable.nparams prop)%Z
                (abort_c ERR_TOO_FEW_ARGUMENTS [AStr id])
            else ret tt in
          expect TOK_RPAREN
      end
  end

(** [while (token.type == TOK_COMMA)] of [parse_arglist]; the result is the
    final value of [i]. *)
with parse_arglist_loop (fuel : nat) (id : string) (p : ptr) (i : Z) : M Z :=
  match fuel with
  | O => out_of_fuel
  | S fuel =>
      let* comma := is_tok TOK_COMMA in
      if comma then
        let* prop := load p in
        let* _ := when (i >=? Symboltable.nparams prop)%Z
                    (abort_c ERR_TOO_MANY_ARGUMENTS [AStr id]) in
        let* _ := advance in
        let* pos := get position in
        let* t1 := parse_expr fuel in
        let* prop := load p in
        let* param := param_at prop i in
        let* _ := check_argument t1 param pos i id in
        parse_arglist_loop fuel id p (Hashtable.uint (i + 1))
      else ret i
  end.

(** *** Parser routines: statements *)

Definition parse_string : M unit := advance.

Definition parse_assign (fuel : nat) : M unit :=
  let* _ := expect TOK_LET in
  let* idpos := get position in
  let* id := expect_id in
  let* found := find_name id in
  match found with
  | None =>
      let* _ := modify (set_position idpos) in
      abort_c ERR_UNKNOWN_IDENTIFIER [AStr id]
  | Some p =>
      let* prop := load p in
      let proptype := Symboltable.type prop in
      let original_proptype := proptype in
      let* _ := when (IS_CALLABLE_TYPE (Symboltable.type prop))
                  (let* _ := modify (set_position idpos) in
                   abort_c ERR_NOT_A_VARIABLE [AStr id]) in
      let* lbrack := is_tok TOK_LBRACK in
      let* indexed_type :=
        if lbrack then
          let* _ := when (negb (IS_ARRAY_TYPE (Symboltable.type prop)))
                      (let* _ := modify (set_position idpos) in
                       abort_c ERR_NOT_AN_ARRAY [AStr id]) in
          let* _ := parse_index fuel id in
          ret (true, Z.lxor proptype TYPE_ARRAY)
        else ret (false, proptype) in
      let '(indexed, proptype) := indexed_type in
      let* _ := expect TOK_EQ in
      let* pos := get position in
      let* toktype := tok in
      if STARTS_EXPR toktype then
        let* t1 := parse_expr fuel in
        let* _ :=
          if indexed : bool then
            when (negb (IS_ARRAY t1))
              (chktypes t1 proptype pos
                 ("for allocation to indexed array '" ++ id ++ "'"))
          else
            when (negb (Bool.eqb (IS_ARRAY t1) (IS_ARRAY original_proptype)))
              (chktypes t1 original_proptype pos
                 ("for assignment to '" ++ id ++ "'")) in
        if IS_INTEGER_TYPE proptype && negb (IS_INTEGER_TYPE t1) then
          chktypes t1 proptype pos ("for assignment to '" ++ id ++ "'")
        else if IS_BOOLEAN_TYPE proptype && negb (IS_BOOLEAN_TYPE t1) then
          chktypes t1 proptype pos ("for assignment to '" ++ id ++ "'")
        else ret tt
      else
        match toktype with
        | TOK_ARRAY =>
            let* _ := when (negb (IS_ARRAY original_proptype))
                        (let* _ := modify (set_position idpos) in
                         abort_c ERR_NOT_AN_ARRAY [AStr id]) in
            let* _ := advance in
            let* pos := get position in
            let* t1 := parse_simple fuel in
            chktypes t1 TYPE_INTEGER pos
              ("for array size of '" ++ id ++ "'")
        | _ => abort_c ERR_EXPECTED_EXPRESSION_OR_ARRAY_ALLOCATION []
        end
  end.

Definition parse_call (fuel : nat) : M unit :=
  let* idpos := get position in
  let* id := expect_id in
  let* found := find_name id in
  match found with
  | None =>
      let* _ := modify (set_position idpos) in
      abort_c ERR_UNKNOWN_IDENTIFIER [AStr id]
  | Some p =>
      let* prop := load p in
      let* _ := when (IS_FUNCTION (Symboltable.type prop))
                  (let* _ := modify (set_position idpos) in
                   abort_c ERR_NOT_A_PROCEDURE []) in
      let type := Symboltable.type prop in
      let* _ := when (negb (IS_CALLABLE_TYPE type))
                  (let* _ := modify (set_position idpos) in
                   if IS_FUNCTION type
                   then abort_c ERR_NOT_A_FUNCTION [AStr id]
                   else abort_c ERR_NOT_A_PROCEDURE [AStr id]) in
      parse_arglist fuel id idpos
  end.

Definition parse_input (fuel : nat) : M unit :=
  let* _ := expect TOK_INPUT in
  let* _ := expect TOK_LPAREN in
  let* pos := get position in
  let* id := expect_id in
  let* found := find_name id in
  match found with
  | None =>
      let* _ := modify (set_position pos) in
      abort_c ERR_UNKNOWN_IDENTIFIER [AStr id]
  | Some p =>
      let* prop := load p in
      let* lbrack := is_tok TOK_LBRACK in
      let* _ :=
        if lbrack then
          let* _ := when (negb (IS_ARRAY (Symboltable.type prop)))
                      (let* _ := modify (set_position pos) in
                       abort_c ERR_NOT_AN_ARRAY [AStr id]) in
          parse_index fuel id
        else
          when (IS_ARRAY (Symboltable.type prop))
            (let* _ := modify (set_position pos) in
             abort_c ERR_EXPECTED_SCALAR []) in
      expect TOK_RPAREN
  end.

(** One operand of [parse_output], after [pos] was taken. *)
Definition parse_output_item (fuel : nat) (pos : SourcePos) : M unit :=
  let* toktype := tok in
  match toktype with
  | TOK_STR => parse_string
  | _ =>
      if STARTS_EXPR toktype then
        let* t1 := parse_expr fuel in
        when (IS_ARRAY t1)
          (let* _ := modify (set_position pos) in
           abort_c ERR_ILLEGAL_ARRAY_OPERATION [AStr "'output'"])
      else abort_c ERR_EXPECTED_EXPRESSION_OR_STRING []
  end.

(** [while (token.type == TOK_DOTDOT)] of [parse_output] *)
Fixpoint parse_output_loop (fuel : nat) : M unit :=
  match fuel with
  | O => out_of_fuel
  | S fuel =>
      let* dotdot := is_tok TOK_DOTDOT in
      if dotdot then
        let* pos := get position in
        let* _ := advance in
        let* _ := parse_output_item fuel pos in
        parse_output_loop fuel
      else ret tt
  end.

Definition parse_output (fuel : nat) : M unit :=
  let* pos := get position in
  let* _ := expect TOK_OUTPUT in
  let* _ := expect TOK_LPAREN in
  let* _ := parse_output_item fuel pos in
  let* _ := parse_output_loop fuel in
  expect TOK_RPAREN.

Definition parse_return (fuel : nat) : M unit :=
  let* pos := get position in
  let* _ := expect TOK_RETURN in
  let* return_type := get return_type in
  let* _ := when (IS_PROCEDURE return_type)
              (abort_c ERR_RETURN_EXPRESSION_NOT_ALLOWED []) in
  let* toktype := tok in
  if STARTS_EXPR toktype then
    if IS_PROCEDURE return_type then
      abort_c ERR_RETURN_EXPRESSION_NOT_ALLOWED []
    else if IS_FUNCTION return_type then
      let* pos := get position in
      let* t1 := parse_expr fuel in
      let t2 := return_type in
      let t2 := SET_RETURN_TYPE t2 in
      let t1 := SET_RETURN_TYPE t1 in
      chktypes t1 t2 pos "for 'return' statement"
    else ret tt
  else if IS_FUNCTION return_type then
    let* _ := modify (set_position pos) in
    abort_c ERR_MISSING_RETURN_EXPRESSION []
  else if IS_PROCEDURE return_type then
    abort_c ERR_RETURN_EXPRESSION_NOT_ALLOWED []
  else ret tt.

Fixpoint parse_statements (fuel : nat) : M unit :=
  match fuel with
  | O => out_of_fuel
  | S fuel =>
      let* chillax := is_tok TOK_CHILLAX in
      if chillax then advance
      else
        let* _ := parse_statement fuel in
        parse_statements_loop fuel
  end

(** [while (token.type == TOK_SEMICOLON)] of [parse_statements] *)
with parse_statements_loop (fuel : nat) : M unit :=
  match fuel with
  | O => out_of_fuel
  | S fuel =>
      let* semicolon := is_tok TOK_SEMICOLON in
      if semicolon then
        let* _ := advance in
        let* _ := parse_statement fuel in
        parse_statements_loop fuel
      else ret tt
  end

with parse_statement (fuel : nat) : M unit :=
  match fuel with
  | O => out_of_fuel
  | S fuel =>
      let* toktype := tok in
      match toktype with
      | TOK_LET => parse_assign fuel
      | TOK_ID => parse_call fuel
      | TOK_IF => parse_if fuel
      | TOK_INPUT => parse_input fuel
      | TOK_OUTPUT => parse_output fuel
      | TOK_RETURN => parse_return fuel
      | TOK_WHILE => parse_while fuel
      | _ => abort_c ERR_EXPECTED_STATEMENT []
      end
  end

with parse_if (fuel : nat) : M unit :=
  match fuel with
  | O => out_of_fuel
  | S fuel =>
      let* _ := expect TOK_IF in
      let* pos := get position in
      let* t1 := parse_expr fuel in
      let* _ := chktypes t1 TYPE_BOOLEAN pos "for 'if' guard" in
      let* _ := expect TOK_COLON in
      let* _ := parse_statements fuel in
      let* _ := parse_elif_loop fuel in
      let* els := is_tok TOK_ELSE in
      let* _ :=
        if els then
          let* _ := advance in
          let* _ := expect TOK_COLON in
          parse_statements fuel
        else ret tt in
      expect TOK_END
  end

(** [while (token.type == TOK_ELIF)] of [parse_if] *)
with parse_elif_loop (fuel : nat) : M unit :=
  match fuel with
  | O => out_of_fuel
  | S fuel =>
      let* elif := is_tok TOK_ELIF in
      if elif then
        let* _ := advance in
        let* pos := get position in
        let* t1 := parse_expr fuel in
        let* _ := chktypes t1 TYPE_BOOLEAN pos "for 'elif' guard" in
        let* _ := expect TOK_COLON in
        let* _ := parse_statements fuel in
        parse_elif_loop fuel
      else ret tt
  end

with parse_while (fuel : nat) : M unit :=
  match fuel with
  | O => out_of_fuel
  | S fuel =>
      let* _ := expect TOK_WHILE in
      let* pos := get position in
      let* t1 := parse_expr fuel in
      let* _ := chktypes t1 TYPE_BOOLEAN pos "for 'while' guard" in
      let* _ := expect TOK_COLON in
      let* _ := parse_statements fuel in
      expect TOK_END
  end.

(** *** Parser routines: definitions and the program *)

(** [parse_type(&t0)] or-s the parsed type into [*t0]; the result is the new
    value of [*t0]. *)
Definition parse_type (t0 : ValType) : M ValType :=
  let* toktype := tok in
  match toktype with
  | TOK_BOOL | TOK_INT =>
      let t0 := match toktype with
                | TOK_BOOL => Z.lor t0 TYPE_BOOLEAN
                | _ => Z.lor t0 TYPE_INTEGER
                end in
      let* _ := advance in
      let* array := is_tok TOK_ARRAY in
      if array then
        let* _ := advance in
        ret (Z.lor t0 TYPE_ARRAY)
      else ret t0
  | _ => abort_c ERR_EXPECTED_TYPE_SPECIFIER []
  end.

(** The definition of one variable in [parse_vardef] and in the parameter
    loop of [parse_subdef]: lookup, record construction and insertion. *)
Definition define_variable (id : string) (t1 : ValType) (pos : SourcePos)
  : M unit :=
  let* found := find_name id in
  let* _ := when (match found with Some _ => true | None => false end)
              (let* _ := modify (set_position pos) in
               abort_c ERR_MULTIPLE_DEFINITION [AStr id]) in
  let* width := get_variables_width in
  let* prop := idpropt t1 (Hashtable.uint width) 0 [] in
  let* ok := insert_name id prop in
  when (negb ok)
    (let* _ := modify (set_position pos) in
     abort_c ERR_MULTIPLE_DEFINITION [AStr id]).

(** [while (token.type == TOK_COMMA)] of [parse_vardef] *)
Fixpoint parse_vardef_loop (fuel : nat) (t1 : ValType) : M unit :=
  match fuel with
  | O => out_of_fuel
  | S fuel =>
      let* comma := is_tok TOK_COMMA in
      if comma then
        let* _ := advance in
        let* pos := get position in
        let* id := expect_id in
        let* _ := define_variable id t1 pos in
        parse_vardef_loop fuel t1
      else ret tt
  end.

Definition parse_vardef (fuel : nat) : M unit :=
  let* t1 := parse_type 0 in
  let* pos := get position in
  let* id := expect_id in
  let* _ := define_variable id t1 pos in
  let* _ := parse_vardef_loop fuel t1 in
  expect TOK_SEMICOLON.

(** [while (token.type == TOK_BOOL || token.type == TOK_INT)] of
    [parse_body] *)
Fixpoint parse_body_loop (fuel : nat) : M unit :=
  match fuel with
  | O => out_of_fuel
  | S fuel =>
      let* toktype := tok in
      match toktype with
      | TOK_BOOL | TOK_INT =>
          let* _ := parse_vardef fuel in
          parse_body_loop fuel
      | _ => ret tt
      end
  end.

Definition parse_body (fuel : nat) : M unit :=
  let* _ := parse_body_loop fuel in
  parse_statements fuel.

(** [while (token.type == TOK_COMMA)] of [parse_subdef]; the result is the
    list of the further parameters, in order. *)
Fixpoint parse_subdef_params (fuel : nat) : M (list Variable_s) :=
  match fuel with
  | O => out_of_fuel
  | S fuel =>
      let* comma := is_tok TOK_COMMA in
      if comma then
        let* _ := advance in
        let* t1 := parse_type 0 in
        let* pos := get position in
        let* id := expect_id in
        let newvar := variable id t1 pos in
        let* rest := parse_subdef_params fuel in
        ret (newvar :: rest)
      else ret []
  end.

(** [while (head != NULL)] of [parse_subdef] *)
Fixpoint define_params (head : list Variable_s) : M unit :=
  match head with
  | [] => ret tt
  | temp :: next =>
      let* _ := define_variable (id temp) (vtype temp) (pos temp) in
      define_params next
  end.

Definition parse_subdef (fuel : nat) : M unit :=
  let* subpos := get position in
  let* _ := modify (set_return_type TYPE_NONE) in
  let* subid := expect_id in
  let* _ := expect TOK_LPAREN in
  let* t1 := parse_type 0 in
  let* pos := get position in
  let* id := expect_id in
  let* more := parse_subdef_params fuel in
  let head := variable id t1 pos :: more in
  let count := Hashtable.uint (Z.of_nat (length head)) in
  let* _ := expect TOK_RPAREN in
  let params := map vtype head in
  let t1 := TYPE_CALLABLE in
  let* arrow := is_tok TOK_ARROW in
  let* t1 :=
    if arrow then
      let* _ := advance in
      parse_type t1
    else ret t1 in
  let* _ := modify (set_return_type t1) in
  let* width := get_variables_width in
  let* prop := idpropt t1 (Hashtable.uint width) count params in
  let* opened := sym (Symboltable.open_subroutine subid prop) in
  if opened : bool then
    let* _ := define_params head in
    let* _ := expect TOK_COLON in
    let* _ := parse_body fuel in
    let* _ := sym Symboltable.close_subroutine in
    modify (set_return_type TYPE_NONE)
  else
    let* _ := modify (set_position subpos) in
    abort_c ERR_MULTIPLE_DEFINITION [AStr subid].

(** [while (token.type == TOK_ID)] of [parse_program] *)
Fixpoint parse_program_loop (fuel : nat) : M unit :=
  match fuel with
  | O => out_of_fuel
  | S fuel =>
      let* is_id := is_tok TOK_ID in
      if is_id then
        let* _ := parse_subdef fuel in
        parse_program_loop fuel
      else ret tt
  end.

Definition parse_program (fuel : nat) : M unit :=
  let origin := mkSourcePos 1 0 in
  let* eof := is_tok TOK_EOF in
  let* _ := when eof (abort_cp origin ERR_EXPECT [ATok TOK_PROGRAM]) in
  let* _ := expect TOK_PROGRAM in
  let* class_name := expect_id in
  let* _ := expect TOK_COLON in
  let* _ := parse_program_loop fuel in
  let* _ := expect TOK_MAIN in
  let* _ := expect TOK_COLON in
  let* _ := parse_body fuel in
  let* toktype := tok in
  match toktype with
  | TOK_EOF => ret tt
  | _ => abort_c ERR_UNREACHABLE [AStr (get_token_string toktype)]
  end.

(** The state in which [main] starts the compiler units on the tokens of a
    source file; the scanner starts at line 1, column 0. *)
Definition start (tokens : list (Token * SourcePos)) (eof : SourcePos)
  : State :=
  {| source := tokens; eof_position := eof; position := mkSourcePos 1 0;
     token := mkToken TOK_EOF ""; return_type := TYPE_NONE;
     symtab := Symboltable.initial |}.

(** The compilation steps of [main]: initialise the symbol table, read the
    first token, parse, and release the symbol table. *)
Definition main (fuel : nat) (tokens : list (Token * SourcePos))
    (eof : SourcePos) : Res State unit :=
  (let* _ := sym Symboltable.init_symbol_table in
   let* _ := advance in
   let* _ := parse_program fuel in
   sym Symboltable.release_symbol_table) (start tokens eof).

End Amplc.

(** * Specification vocabulary *)

Module HashtableSpec.
Import Hashtable.
Local Open Scope Z_scope.

Section WithTypes.
Context {K V : Type}.
Implicit Types (ht : HashTab K V) (k : K) (v : V) (e : HTentry K V).

(** All the entries of a table, bucket after bucket. *)
Definition entries ht : list (HTentry K V) := concat (table ht).

(** The key is present: some entry of the table compares equal to it. *)
Definition present ht k : Prop :=
  exists e, In e (entries ht) /\ cmp ht k (key e) = 0.

(** The binding of a key: the value of the first entry, in table order,
    whose key compares equal. *)
Definition binding ht k : option V :=
  option_map value (chain_search (cmp ht) k (entries ht)).

(** The representation invariant of a table: the underlying array covers the
    [size] buckets, the hash function lands in range and respects the key
    comparison, and every entry sits in the bucket of its hash. *)
Record ht_wf ht : Prop := mk_ht_wf {
  wf_size : 0 < size ht <= Z.of_nat (length (table ht));
  wf_range : forall k s, 0 < s -> 0 <= hash ht k s < s;
  wf_cmp : forall k k' s, cmp ht k k' = 0 -> hash ht k s = hash ht k' s;
  wf_bucket : forall i b e,
      table ht !! i = Some b -> In e b ->
      hash ht (key e) (size ht) = Z.of_nat i
}.

(** The tables that the interface can build. *)
Inductive built : HashTab K V -> Prop :=
  | built_init lf (h : K -> Z -> Z) (c : K -> K -> Z) :
      (forall k s, 0 < s -> 0 <= h k s < s) ->
      (forall k k' s, c k k' = 0 -> h k s = h k' s) ->
      built (ht_init lf h c)
  | built_insert ht k v code ht' :
      built ht -> ht_insert ht k v = Some (code, ht') -> built ht'.

End WithTypes.

(** Primality by trial division up to the square root. *)
Fixpoint no_divisor_from (fuel : nat) (d n : Z) : bool :=
  match fuel with
  | O => true
  | S fuel' =>
      if d * d >? n then true
      else if n mod d =? 0 then false
      else no_divisor_from fuel' (d + 1) n
  end.

Definition is_prime (n : Z) : bool :=
  (1 <? n) && no_divisor_from (Z.to_nat (Z.sqrt n)) 2 n.

(** The entry [i] of [delta] makes [2^i - delta[i]] a prime with no prime
    between it and [2^i]. *)
Definition delta_entry_ok (i : nat) : bool :=
  match delta !! i with
  | Some d =>
      is_prime (2 ^ Z.of_nat i - d)
      && forallb (fun j => negb (is_prime (2 ^ Z.of_nat i - d + Z.of_nat j)))
           (seq 1 (Z.to_nat d - 1))
  | None => false
  end.

End HashtableSpec.

Module SymboltableSpec.
Import Hashtable HashtableSpec Symboltable.
Local Open Scope Z_scope.

(** The binding of a name in the scope behind a table pointer; a [NULL]
    scope binds nothing. *)
Definition scope_binding (s : SymTab) (t : option ptr) (n : string)
  : option ptr :=
  match t with
  | None => None
  | Some q =>
      match deref (tabs s) q with
      | Some h => binding h n
      | None => None
      end
  end.

(** The record behind the pointer is callable. *)
Definition callable (s : SymTab) (p : ptr) : bool :=
  match deref (recs s) p with
  | Some r => IS_CALLABLE_TYPE (type r)
  | None => false
  end.

(** The pointer leads to a live record. *)
Definition live (s : SymTab) (p : ptr) : Prop :=
  exists r, deref (recs s) p = Some r.

(** A scope pointer is [NULL] or points to a live, well-formed table whose
    values point to live records. *)
Definition scope_ok (s : SymTab) (t : option ptr) : Prop :=
  forall q, t = Some q ->
    exists h, deref (tabs s) q = Some h /\ ht_wf h /\
              (forall e, In e (entries h) -> live s (value e)).

Definition sym_ok (s : SymTab) : Prop :=
  scope_ok s (table s) /\ scope_ok s (saved_table s).

(** What the spec says [find_name] returns: the binding of the current scope
    if there is one, otherwise the binding of the saved outer scope provided
    it is callable. *)
Definition find_name_spec (n : string) (s : SymTab) : option ptr :=
  match scope_binding s (table s) n with
  | Some p => Some p
  | None =>
      match scope_binding s (saved_table s) n with
      | Some p => if callable s p then Some p else None
      | None => None
      end
  end.

(** A scope lifetime starts when [init_symbol_table] or a successful
    [open_subroutine] returns. *)
Definition scope_start (s : SymTab) : Prop :=
  (exists s0, init_symbol_table s0 = Ok tt s) \/
  (exists s0 id prop, open_subroutine id prop s0 = Ok true s).

(** The calls a client makes inside one scope. *)
Inductive ScopeOp : Type :=
  | Insert (id : string) (prop : ptr)
  | Find (id : string).

(** Runs the calls in order and collects, for every successful insertion of
    a variable record, the offset found in that record when [insert_name]
    returns. *)
Fixpoint run_scope (ops : list ScopeOp) (s : SymTab) : Res SymTab (list Z) :=
  match ops with
  | [] => Ok [] s
  | Find id :: rest =>
      match find_name id s with
      | Ok _ s1 => run_scope rest s1
      | Abort d => Abort d
      | Fault => Fault
      | OutOfFuel => OutOfFuel
      end
  | Insert id prop :: rest =>
      match insert_name id prop s with
      | Ok true s1 =>
          match deref (recs s1) prop with
          | Some r =>
              if IS_CALLABLE_TYPE (type r) then run_scope rest s1
              else
                match run_scope rest s1 with
                | Ok offsets s2 => Ok (offset r :: offsets) s2
                | other => other
                end
          | None => Fault
          end
      | Ok false s1 => run_scope rest s1
      | Abort d => Abort d
      | Fault => Fault
      | OutOfFuel => OutOfFuel
      end
  end.

(** The state in which a call returned; the state before [init] when it did
    not return. *)
Definition state_of {A : Type} (r : Res SymTab A) : SymTab :=
  match r with
  | Ok _ s => s
  | _ => initial
  end.

Definition set_saved_offset (v : Z) (s : SymTab) : SymTab :=
  {| tabs := tabs s; recs := recs s; table := table s;
     saved_table := saved_table s; curr_offset := curr_offset s;
     saved_offset := v |}.

Definition res_map {S A : Type} (f : S -> S) (r : Res S A) : Res S A :=
  match r with
  | Ok a s => Ok a (f s)
  | other => other
  end.

(** Sample records: two scalars, a function and an array. *)
Definition sample_records : list (option IDPropt) :=
  [Some (mkIDPropt TYPE_INTEGER 0 0 []);
   Some (mkIDPropt TYPE_BOOLEAN 0 0 []);
   Some (mkIDPropt (Z.lor TYPE_CALLABLE TYPE_INTEGER) 0 1 [TYPE_INTEGER]);
   Some (mkIDPropt (Z.lor TYPE_INTEGER TYPE_ARRAY) 0 0 [])].

Definition sample_ops : list ScopeOp :=
  [Insert "x" 0%nat; Find "x"; Insert "y" 1%nat; Insert "x" 1%nat;
   Insert "f" 2%nat; Insert "a" 3%nat].

(** A sample table: nine names inserted into a fresh table of the symbol
    table, each with a dummy record pointer. *)
Fixpoint insert_keys (ks : list string) (ht : HashTab string ptr)
  : HashTab string ptr :=
  match ks with
  | [] => ht
  | k :: rest =>
      match Hashtable.ht_insert ht k 0%nat with
      | Some (_, ht') => insert_keys rest ht'
      | None => ht
      end
  end.

Definition nine_names : HashTab string ptr :=
  insert_keys ["a"; "b"; "c"; "d"; "e"; "f"; "g"; "h"; "i"]%string
    (ht_init loadfactor_075 shift_hash key_strcmp).

(** A sample state with two scopes: the variable [v] and the function [f]
    are defined in the outer scope, the variable [x] inside [f]. *)
Definition records_only : SymTab :=
  {| tabs := []; recs := sample_records; table := None; saved_table := None;
     curr_offset := 0; saved_offset := 0 |}.
Definition scope_global : SymTab := state_of (init_symbol_table records_only).
Definition scope_global_v : SymTab :=
  state_of (insert_name "v" 0%nat scope_global).
Definition scope_f : SymTab :=
  state_of (open_subroutine "f" 2%nat scope_global_v).
Definition scope_f_x : SymTab := state_of (insert_name "x" 1%nat scope_f).
Definition scope_closed : SymTab := state_of (close_subroutine scope_f_x).


(** A sample run in the global scope: three variables are defined, one name
    is defined twice, and one callable is inserted. *)
Definition sample_end : SymTab := state_of (run_scope sample_ops scope_global).

End SymboltableSpec.

Module AmplcSpec.
Import Token Amplc.
Local Open Scope Z_scope.
Local Open Scope string_scope.

(** Tokens as the scanner delivers them, with the line and column where
    they begin (columns count from 1). *)
Definition kw (t : TokenType) (l c : Z) : Token * SourcePos :=
  (mkToken t "", mkSourcePos l c).
Definition ident (s : string) (l c : Z) : Token * SourcePos :=
  (mkToken TOK_ID s, mkSourcePos l c).
Definition num (s : string) (l c : Z) : Token * SourcePos :=
  (mkToken TOK_NUM s, mkSourcePos l c).

(** [program p: f()->int: return 1 main: chillax] *)
Definition scenario6 : list (Token * SourcePos) :=
  [kw TOK_PROGRAM 1 1; ident "p" 1 9; kw TOK_COLON 1 10; ident "f" 1 12;
   kw TOK_LPAREN 1 13; kw TOK_RPAREN 1 14; kw TOK_ARROW 1 15;
   kw TOK_INT 1 17; kw TOK_COLON 1 20; kw TOK_RETURN 1 22; num "1" 1 29;
   kw TOK_MAIN 1 31; kw TOK_COLON 1 35; kw TOK_CHILLAX 1 37].
Definition scenario6_eof : SourcePos := mkSourcePos 1 44.

(** [program p: g(int x): return main: chillax] *)
Definition procedure_bare_return : list (Token * SourcePos) :=
  [kw TOK_PROGRAM 1 1; ident "p" 1 9; kw TOK_COLON 1 10; ident "g" 1 12;
   kw TOK_LPAREN 1 13; kw TOK_INT 1 14; ident "x" 1 18; kw TOK_RPAREN 1 19;
   kw TOK_COLON 1 20; kw TOK_RETURN 1 22; kw TOK_MAIN 1 29;
   kw TOK_COLON 1 33; kw TOK_CHILLAX 1 35].
Definition procedure_bare_return_eof : SourcePos := mkSourcePos 1 42.

(** [program p: g(int x): chillax main: g()] *)
Definition call_no_arguments : list (Token * SourcePos) :=
  [kw TOK_PROGRAM 1 1; ident "p" 1 9; kw TOK_COLON 1 10; ident "g" 1 12;
   kw TOK_LPAREN 1 13; kw TOK_INT 1 14; ident "x" 1 18; kw TOK_RPAREN 1 19;
   kw TOK_COLON 1 20; kw TOK_CHILLAX 1 22; kw TOK_MAIN 1 30;
   kw TOK_COLON 1 34; ident "g" 1 36; kw TOK_LPAREN 1 37;
   kw TOK_RPAREN 1 38].
Definition call_no_arguments_eof : SourcePos := mkSourcePos 1 39.

(** [program p: f(int x) -> int: return 1 main: f(1)] *)
Definition function_as_statement : list (Token * SourcePos) :=
  [kw TOK_PROGRAM 1 1; ident "p" 1 9; kw TOK_COLON 1 10; ident "f" 1 12;
   kw TOK_LPAREN 1 13; kw TOK_INT 1 14; ident "x" 1 18; kw TOK_RPAREN 1 19;
   kw TOK_ARROW 1 21; kw TOK_INT 1 24; kw TOK_COLON 1 27;
   kw TOK_RETURN 1 29; num "1" 1 36; kw TOK_MAIN 1 38; kw TOK_COLON 1 42;
   ident "f" 1 44; kw TOK_LPAREN 1 45; num "1" 1 46; kw TOK_RPAREN 1 47].
Definition function_as_statement_eof : SourcePos := mkSourcePos 1 48.

(** An empty first line, then [main: chillax] *)
Definition main_on_second_line : list (Token * SourcePos) :=
  [kw TOK_MAIN 2 1; kw TOK_COLON 2 5; kw TOK_CHILLAX 2 7].
Definition main_on_second_line_eof : SourcePos := mkSourcePos 2 14.

(** [program p: f(int x) -> int: return x + 1 main: chillax] *)
Definition function_return : list (Token * SourcePos) :=
  [kw TOK_PROGRAM 1 1; ident "p" 1 9; kw TOK_COLON 1 10; ident "f" 1 12;
   kw TOK_LPAREN 1 13; kw TOK_INT 1 14; ident "x" 1 18; kw TOK_RPAREN 1 19;
   kw TOK_ARROW 1 21; kw TOK_INT 1 24; kw TOK_COLON 1 27;
   kw TOK_RETURN 1 29; ident "x" 1 36; kw TOK_PLUS 1 38; num "1" 1 40;
   kw TOK_MAIN 1 42; kw TOK_COLON 1 46; kw TOK_CHILLAX 1 48].
Definition function_return_eof : SourcePos := mkSourcePos 1 55.

(** [program p: g(int x): chillax main: g(1,2)] *)
Definition too_many_arguments : list (Token * SourcePos) :=
  [kw TOK_PROGRAM 1 1; ident "p" 1 9; kw TOK_COLON 1 10; ident "g" 1 12;
   kw TOK_LPAREN 1 13; kw TOK_INT 1 14; ident "x" 1 18; kw TOK_RPAREN 1 19;
   kw TOK_COLON 1 20; kw TOK_CHILLAX 1 22; kw TOK_MAIN 1 30;
   kw TOK_COLON 1 34; ident "g" 1 36; kw TOK_LPAREN 1 37; num "1" 1 38;
   kw TOK_COMMA 1 39; num "2" 1 40; kw TOK_RPAREN 1 41].
Definition too_many_arguments_eof : SourcePos := mkSourcePos 1 42.

(** [program p: h(int x, int y): chillax main: h(1)] *)
Definition too_few_arguments : list (Token * SourcePos) :=
  [kw TOK_PROGRAM 1 1; ident "p" 1 9; kw TOK_COLON 1 10; ident "h" 1 12;
   kw TOK_LPAREN 1 13; kw TOK_INT 1 14; ident "x" 1 18; kw TOK_COMMA 1 19;
   kw TOK_INT 1 21; ident "y" 1 25; kw TOK_RPAREN 1 26; kw TOK_COLON 1 27;
   kw TOK_CHILLAX 1 29; kw TOK_MAIN 1 37; kw TOK_COLON 1 41;
   ident "h" 1 43; kw TOK_LPAREN 1 44; num "1" 1 45; kw TOK_RPAREN 1 46].
Definition too_few_arguments_eof : SourcePos := mkSourcePos 1 47.

(** [program p: main: int x; x()] *)
Definition variable_as_statement : list (Token * SourcePos) :=
  [kw TOK_PROGRAM 1 1; ident "p" 1 9; kw TOK_COLON 1 10; kw TOK_MAIN 1 12;
   kw TOK_COLON 1 16; kw TOK_INT 1 18; ident "x" 1 22;
   kw TOK_SEMICOLON 1 23; ident "x" 1 25; kw TOK_LPAREN 1 26;
   kw TOK_RPAREN 1 27].
Definition variable_as_statement_eof : SourcePos := mkSourcePos 1 28.

(** The state of the compiler at a [return] statement of a subroutine whose
    return type is [rt], with the tokens [rest] after the keyword. *)
Definition at_return (rt : ValType) (rest : list (Token * SourcePos))
  : State :=
  {| source := rest; eof_position := mkSourcePos 1 80;
     position := mkSourcePos 1 29; token := mkToken TOK_RETURN "";
     return_type := rt; symtab := Symboltable.initial |}.

(** What the spec expects of [return e] in a function: the stripped types
    agree. *)
Definition return_types_agree (t1 return_type : ValType) : bool :=
  (SET_RETURN_TYPE t1 =? SET_RETURN_TYPE return_type)%Z.

End AmplcSpec.

(** ** Keys of a hash table *)

Module HashtableKeys.
Import Hashtable HashtableSpec.
Local Open Scope Z_scope.

Section WithTypes.
Context {K V : Type}.

(** The comparison function is an equivalence, as far as its answer "equal"
    ([0]) goes. *)
Definition cmp_equiv (c : K -> K -> Z) : Prop :=
  (forall a, c a a = 0) /\
  (forall a b, c a b = 0 -> c b a = 0) /\
  (forall a b d, c a b = 0 -> c b d = 0 -> c a d = 0).

(** No two entries of the list have keys that compare equal. *)
Fixpoint distinct_keys (c : K -> K -> Z) (es : list (HTentry K V)) : Prop :=
  match es with
  | [] => True
  | e :: rest =>
      (forall e', In e' rest -> c (key e) (key e') <> 0) /\
      distinct_keys c rest
  end.

(** The load of a table: entries per bucket. *)
Definition loadfactor (ht : HashTab K V) : Q :=
  (inject_Z (num_entries ht) / inject_Z (size ht))%Q.

End WithTypes.

End HashtableKeys.

(** ** Sample tables and names *)

Module SymboltableSamples.
Import Hashtable HashtableSpec Symboltable SymboltableSpec.
Local Open Scope Z_scope.
Local Open Scope string_scope.

(** The table of [nine_names] after a tenth name went in: the insertion
    that rehashes. *)
Definition ten_names : HashTab string ptr :=
  insert_keys ["j"] nine_names.

(** A string as the C code reads it: up to the first NUL. *)
Fixpoint c_string (s : string) : string :=
  match s with
  | EmptyString => EmptyString
  | String c r =>
      if (N_of_ascii c =? 0)%N then EmptyString else String c (c_string r)
  end.

(** The string holds no NUL. *)
Fixpoint no_nul (s : string) : bool :=
  match s with
  | EmptyString => true
  | String c r => negb (N_of_ascii c =? 0)%N && no_nul r
  end.

(** Two hash values agree on their [k] lowest bits. *)
Definition agree_low (k h1 h2 : Z) : Prop :=
  forall i, 0 <= i < k -> Z.testbit h1 i = Z.testbit h2 i.

(** The value fits an [unsigned int]. *)
Definition high_zero (h : Z) : Prop :=
  forall i, 32 <= i -> Z.testbit h i = false.

End SymboltableSamples.

(** ** The scopes of the symbol table *)

Module SymboltableScopes.
Import Hashtable HashtableSpec HashtableKeys Symboltable SymboltableSpec.
Local Open Scope Z_scope.

(** The record pointers stored in the scope behind a table pointer. *)
Definition scope_values (s : SymTab) (t : option ptr) : list ptr :=
  match t with
  | Some q =>
      match deref (tabs s) q with
      | Some h => map value (entries h)
      | None => []
      end
  | None => []
  end.

(** The records bound in the scopes in use: those of the current table and,
    when that is another table, those of the saved one. *)
Definition bound_records (s : SymTab) : list ptr :=
  scope_values s (table s) ++
  (if decide (saved_table s = table s) then []
   else scope_values s (saved_table s)).

(** A table of the symbol table: well formed, with the comparison and the
    load factor that [init_symbol_table] and [open_subroutine] pass to
    [ht_init], every name at most once, an exact entry count, and a capacity
    that is the initial one or in proportion to the entry count. *)
Record table_ok (h : HashTab string ptr) : Prop := mk_table_ok {
  tok_wf : ht_wf h;
  tok_cmp : cmp h = key_strcmp;
  tok_lf : max_loadfactor h = loadfactor_075;
  tok_distinct : distinct_keys key_strcmp (entries h);
  tok_count : num_entries h = Z.of_nat (length (entries h));
  tok_size : 13 <= size h /\
             (size h = 13 \/ size h < 6 * num_entries h)
}.

(** The record of a callable holds at least one parameter type, and its
    parameter count does not exceed its parameter array. *)
Definition record_ok (r : IDPropt) : Prop :=
  IS_CALLABLE_TYPE (type r) = true ->
  params r <> [] /\ nparams r <= Z.of_nat (length (params r)).

(** A scope pointer is [NULL] or points to a live table of the symbol
    table. *)
Definition scope_inv (s : SymTab) (t : option ptr) : Prop :=
  forall q, t = Some q -> exists h, deref (tabs s) q = Some h /\ table_ok h.

(** The invariant of the unit between two calls of its interface, once
    [init_symbol_table] has run: there is a current table, both scope
    pointers are sound, no record is bound twice, and every bound record is
    live. *)
Record sym_inv (s : SymTab) : Prop := mk_sym_inv {
  inv_table : table s <> None;
  inv_current : scope_inv s (table s);
  inv_saved : scope_inv s (saved_table s);
  inv_nodup : NoDup (bound_records s);
  inv_live : forall p, In p (bound_records s) ->
             exists r, deref (recs s) p = Some r /\ record_ok r
}.

(** A record that the client may bind: live, and not bound yet. *)
Definition fresh_record (s : SymTab) (p : ptr) : Prop :=
  ~ In p (bound_records s) /\
  exists r, deref (recs s) p = Some r /\ record_ok r.

(** The current scope is a subroutine scope: its table is another one than
    the saved table. *)
Definition nested (s : SymTab) : Prop :=
  saved_table s <> None /\ saved_table s <> table s.

(** The unit holds fewer than [2^26] records: the capacities that
    [getsize] computes for its tables stay in the range of [int]. *)
Definition small (s : SymTab) : Prop :=
  Z.of_nat (length (recs s)) < 2 ^ 26.

End SymboltableScopes.

(** ** Runs of the parser *)

Module AmplcRuns.
Import Token Amplc AmplcSpec SymboltableSpec SymboltableScopes.
Local Open Scope Z_scope.
Local Open Scope string_scope.

(** The tokens that are still to be read: the lookahead, unless it is the
    end of the input, and those that the scanner has not delivered. *)
Definition remaining (st : State) : nat :=
  ((if TokenType_beq (type (token st)) TOK_EOF then 0 else 1)
   + length (source st))%nat.

(** The run returned in a state that satisfies [Q], or it ended the
    compilation in [leprintf], with a diagnostic of the parser. *)
Definition outcome {A : Type} (Q : A -> State -> Prop) (r : Res State A)
  : Prop :=
  match r with
  | Ok a st' => Q a st'
  | Abort d => exists pos msg, d = Leprintf pos msg
  | Fault => False
  | OutOfFuel => False
  end.

(** A run that only reads: it leaves the symbol table as it is and consumes
    at least [d] tokens. *)
Definition parses {A : Type} (d : nat) (m : M A) (st : State) : Prop :=
  outcome (fun _ st' =>
             symtab st' = symtab st /\
             (remaining st' + d <= remaining st)%nat) (m st).

(** The records allocated so far and the tokens still to be read. *)
Definition weight (st : State) : nat :=
  (length (Symboltable.recs (symtab st)) + remaining st)%nat.

(** A run that may define names: it keeps the invariant of the symbol table
    and both scope pointers, allocates no more records than it reads
    tokens, and consumes at least [d] tokens. *)
Definition defines {A : Type} (d : nat) (m : M A) (st : State) : Prop :=
  outcome (fun _ st' =>
             sym_inv (symtab st') /\
             Symboltable.table (symtab st') = Symboltable.table (symtab st) /\
             Symboltable.saved_table (symtab st')
             = Symboltable.saved_table (symtab st) /\
             (weight st' <= weight st)%nat /\
             (remaining st' + d <= remaining st)%nat) (m st).

(** A run that may open and close a subroutine scope: it keeps the
    invariant of the symbol table, returns in the scope in which it
    started, allocates no more records than it reads tokens, and consumes
    at least [d] tokens. *)
Definition declares {A : Type} (d : nat) (m : M A) (st : State) : Prop :=
  outcome (fun _ st' =>
             sym_inv (symtab st') /\
             Symboltable.table (symtab st') = Symboltable.table (symtab st) /\
             (weight st' <= weight st)%nat /\
             (remaining st' + d <= remaining st)%nat) (m st).

(** The state holds so few records and tokens that every table of the
    symbol table stays in the range of [getsize]. *)
Definition light (st : State) : Prop := Z.of_nat (weight st) < 2 ^ 26.

(** The name resolves to nothing or to a callable. *)
Definition callee_ok (id : string) (s : Symboltable.SymTab) : Prop :=
  forall p, find_name_spec id s = Some p -> callable s p = true.

(** The record behind the pointer is the record of a callable, with its
    parameter types. *)
Definition callee_record (s : Symboltable.SymTab) (p : Symboltable.ptr)
  : Prop :=
  exists r, Symboltable.deref (Symboltable.recs s) p = Some r /\
            IS_CALLABLE_TYPE (Symboltable.type r) = true /\ record_ok r.

(** The compiler in the symbol-table state [s], inside a subroutine of
    type [rt], with [tokens] still to be scanned and the first of them read
    as the lookahead. *)
Definition reading (s : Symboltable.SymTab) (rt : ValType)
    (tokens : list (Token * SourcePos)) : State :=
  get_token {| source := tokens; eof_position := mkSourcePos 1 80;
               position := mkSourcePos 1 0; token := mkToken TOK_EOF "";
               return_type := rt; symtab := s |}.

(** Sample states of the compiler: inside the subroutine [f] of the sample
    scopes, before the expression [x = true], before the statement
    [let x = true], and before the body [int n; let n = 1]; and in the
    global scope before the definition [g(int x): chillax]. *)
Definition at_expression : State :=
  reading scope_f_x TYPE_NONE
    [ident "x" 1 1; kw TOK_EQ 1 3; kw TOK_TRUE 1 5].
Definition at_statement : State :=
  reading scope_f_x TYPE_NONE
    [kw TOK_LET 1 1; ident "x" 1 5; kw TOK_EQ 1 7; kw TOK_TRUE 1 9].
Definition at_body : State :=
  reading scope_f_x TYPE_NONE
    [kw TOK_INT 1 1; ident "n" 1 5; kw TOK_SEMICOLON 1 6; kw TOK_LET 1 8;
     ident "n" 1 12; kw TOK_EQ 1 14; num "1" 1 16].
Definition at_subdef : State :=
  reading scope_global_v TYPE_NONE
    [ident "g" 1 1; kw TOK_LPAREN 1 2; kw TOK_INT 1 3; ident "x" 1 7;
     kw TOK_RPAREN 1 8; kw TOK_COLON 1 9; kw TOK_CHILLAX 1 11].

End AmplcRuns.

(** * Lemmas *)

Module HashtableSearch.
Import Hashtable HashtableSpec.
Local Open Scope Z_scope.

Section WithTypes.
Context {K V : Type}.
Implicit Types (ht : HashTab K V) (k : K) (v : V) (e : HTentry K V).

Lemma chain_search_Some cmpf k (chain : list (HTentry K V)) e :
  chain_search cmpf k chain = Some e -> In e chain /\ cmpf k (key e) = 0.
Proof.
  induction chain as [|a chain IH]; simpl; [discriminate|].
  destruct (cmpf k (key a) =? 0) eqn:E.
  - intros [= <-]. split; [now left | now apply Z.eqb_eq].
  - intros H. destruct (IH H). split; [now right | assumption].
Qed.

Lemma chain_search_None cmpf k (chain : list (HTentry K V)) :
  chain_search cmpf k chain = None <->
  (forall e, In e chain -> cmpf k (key e) <> 0).
Proof.
  induction chain as [|a chain IH]; simpl.
  - split; [intros _ e [] | reflexivity].
  - destruct (cmpf k (key a) =? 0) eqn:E.
    + split; [discriminate|]. intros H. apply Z.eqb_eq in E.
      exfalso. apply (H a); [now left | assumption].
    + apply Z.eqb_neq in E. rewrite IH. split.
      * intros H e [<-|He]; [assumption | now apply H].
      * intros H e He. apply H. now right.
Qed.

Lemma chain_search_app cmpf k (l1 l2 : list (HTentry K V)) :
  chain_search cmpf k (l1 ++ l2) =
  match chain_search cmpf k l1 with
  | Some e => Some e
  | None => chain_search cmpf k l2
  end.
Proof.
  induction l1 as [|a l1 IH]; simpl; [reflexivity|].
  destruct (cmpf k (key a) =? 0); [reflexivity | exact IH].
Qed.

(** When only one bucket can hold a match, searching all the entries is
    searching that bucket. *)
Lemma chain_search_concat cmpf k (bs : list (list (HTentry K V))) :
  forall i0 b,
    bs !! i0 = Some b ->
    (forall j b' e, bs !! j = Some b' -> In e b' -> cmpf k (key e) = 0 ->
                    j = i0) ->
    chain_search cmpf k (concat bs) = chain_search cmpf k b.
Proof.
  induction bs as [|b0 bs IH]; intros i0 b Hb Huniq; [discriminate|].
  simpl. rewrite chain_search_app. destruct i0 as [|i0]; simpl in Hb.
  - injection Hb as ->. destruct (chain_search cmpf k b); [reflexivity|].
    apply chain_search_None. intros e He Hc.
    apply in_concat in He as (b' & Hb' & He).
    apply list_elem_of_In, list_elem_of_lookup in Hb' as [j Hj].
    specialize (Huniq (S j) b' e Hj He Hc). discriminate.
  - assert (chain_search cmpf k b0 = None) as ->.
    { apply chain_search_None. intros e He Hc.
      specialize (Huniq O b0 e eq_refl He Hc). discriminate. }
    apply (IH i0); [assumption|].
    intros j b' e Hj He Hc. specialize (Huniq (S j) b' e Hj He Hc). lia.
Qed.

Lemma bucket_lookup (tbl : list (list (HTentry K V))) (i : Z) :
  0 <= i -> bucket tbl i = tbl !! Z.to_nat i.
Proof.
  intros H. unfold bucket. destruct (i <? 0) eqn:E; [lia | reflexivity].
Qed.

(** On a well-formed table the bucket of a key exists. *)
Lemma wf_bucket_exists ht k :
  ht_wf ht ->
  exists b, bucket (table ht) (hash ht k (size ht)) = Some b /\
            table ht !! Z.to_nat (hash ht k (size ht)) = Some b.
Proof.
  intros [Hs Hr _ _]. specialize (Hr k (size ht) (proj1 Hs)).
  rewrite bucket_lookup by lia.
  destruct (table ht !! Z.to_nat (hash ht k (size ht))) as [b|] eqn:E.
  - now exists b.
  - apply lookup_ge_None in E. lia.
Qed.

(** On a well-formed table, [ht_search] returns the binding of the key. *)
Lemma ht_search_binding ht k :
  ht_wf ht -> ht_search ht k = Some (binding ht k).
Proof.
  intros Hwf. destruct (wf_bucket_exists ht k Hwf) as (b & Hb & Hl).
  unfold ht_search, binding, entries. rewrite Hb. f_equal.
  rewrite (chain_search_concat _ _ _ _ b Hl).
  - now destruct (chain_search (cmp ht) k b).
  - intros j b' e Hj He Hc.
    pose proof (wf_bucket ht Hwf j b' e Hj He) as Hh.
    rewrite <- (wf_cmp ht Hwf k (key e) (size ht) Hc) in Hh.
    rewrite Hh. lia.
Qed.

End WithTypes.
End HashtableSearch.

Module Primes.
Import HashtableSpec.
Local Open Scope Z_scope.

Lemma no_divisor_from_spec (fuel : nat) : forall d n,
  2 <= d ->
  no_divisor_from fuel d n = true <->
  (forall k, d <= k < d + Z.of_nat fuel -> k * k <= n -> n mod k <> 0).
Proof.
  induction fuel as [|fuel IH]; intros d n Hd; simpl no_divisor_from.
  - split; [intros _ k Hk; lia | reflexivity].
  - destruct (d * d >? n) eqn:Esq.
    + split; [|reflexivity]. intros _ k Hk Hkk. apply Z.gtb_lt in Esq. nia.
    + assert (d * d <= n) as Hdd.
      { destruct (Z.gtb_spec (d * d) n); [discriminate | lia]. }
      destruct (n mod d =? 0) eqn:Em.
      * apply Z.eqb_eq in Em. split; [discriminate|]. intros H.
        exfalso. apply (H d); [lia | assumption | assumption].
      * apply Z.eqb_neq in Em. rewrite (IH (d + 1) n) by lia. split.
        -- intros H k Hk Hkk. destruct (Z.eq_dec k d) as [->|Hne];
             [assumption|]. apply H; [lia | assumption].
        -- intros H k Hk Hkk. apply H; [lia | assumption].
Qed.

(** [is_prime] decides primality. *)
Lemma is_prime_correct (n : Z) : is_prime n = true <-> Z.prime n.
Proof.
  unfold is_prime, Z.prime.
  rewrite andb_true_iff, Z.ltb_lt. split.
  - intros [H1 Hnd]. split; [assumption|].
    rewrite no_divisor_from_spec in Hnd by lia.
    assert (forall k, 2 <= k -> k * k <= n -> n mod k <> 0) as Hall.
    { intros k Hk Hkk. apply Hnd; [|assumption].
      pose proof (Z.sqrt_spec n ltac:(lia)) as Hs. cbv zeta in Hs.
      pose proof (Z.sqrt_nonneg n) as Hs0.
      rewrite Z2Nat.id by assumption.
      destruct (Z_le_gt_dec k (Z.sqrt n)) as [Hle|Hgt]; [lia|].
      exfalso.
      assert (Z.succ (Z.sqrt n) * Z.succ (Z.sqrt n) <= k * k)
        by (apply Z.mul_le_mono_nonneg; lia).
      lia. }
    intros m Hm [c Hc].
    assert (1 < c) as Hc1 by nia.
    destruct (Z_le_gt_dec m c) as [Hle|Hgt].
    + apply (Hall m); [lia | nia |].
      rewrite Hc. apply Z.mod_mul. lia.
    + apply (Hall c); [lia | nia |].
      rewrite Hc, Z.mul_comm. apply Z.mod_mul. lia.
  - intros [H1 Hnd]. split; [assumption|].
    apply no_divisor_from_spec; [lia|].
    intros k Hk Hkk Hmod. apply (Hnd k); [nia|].
    apply Z.mod_divide; [lia | assumption].
Qed.

End Primes.

Module HashtableGetsize.
Import Hashtable HashtableSpec HashtableSearch.
Local Open Scope Z_scope.

Section WithTypes.
Context {K V : Type}.
Implicit Types (ht : HashTab K V) (k : K) (v : V) (e : HTentry K V).

Lemma present_chain ht k :
  ht_wf ht -> present ht k ->
  exists b e, bucket (table ht) (hash ht k (size ht)) = Some b /\
              chain_search (cmp ht) k b = Some e.
Proof.
  intros Hwf (e & He & Hc).
  destruct (wf_bucket_exists ht k Hwf) as (b & Hb & Hl).
  exists b. rewrite Hb.
  pose proof (ht_search_binding ht k Hwf) as Hs.
  unfold ht_search in Hs. rewrite Hb in Hs.
  destruct (chain_search (cmp ht) k b) as [e'|] eqn:E; [now exists e'|].
  exfalso. injection Hs as Hs. unfold binding in Hs.
  destruct (chain_search (cmp ht) k (entries ht)) eqn:E2; [discriminate|].
  rewrite chain_search_None in E2. now apply (E2 e).
Qed.

Lemma absent_chain ht k b :
  ~ present ht k ->
  table ht !! Z.to_nat (hash ht k (size ht)) = Some b ->
  chain_search (cmp ht) k b = None.
Proof.
  intros Hn Hb. apply chain_search_None. intros e He Hc. apply Hn.
  exists e. split; [|assumption]. unfold entries. apply in_concat.
  exists b. split; [|assumption].
  apply list_elem_of_In, list_elem_of_lookup. eauto.
Qed.

(** *** [getsize] *)

Lemma getsize_loop_spec fuel : forall num power sz n' p',
  num = 2 ^ power -> 1 <= power ->
  getsize_loop fuel num power sz = Some (n', p') ->
  n' = 2 ^ p' /\ power < p' <= power + Z.of_nat fuel /\ sz <= n' /\
  (p' = power + 1 \/ 2 ^ (p' - 1) < sz).
Proof.
  induction fuel as [|fuel IH]; intros num power sz n' p' Hn Hp; simpl;
    [discriminate|].
  assert (num * 2 = 2 ^ (power + 1)) as Hn2.
  { rewrite Z.pow_add_r by lia. lia. }
  destruct (num * 2 >=? sz) eqn:E.
  - intros [= <- <-]. repeat split; try lia.
  - intros H. apply IH in H; [|assumption|lia].
    destruct H as (H1 & H2 & H3 & H4). repeat split; try lia.
    destruct H4 as [ -> | H4]; [|now right]. right.
    replace (power + 1 + 1 - 1) with (power + 1) by lia. lia.
Qed.

Lemma getsize_loop_total fuel : forall num power sz,
  num = 2 ^ power -> 1 <= power -> sz <= 2 ^ (power + Z.of_nat fuel) ->
  (0 < fuel)%nat ->
  exists r, getsize_loop fuel num power sz = Some r.
Proof.
  induction fuel as [|fuel IH]; intros num power sz Hn Hp Hsz Hf; [lia|].
  simpl. assert (num * 2 = 2 ^ (power + 1)) as Hn2.
  { rewrite Z.pow_add_r by lia. lia. }
  destruct (num * 2 >=? sz) eqn:E; [eauto|].
  destruct fuel as [|fuel'].
  - exfalso. replace (power + Z.of_nat 1) with (power + 1) in Hsz by lia. lia.
  - apply IH; try lia.
    replace (power + 1 + Z.of_nat (S fuel'))
      with (power + Z.of_nat (S (S fuel'))) by lia.
    assumption.
Qed.

Lemma delta_bounds : Forall (fun d => 0 <= d <= 57) delta.
Proof. unfold delta. repeat constructor; lia. Qed.

(** What [getsize] computes: with [2^p] the least power of two, from [4] on,
    that is not below the size, it is [2^(p+1) - delta[p+1]]. *)
Lemma getsize_spec ht ns :
  getsize ht = Some ns ->
  exists p d, 2 <= p <= 29 /\ size ht <= 2 ^ p /\
              (p = 2 \/ 2 ^ (p - 1) < size ht) /\
              delta !! Z.to_nat (p + 1) = Some d /\
              ns = 2 ^ (p + 1) - d /\ 0 < ns.
Proof.
  unfold getsize.
  destruct (getsize_loop 29 2 1 (size ht)) as [[num power]|] eqn:E;
    [|discriminate].
  apply getsize_loop_spec in E; [|reflexivity|lia].
  destruct E as (-> & Hp & Hsz & Hmin).
  destruct (delta !! Z.to_nat (power + 1)) as [d|] eqn:Ed; [|discriminate].
  destruct (2 ^ power * 2 <? 2 ^ 31) eqn:Eo; [|discriminate].
  intros [= <-]. apply Z.ltb_lt in Eo.
  assert (2 ^ power * 2 = 2 ^ (power + 1)) as Hpow.
  { rewrite Z.pow_add_r by lia. lia. }
  assert (power <= 29) as Hle.
  { destruct (Z_le_gt_dec power 29) as [|Hgt]; [assumption|].
    assert (2 ^ 30 <= 2 ^ power) by (apply Z.pow_le_mono_r; lia). lia. }
  exists power, d.
  split; [lia|]. split; [lia|]. split.
  { destruct Hmin as [ -> | H]; [now left | now right]. }
  split; [assumption|]. split; [lia|].
  rewrite Hpow.
  pose proof delta_bounds as Hb. rewrite List.Forall_forall in Hb.
  assert (0 <= d <= 57) as Hd.
  { apply Hb. apply list_elem_of_In, list_elem_of_lookup. eauto. }
  destruct (Z_le_gt_dec 5 power) as [H5|H5].
  - assert (2 ^ 6 <= 2 ^ (power + 1)) by (apply Z.pow_le_mono_r; lia). lia.
  - assert (power = 2 \/ power = 3 \/ power = 4) as [ -> | [ -> | -> ] ] by lia;
      vm_compute in Ed; injection Ed as <-; reflexivity.
Qed.


Lemma getsize_loop_more fuel : forall num power sz r,
  getsize_loop fuel num power sz = Some r ->
  getsize_loop (S fuel) num power sz = Some r.
Proof.
  induction fuel as [|fuel IH]; intros num power sz r; [discriminate|].
  intros H. simpl in H. change (getsize_loop (S (S fuel)) num power sz)
    with (if num * 2 >=? sz then Some (num * 2, power + 1)
          else getsize_loop (S fuel) (num * 2) (power + 1) sz).
  destruct (num * 2 >=? sz); [assumption | now apply IH].
Qed.

Lemma getsize_total ht :
  size ht <= 2 ^ 29 -> exists ns, getsize ht = Some ns.
Proof.
  intros Hsz. unfold getsize.
  destruct (getsize_loop_total 28 2 1 (size ht)) as [[num power] E];
    try reflexivity; try lia.
  rewrite (getsize_loop_more _ _ _ _ _ E).
  apply getsize_loop_spec in E; [|reflexivity|lia].
  destruct E as (-> & Hp & _ & _).
  assert (2 ^ power <= 2 ^ 29) by (apply Z.pow_le_mono_r; lia).
  destruct (delta !! Z.to_nat (power + 1)) as [d|] eqn:Ed.
  - destruct (2 ^ power * 2 <? 2 ^ 31) eqn:Eo; [eauto|].
    apply Z.ltb_ge in Eo. lia.
  - apply lookup_ge_None in Ed. simpl in Ed. lia.
Qed.

End WithTypes.

Lemma delta_entries_ok : forallb delta_entry_ok (seq 3 28) = true.
Proof. vm_compute. reflexivity. Qed.

(** The capacities that [getsize] can return are the largest primes below
    their power of two. *)
Lemma delta_largest_prime (i d : Z) :
  3 <= i <= 30 -> delta !! Z.to_nat i = Some d ->
  Z.prime (2 ^ i - d) /\
  (forall q, 2 ^ i - d < q < 2 ^ i -> ~ Z.prime q).
Proof.
  intros Hi Hd. pose proof delta_entries_ok as Hall.
  rewrite forallb_forall in Hall.
  assert (In (Z.to_nat i) (seq 3 28)) as Hin by (apply in_seq; lia).
  specialize (Hall _ Hin). unfold delta_entry_ok in Hall.
  rewrite Hd, Z2Nat.id in Hall by lia.
  apply andb_true_iff in Hall as [Hp Hgap].
  split; [now apply Primes.is_prime_correct|].
  intros q Hq Hprime. rewrite forallb_forall in Hgap.
  assert (In (Z.to_nat (q - (2 ^ i - d))) (seq 1 (Z.to_nat d - 1))) as Hj
    by (apply in_seq; lia).
  specialize (Hgap _ Hj). rewrite Z2Nat.id in Hgap by lia.
  replace (2 ^ i - d + (q - (2 ^ i - d))) with q in Hgap by lia.
  apply Primes.is_prime_correct in Hprime. rewrite Hprime in Hgap.
  discriminate.
Qed.

End HashtableGetsize.

Module HashtableInvariant.
Import Hashtable HashtableSpec HashtableSearch HashtableGetsize.
Local Open Scope Z_scope.

Section WithTypes.
Context {K V : Type}.
Implicit Types (ht : HashTab K V) (k : K) (v : V) (e : HTentry K V).

(** Pushing an entry on the chain of its hash keeps every entry in the
    bucket of its hash. *)
Lemma push_bucket (hashf : K -> Z -> Z) (sz : Z)
    (tbl : list (list (HTentry K V))) e chain :
  0 <= hashf (key e) sz ->
  tbl !! Z.to_nat (hashf (key e) sz) = Some chain ->
  (forall i b e', tbl !! i = Some b -> In e' b ->
                  hashf (key e') sz = Z.of_nat i) ->
  forall i b e',
    <[Z.to_nat (hashf (key e) sz) := e :: chain]> tbl !! i = Some b ->
    In e' b -> hashf (key e') sz = Z.of_nat i.
Proof.
  intros Hpos Hchain Hold i b e' Hi He'.
  destruct (decide (Z.to_nat (hashf (key e) sz) = i)) as [<-|Hne].
  - rewrite list_lookup_insert_eq in Hi
      by (apply lookup_lt_Some in Hchain; exact Hchain).
    injection Hi as <-. destruct He' as [<-|He'].
    + lia.
    + apply (Hold _ chain); assumption.
  - rewrite list_lookup_insert_ne in Hi by assumption.
    now apply (Hold _ b).
Qed.

Lemma rehash_fold (hashf : K -> Z -> Z) (ns : Z) :
  (forall k s, 0 < s -> 0 <= hashf k s < s) -> 0 < ns ->
  forall (es : list (HTentry K V)) (nt : list (list (HTentry K V))),
    Z.of_nat (length nt) = ns ->
    (forall i b e, nt !! i = Some b -> In e b ->
                   hashf (key e) ns = Z.of_nat i) ->
    exists nt',
      fold_left (rehash_entry hashf ns) es (Some nt) = Some nt' /\
      Z.of_nat (length nt') = ns /\
      (forall i b e, nt' !! i = Some b -> In e b ->
                     hashf (key e) ns = Z.of_nat i).
Proof.
  intros Hr Hns es. induction es as [|a es IH]; intros nt Hlen Hb; simpl.
  - exists nt. auto.
  - specialize (Hr (key a) ns Hns). rewrite bucket_lookup by lia.
    destruct (nt !! Z.to_nat (hashf (key a) ns)) as [chain|] eqn:E.
    + apply IH.
      * rewrite length_insert. assumption.
      * apply push_bucket; [lia | assumption | assumption].
    + apply lookup_ge_None in E. lia.
Qed.

Lemma talloc_length (n : Z) :
  0 <= n -> Z.of_nat (length (talloc (K:=K) (V:=V) n)) = n.
Proof. intros H. unfold talloc. rewrite length_replicate. lia. Qed.

Lemma talloc_empty (n : Z) i (b : list (HTentry K V)) e :
  talloc n !! i = Some b -> In e b -> False.
Proof.
  unfold talloc. intros H He. apply lookup_replicate in H as [-> _].
  destruct He.
Qed.

(** [rehash] succeeds on a well-formed table whose new size [getsize] can
    compute, and it yields a well-formed table of that size. *)
Lemma rehash_wf ht ns :
  ht_wf ht -> getsize ht = Some ns ->
  exists ht1, rehash ht = Some ht1 /\ ht_wf ht1 /\ size ht1 = ns /\
              num_entries ht1 = num_entries ht /\
              max_loadfactor ht1 = max_loadfactor ht /\
              hash ht1 = hash ht /\ cmp ht1 = cmp ht.
Proof.
  intros Hwf Hg.
  destruct (getsize_spec ht ns Hg) as (p & d & _ & _ & _ & _ & _ & Hns).
  unfold rehash. rewrite Hg.
  destruct Hwf as [Hs Hr Hc Hb].
  assert ((0 <=? size ht) && (size ht <=? Z.of_nat (length (table ht))) = true)
    as ->.
  { apply andb_true_iff. split; [apply Z.leb_le | apply Z.leb_le]; lia. }
  destruct (rehash_fold (hash ht) ns Hr Hns
              (concat (take (Z.to_nat (size ht)) (table ht))) (talloc ns))
    as (nt' & Hf & Hl & Hb').
  - apply talloc_length. lia.
  - intros i b e Hi He. destruct (talloc_empty _ _ _ _ Hi He).
  - rewrite Hf. eexists. split; [reflexivity|]. simpl.
    split; [|auto]. constructor; simpl; auto. lia.
Qed.

Lemma ht_init_wf lf (h : K -> Z -> Z) (c : K -> K -> Z) :
  (forall k s, 0 < s -> 0 <= h k s < s) ->
  (forall k k' s, c k k' = 0 -> h k s = h k' s) ->
  ht_wf (ht_init (V:=V) lf h c).
Proof.
  intros Hr Hc. constructor; simpl; auto.
  - lia.
  - intros i b e Hi He. destruct (talloc_empty _ _ _ _ Hi He).
Qed.

(** [ht_insert] keeps the table well formed. *)
Lemma ht_insert_wf ht k v code ht' :
  ht_wf ht -> ht_insert ht k v = Some (code, ht') -> ht_wf ht'.
Proof.
  intros Hwf. unfold ht_insert.
  destruct (bucket (table ht) (hash ht k (size ht))) as [b|]; [|discriminate].
  destruct (chain_search (cmp ht) k b); [now intros [= _ <-]|].
  assert (forall ht1, ht_wf ht1 ->
            match bucket (table ht1) (hash ht1 k (size ht1)) with
            | Some chain =>
                Some (EXIT_SUCCESS,
                      {| table := <[Z.to_nat (hash ht1 k (size ht1)) :=
                                      mkHTentry k v :: chain]> (table ht1);
                         size := size ht1;
                         num_entries := uint (num_entries ht1 + 1);
                         max_loadfactor := max_loadfactor ht1;
                         idx := idx ht1;
                         hash := hash ht1;
                         cmp := cmp ht1 |})
            | None => None
            end = Some (code, ht') -> ht_wf ht') as Hpush.
  { intros ht1 Hwf1. destruct (wf_bucket_exists ht1 k Hwf1) as (c & Hc & Hl).
    rewrite Hc. intros [= _ <-]. destruct Hwf1 as [Hs Hr Hcm Hb].
    constructor; simpl; auto.
    - rewrite length_insert. assumption.
    - apply (push_bucket (hash ht1) (size ht1) (table ht1) (mkHTentry k v) c);
        simpl; auto. apply Hr. lia. }
  destruct (negb (Qle_bool (current_loadfactor ht) (max_loadfactor ht))).
  - destruct (rehash ht) as [ht1|] eqn:E; [|discriminate].
    apply Hpush. unfold rehash in E.
    destruct (getsize ht) as [ns|] eqn:Eg; [|discriminate].
    destruct (rehash_wf ht ns Hwf Eg) as (ht1' & E' & Hwf1 & _).
    unfold rehash in E'. rewrite Eg in E'. rewrite E in E'.
    now injection E' as <-.
  - now apply Hpush.
Qed.

(** Every table that the interface builds is well formed. *)
Lemma built_wf ht : built ht -> ht_wf ht.
Proof.
  induction 1 as [lf h c Hr Hc | ht k v code ht' _ IH Hi].
  - now apply ht_init_wf.
  - exact (ht_insert_wf ht k v code ht' IH Hi).
Qed.

End WithTypes.
End HashtableInvariant.

Module HashtableEntries.
Import Hashtable HashtableSpec HashtableSearch HashtableGetsize.
Import HashtableInvariant.
Local Open Scope Z_scope.

Section Entries.
Context {K V : Type}.
Implicit Types (ht : HashTab K V) (e : HTentry K V).

Lemma in_concat_insert (tbl : list (list (HTentry K V))) (i : nat)
    (chain : list (HTentry K V)) e x :
  tbl !! i = Some chain ->
  In e (concat (<[i := x :: chain]> tbl)) -> e = x \/ In e (concat tbl).
Proof.
  intros Hi He. apply in_concat in He as (b & Hb & He).
  apply list_elem_of_In, list_elem_of_lookup in Hb as [j Hj].
  destruct (decide (i = j)) as [<-|Hne].
  - rewrite list_lookup_insert_eq in Hj
      by (apply lookup_lt_Some in Hi; exact Hi).
    injection Hj as <-. destruct He as [<-|He]; [now left|].
    right. apply in_concat. exists chain. split; [|assumption].
    apply list_elem_of_In, list_elem_of_lookup. eauto.
  - rewrite list_lookup_insert_ne in Hj by assumption.
    right. apply in_concat. exists b. split; [|assumption].
    apply list_elem_of_In, list_elem_of_lookup. eauto.
Qed.

Lemma rehash_fold_entries (hashf : K -> Z -> Z) (ns : Z)
    (es : list (HTentry K V)) :
  forall nt nt',
    fold_left (rehash_entry hashf ns) es (Some nt) = Some nt' ->
    forall e, In e (concat nt') -> In e es \/ In e (concat nt).
Proof.
  induction es as [|a es IH]; intros nt nt'; simpl.
  - intros [= <-]. auto.
  - unfold bucket. destruct (hashf (key a) ns <? 0).
    { assert (forall l, fold_left (rehash_entry hashf ns) l None
                        = @None (list (list (HTentry K V)))) as Hnone
        by (induction l; simpl; auto).
      rewrite Hnone. discriminate. }
    destruct (nt !! Z.to_nat (hashf (key a) ns)) as [chain|] eqn:E.
    + intros H e He. destruct (IH _ _ H e He) as [Hin|Hin]; [auto|].
      apply (in_concat_insert _ _ _ _ _ E) in Hin as [->|Hin]; auto.
    + assert (forall l, fold_left (rehash_entry hashf ns) l None
                        = @None (list (list (HTentry K V)))) as Hnone
        by (induction l; simpl; auto).
      rewrite Hnone. discriminate.
Qed.

Lemma rehash_entries ht ht1 e :
  rehash ht = Some ht1 -> In e (entries ht1) -> In e (entries ht).
Proof.
  unfold rehash. destruct (getsize ht) as [ns|]; [|discriminate].
  destruct ((0 <=? size ht) && (size ht <=? Z.of_nat (length (table ht))));
    [|discriminate].
  destruct (fold_left _ _ _) as [nt'|] eqn:E; [|discriminate].
  intros [= <-]. unfold entries. simpl. intros He.
  destruct (rehash_fold_entries _ _ _ _ _ E e He) as [Hin|Hin].
  - apply in_concat in Hin as (b & Hb & Hin). apply in_concat.
    exists b. split; [|assumption].
    apply list_elem_of_In in Hb. apply list_elem_of_In.
    apply list_elem_of_lookup in Hb as [j Hj].
    apply lookup_take_Some in Hj as [Hj _].
    apply list_elem_of_lookup. eauto.
  - apply in_concat in Hin as (b & Hb & Hin).
    apply list_elem_of_In, list_elem_of_lookup in Hb as [j Hj].
    destruct (talloc_empty _ _ _ _ Hj Hin).
Qed.

(** The entries after [ht_insert] are old entries or the new one. *)
Lemma ht_insert_entries ht k v code ht' e :
  ht_insert ht k v = Some (code, ht') ->
  In e (entries ht') -> In e (entries ht) \/ e = mkHTentry k v.
Proof.
  unfold ht_insert.
  destruct (bucket (table ht) (hash ht k (size ht))) as [b|]; [|discriminate].
  destruct (chain_search (cmp ht) k b); [intros [= _ <-]; auto|].
  destruct (negb (Qle_bool (current_loadfactor ht) (max_loadfactor ht))).
  - destruct (rehash ht) as [ht1|] eqn:Er; [|discriminate].
    unfold bucket.
    destruct (hash ht1 k (size ht1) <? 0); [discriminate|].
    destruct (table ht1 !! Z.to_nat (hash ht1 k (size ht1))) as [c|] eqn:Ec;
      [|discriminate].
    intros [= _ <-]. unfold entries at 1. simpl. intros He.
    apply (in_concat_insert _ _ _ _ _ Ec) in He as [->|He]; [now right|].
    left. now apply (rehash_entries ht ht1).
  - unfold bucket.
    destruct (hash ht k (size ht) <? 0); [discriminate|].
    destruct (table ht !! Z.to_nat (hash ht k (size ht))) as [c|] eqn:Ec;
      [|discriminate].
    intros [= _ <-]. unfold entries at 1. simpl. intros He.
    apply (in_concat_insert _ _ _ _ _ Ec) in He as [->|He]; auto.
Qed.

End Entries.

End HashtableEntries.

Module SymboltableHash.
Import Hashtable HashtableSpec HashtableSearch HashtableGetsize.
Import HashtableInvariant.
Import Symboltable.
Local Open Scope Z_scope.

Lemma shift_hash_range (k : string) (s : Z) :
  0 < s -> 0 <= shift_hash k s < s.
Proof. intros H. unfold shift_hash. now apply Z.mod_pos_bound. Qed.

Lemma char_val_zero (c : ascii) :
  (char_val c =? 0) = (N_of_ascii c =? 0)%N.
Proof.
  unfold char_val. pose proof (N_ascii_bounded c) as Hb.
  destruct (Z.of_N (N_of_ascii c) <? 128) eqn:E.
  - destruct (N.eqb_spec (N_of_ascii c) 0) as [->|Hn]; [reflexivity|].
    apply Z.eqb_neq. lia.
  - apply Z.ltb_ge in E.
    destruct (N.eqb_spec (N_of_ascii c) 0) as [H0|Hn]; [rewrite H0 in E; lia|].
    apply Z.eqb_neq. lia.
Qed.

(** Keys that [strcmp] finds equal hash alike. *)
Lemma strcmp_shift_hash_loop (k k' : string) :
  strcmp k k' = 0 -> forall h, shift_hash_loop k h = shift_hash_loop k' h.
Proof.
  revert k'. induction k as [|c k IH]; intros [|c' k']; simpl.
  - reflexivity.
  - rewrite char_val_zero. destruct (N_of_ascii c' =? 0)%N; [reflexivity|lia].
  - rewrite char_val_zero. destruct (N_of_ascii c =? 0)%N; [reflexivity|lia].
  - destruct (N.compare_spec (N_of_ascii c) (N_of_ascii c')) as [He|Hl|Hg];
      try lia.
    assert (c = c') as <-.
    { rewrite <- (ascii_N_embedding c), <- (ascii_N_embedding c').
      now f_equal. }
    rewrite char_val_zero. destruct (N_of_ascii c =? 0)%N; [reflexivity|].
    intros H h. now apply IH.
Qed.

Lemma key_strcmp_shift_hash (k k' : string) (s : Z) :
  key_strcmp k k' = 0 -> shift_hash k s = shift_hash k' s.
Proof.
  intros H. unfold shift_hash. now rewrite (strcmp_shift_hash_loop k k' H).
Qed.

Lemma strcmp_refl (k : string) : strcmp k k = 0.
Proof.
  induction k as [|c k IH]; simpl; [reflexivity|].
  rewrite N.compare_refl. now destruct (N_of_ascii c =? 0)%N.
Qed.

(** The tables of the symbol table are built by the interface. *)
Lemma new_table_built :
  built (ht_init (V:=ptr) loadfactor_075 shift_hash key_strcmp).
Proof.
  apply built_init; [apply shift_hash_range | apply key_strcmp_shift_hash].
Qed.

End SymboltableHash.

Module SymboltableSteps.
Import Hashtable HashtableSpec HashtableSearch HashtableGetsize.
Import HashtableInvariant.
Import Symboltable SymboltableSpec SymboltableHash.
Local Open Scope Z_scope.

Lemma ht_search_scope (s : SymTab) (t : option ptr) (n : string) :
  scope_ok s t -> ht_search s t n = Some (scope_binding s t n).
Proof.
  intros Hok. unfold ht_search, scope_binding.
  destruct t as [q|]; [|reflexivity].
  destruct (Hok q eq_refl) as (h & -> & Hwf & _).
  now apply ht_search_binding.
Qed.

Lemma find_name_refines (n : string) (s : SymTab) :
  sym_ok s -> find_name n s = Ok (find_name_spec n s) s.
Proof.
  intros [Hcur Hsaved]. unfold find_name, find_name_spec.
  rewrite (ht_search_scope s (table s) n Hcur).
  destruct (scope_binding s (table s) n) as [p|]; [reflexivity|].
  destruct (saved_table s) as [q|] eqn:Eq; [|reflexivity].
  rewrite <- Eq in *. rewrite (ht_search_scope s (saved_table s) n Hsaved).
  destruct (scope_binding s (saved_table s) n) as [p|] eqn:Eb; [|reflexivity].
  unfold callable. unfold scope_binding in Eb. rewrite Eq in Eb.
  destruct (Hsaved q Eq) as (h & Hh & _ & Hlive). rewrite Hh in Eb.
  unfold binding in Eb.
  destruct (chain_search (cmp h) n (entries h)) as [e|] eqn:Ec; [|discriminate].
  injection Eb as <-. apply chain_search_Some in Ec as [He _].
  destruct (Hlive e He) as (r & ->).
  now destruct (IS_CALLABLE_TYPE (type r)).
Qed.

Lemma find_name_state (n : string) (s s' : SymTab) r :
  find_name n s = Ok r s' -> s' = s.
Proof.
  unfold find_name.
  repeat match goal with
         | |- context [match ?x with _ => _ end] => destruct x
         end; congruence.
Qed.

Lemma ht_insert_offsets (s s1 : SymTab) t id prop code :
  ht_insert s t id prop = Some (code, s1) ->
  curr_offset s1 = curr_offset s /\ recs s1 = recs s /\
  table s1 = table s /\ saved_table s1 = saved_table s.
Proof.
  unfold ht_insert. destruct t as [q|].
  - destruct (deref (tabs s) q); [|discriminate].
    destruct (Hashtable.ht_insert _ _ _) as [[c h']|]; [|discriminate].
    intros [= _ <-]. auto.
  - intros [= _ <-]. auto.
Qed.


(** One call of [insert_name]: a successful insertion of a variable record
    stores the current offset in it and advances the offset by one; every
    other returning call leaves the offset alone. *)
Lemma insert_name_step (id : string) (prop : ptr) (s s1 : SymTab) (b : bool) :
  insert_name id prop s = Ok b s1 ->
  match b, deref (recs s1) prop with
  | true, Some r =>
      if IS_CALLABLE_TYPE (type r) then curr_offset s1 = curr_offset s
      else offset r = curr_offset s /\
           curr_offset s1 = uint (curr_offset s + 1)
  | true, None => False
  | false, _ => curr_offset s1 = curr_offset s
  end.
Proof.
  unfold insert_name. destruct (table s) as [q|] eqn:Et; [|discriminate].
  destruct (ht_insert s (Some q) id prop) as [[code s']|] eqn:Ei;
    [|discriminate].
  destruct (ht_insert_offsets _ _ _ _ _ _ Ei) as (Ho & Hr & _ & _).
  destruct code; try (intros [= Hb Hs]; subst b s1; assumption).
  destruct (deref (recs s') prop) as [r|] eqn:Er; [|discriminate].
  destruct (IS_CALLABLE_TYPE (type r)) eqn:Ec; simpl.
  - intros [= Hb Hs]. subst b s1. rewrite Er, Ec. assumption.
  - intros [= Hb Hs]. subst b s1. simpl. unfold deref in *.
    destruct (recs s' !! prop) as [o|] eqn:El; [|discriminate].
    rewrite list_lookup_insert_eq by (apply lookup_lt_Some in El; exact El).
    simpl. rewrite Ec. rewrite Ho. auto.
Qed.

Lemma run_scope_offsets (ops : list ScopeOp) :
  forall (s s' : SymTab) (offsets : list Z),
    run_scope ops s = Ok offsets s' ->
    0 <= curr_offset s ->
    curr_offset s + Z.of_nat (length offsets) < 2 ^ 32 ->
    offsets = map (fun i => curr_offset s + Z.of_nat i)
                  (seq 0 (length offsets)) /\
    curr_offset s' = curr_offset s + Z.of_nat (length offsets).
Proof.
  induction ops as [|op ops IH]; intros s s' offsets; simpl.
  - intros [= <- <-] _ _. simpl. split; [reflexivity | lia].
  - destruct op as [id prop|id].
    + destruct (insert_name id prop s) as [[|] s1| | |] eqn:Ei;
        try discriminate.
      * pose proof (insert_name_step _ _ _ _ _ Ei) as Hstep. simpl in Hstep.
        destruct (deref (recs s1) prop) as [r|]; [|discriminate].
        destruct (IS_CALLABLE_TYPE (type r)).
        -- rewrite <- Hstep. apply IH.
        -- destruct Hstep as [Hoff Hcur].
           destruct (run_scope ops s1) as [offs s2| | |] eqn:Er;
             try discriminate.
           intros [= <- <-] Hpos Hlt. simpl length in *.
           assert (uint (curr_offset s + 1) = curr_offset s + 1) as Hu.
           { unfold uint. apply Z.mod_small. lia. }
           rewrite Hu in Hcur.
           destruct (IH s1 s2 offs Er) as [Hl Hc]; try lia.
           split; [|lia]. simpl. f_equal; [lia|].
           rewrite Hl at 1. rewrite <- seq_shift, map_map.
           apply map_ext. intros i. lia.
      * pose proof (insert_name_step _ _ _ _ _ Ei) as Hstep. simpl in Hstep.
        rewrite <- Hstep. apply IH.
    + destruct (find_name id s) as [r s1| | |] eqn:Ef; try discriminate.
      apply find_name_state in Ef as ->. apply IH.
Qed.

Lemma returned_state_of {A : Type} (r : Res SymTab A) (a : A) :
  returned r = Some a -> r = Ok a (state_of r).
Proof. destruct r; simpl; congruence. Qed.

Lemma scope_start_offset (s : SymTab) : scope_start s -> curr_offset s = 1.
Proof.
  intros [(s0 & H)|(s0 & id & prop & H)].
  - unfold init_symbol_table in H. simpl in H. now injection H as <-.
  - unfold open_subroutine in H. simpl in H.
    destruct (table s0); [|discriminate].
    destruct (ht_insert _ _ _ _) as [[[] s1]|]; try discriminate.
    simpl in H. now injection H as <-.
Qed.

End SymboltableSteps.
Module AmplcSteps.
Import Token Amplc AmplcSpec.
Local Open Scope Z_scope.
Local Open Scope string_scope.

(** Unfolds the plumbing of the parser monad. *)
Ltac run_parser :=
  cbv beta iota delta [bind ret get modify when advance tok is_tok expect
                       expect_id parse_relop parse_mulop parse_addop].

Lemma function_not_procedure (t : ValType) :
  IS_FUNCTION t = true -> IS_PROCEDURE t = false.
Proof.
  unfold IS_FUNCTION, IS_PROCEDURE.
  destruct (IS_CALLABLE_TYPE t), (base_kind t =? TYPE_NONE)%Z; simpl;
    congruence.
Qed.

Lemma get_token_return_type (st : State) :
  return_type (get_token st) = return_type st.
Proof. unfold get_token. now destruct (source st) as [|[t p] rest]. Qed.

Lemma parse_return_procedure (fuel : nat) (st : State) :
  type (token st) = TOK_RETURN ->
  IS_PROCEDURE (return_type st) = true ->
  parse_return fuel st
  = abort_c ERR_RETURN_EXPRESSION_NOT_ALLOWED [] (get_token st).
Proof.
  intros Ht Hp. unfold parse_return. run_parser. rewrite Ht. cbn.
  now rewrite get_token_return_type, Hp.
Qed.

Lemma parse_return_function (fuel : nat) (st : State) :
  type (token st) = TOK_RETURN ->
  IS_FUNCTION (return_type st) = true ->
  parse_return fuel st
  = if STARTS_EXPR (type (token (get_token st))) then
      match parse_expr fuel (get_token st) with
      | Ok t1 st2 =>
          chktypes (SET_RETURN_TYPE t1) (SET_RETURN_TYPE (return_type st))
            (position (get_token st)) "for 'return' statement" st2
      | Abort d => Abort d
      | Fault => Fault
      | OutOfFuel => OutOfFuel
      end
    else
      abort_c ERR_MISSING_RETURN_EXPRESSION []
        (set_position (position st) (get_token st)).
Proof.
  intros Ht Hf. pose proof (function_not_procedure _ Hf) as Hp.
  unfold parse_return. run_parser. rewrite Ht. cbn.
  rewrite get_token_return_type, Hp, Hf. cbn.
  destruct (STARTS_EXPR (type (token (get_token st)))); [|reflexivity].
  now destruct (parse_expr fuel (get_token st)).
Qed.

(** A call statement whose identifier resolves to a function stops in the
    early test of [parse_call], at the position of the identifier; the
    identifier is not among the arguments of [abort_c] there. *)
Lemma parse_call_function (fuel : nat) (st : State) (p : ptr)
    (prop : IDPropt) :
  type (token st) = TOK_ID ->
  find_name (lexeme (token st)) (get_token st)
  = Ok (Some p) (get_token st) ->
  load p (get_token st) = Ok prop (get_token st) ->
  IS_FUNCTION (Symboltable.type prop) = true ->
  parse_call fuel st
  = abort_c ERR_NOT_A_PROCEDURE [] (set_position (position st) (get_token st)).
Proof.
  intros Ht Hfind Hload Hf. unfold parse_call. run_parser.
  rewrite Ht. cbn. rewrite Hfind. cbn. rewrite Hload. cbn. rewrite Hf.
  reflexivity.
Qed.

(** The text of that diagnostic is indeterminate. *)
Lemma abort_not_a_procedure_without_id (st : State) :
  abort_c (A:=unit) ERR_NOT_A_PROCEDURE [] st
  = Abort (Leprintf (position st) None).
Proof. reflexivity. Qed.

(** An empty argument list is accepted whatever the parameter count of the
    callee. *)
Lemma parse_arglist_empty (fuel : nat) (id : string) (idpos : SourcePos)
    (st : State) (p : ptr) :
  find_name id st = Ok (Some p) st ->
  type (token st) = TOK_LPAREN ->
  type (token (get_token st)) = TOK_RPAREN ->
  parse_arglist (S fuel) id idpos st = Ok tt (get_token (get_token st)).
Proof.
  intros Hfind Hl Hr. simpl. unfold bind at 1. rewrite Hfind. run_parser.
  rewrite Hl. cbn. rewrite Hr. cbn. rewrite Hr. reflexivity.
Qed.

End AmplcSteps.

Module SymboltableInvariant.
Import Hashtable HashtableSpec HashtableSearch HashtableGetsize.
Import HashtableInvariant.
Import HashtableEntries.
Import Symboltable SymboltableSpec SymboltableHash SymboltableSteps.
Local Open Scope Z_scope.

Lemma deref_insert_eq {A : Type} (heap : list (option A)) p a b :
  deref heap p = Some a -> deref (<[p := Some b]> heap) p = Some b.
Proof.
  unfold deref. destruct (heap !! p) as [o|] eqn:E; [|discriminate].
  intros _. rewrite list_lookup_insert_eq
    by (apply lookup_lt_Some in E; exact E). reflexivity.
Qed.

Lemma deref_insert_ne {A : Type} (heap : list (option A)) p q o :
  p <> q -> deref (<[p := o]> heap) q = deref heap q.
Proof. intros H. unfold deref. now rewrite list_lookup_insert_ne. Qed.

Lemma deref_app {A : Type} (heap : list (option A)) p a x :
  deref heap p = Some a -> deref (heap ++ [x]) p = Some a.
Proof.
  unfold deref, ptr in *. destruct (heap !! p) as [o|] eqn:E; [|discriminate].
  rewrite lookup_app_l by (apply lookup_lt_Some in E; exact E).
  now rewrite E.
Qed.

Lemma deref_app_new {A : Type} (heap : list (option A)) a :
  deref (heap ++ [Some a]) (length heap) = Some a.
Proof.
  unfold deref. rewrite lookup_app_r by lia.
  now replace (length heap - length heap)%nat with O by lia.
Qed.

(** [ht_insert] through a pointer keeps a good scope good, for the table it
    updates and for any other. *)
Lemma ht_insert_scope_ok (s s1 : SymTab) (q : ptr) id prop code t :
  ht_insert s (Some q) id prop = Some (code, s1) ->
  live s prop -> scope_ok s (Some q) -> scope_ok s t -> scope_ok s1 t.
Proof.
  unfold ht_insert. intros H Hlive Hq Ht.
  destruct (Hq q eq_refl) as (h & Hh & Hwf & Hvals). rewrite Hh in H.
  destruct (Hashtable.ht_insert h id prop) as [[c h']|] eqn:Ei; [|discriminate].
  injection H as _ <-. intros q' ->. unfold live in *. simpl.
  destruct (decide (q = q')) as [<-|Hne].
  - exists h'. split; [now apply (deref_insert_eq _ _ h)|].
    split; [exact (ht_insert_wf _ _ _ _ _ Hwf Ei)|].
    intros e He. destruct (ht_insert_entries _ _ _ _ _ _ Ei He) as [Hin| ->].
    + now apply Hvals.
    + exact Hlive.
  - destruct (Ht q' eq_refl) as (h2 & Hh2 & Hwf2 & Hvals2).
    exists h2. rewrite deref_insert_ne by assumption. auto.
Qed.

(** [init_symbol_table] establishes the invariant. *)
Lemma init_symbol_table_ok (s s1 : SymTab) :
  init_symbol_table s = Ok tt s1 -> sym_ok s1.
Proof.
  unfold init_symbol_table. simpl. intros [= <-]. split; simpl.
  - intros q [= <-]. eexists. split; [apply deref_app_new|].
    split; [exact (built_wf _ new_table_built)|].
    intros e He. vm_compute in He. destruct He.
  - intros q [=].
Qed.

(** [insert_name] of a live record keeps the invariant. *)
Lemma insert_name_ok (id : string) (prop : ptr) (s s1 : SymTab) (b : bool) :
  insert_name id prop s = Ok b s1 -> live s prop -> sym_ok s -> sym_ok s1.
Proof.
  unfold insert_name. intros H Hlive [Hcur Hsaved].
  destruct (table s) as [q|] eqn:Et; [|discriminate].
  destruct (ht_insert s (Some q) id prop) as [[code s']|] eqn:Ei;
    [|discriminate].
  assert (sym_ok s' /\ recs s' = recs s) as [[Hc' Hs'] Hrecs].
  { pose proof (ht_insert_scope_ok _ _ _ _ _ _ (Some q) Ei Hlive Hcur Hcur)
      as H1.
    pose proof (ht_insert_scope_ok _ _ _ _ _ _ (saved_table s) Ei Hlive Hcur
                  Hsaved) as H2.
    destruct (ht_insert_offsets _ _ _ _ _ _ Ei) as (_ & Hr & Ht & Hs).
    split; [split|assumption]; [rewrite Ht, Et | rewrite Hs]; assumption. }
  destruct code; try (injection H as _ <-; split; assumption).
  destruct (deref (recs s') prop) as [r|] eqn:Er; [|discriminate].
  destruct (negb (IS_CALLABLE_TYPE (type r))); injection H as _ <-;
    [|split; assumption].
  assert (forall p, live s' p ->
            exists r', deref (<[prop := Some {| type := type r;
                                               offset := curr_offset s';
                                               nparams := nparams r;
                                               params := params r |}]>
                                (recs s')) p = Some r') as Hkeep.
  { intros p (r' & Hr'). destruct (decide (prop = p)) as [<-|Hne].
    - eexists. now apply (deref_insert_eq _ _ r).
    - exists r'. now rewrite deref_insert_ne. }
  split; simpl; intros q' Hq'.
  - destruct (Hc' q' Hq') as (h & Hh & Hwf & Hvals).
    exists h. split; [assumption|]. split; [assumption|].
    intros e He. unfold live. simpl. apply Hkeep. now apply Hvals.
  - destruct (Hs' q' Hq') as (h & Hh & Hwf & Hvals).
    exists h. split; [assumption|]. split; [assumption|].
    intros e He. unfold live. simpl. apply Hkeep. now apply Hvals.
Qed.

(** A successful [open_subroutine] with a live record keeps the
    invariant. *)
Lemma open_subroutine_ok (id : string) (prop : ptr) (s s1 : SymTab) :
  open_subroutine id prop s = Ok true s1 -> live s prop -> sym_ok s ->
  sym_ok s1.
Proof.
  unfold open_subroutine. simpl. intros H Hlive [Hcur _].
  destruct (table s) as [q|] eqn:Et; [|discriminate].
  set (s0 := {| tabs := tabs s; recs := recs s; table := Some q;
                saved_table := saved_table s; curr_offset := curr_offset s;
                saved_offset := curr_offset s |}) in *.
  destruct (ht_insert s0 (Some q) id prop) as [[code s']|] eqn:Ei;
    [|discriminate].
  assert (scope_ok s' (Some q)) as Hq.
  { apply (ht_insert_scope_ok s0 s' q id prop code (Some q) Ei); auto. }
  assert (table s' = Some q) as Ht'.
  { now destruct (ht_insert_offsets _ _ _ _ _ _ Ei) as (_ & _ & -> & _). }
  destruct code; try discriminate. simpl in H. injection H as <-.
  split; simpl.
  - intros q' [= <-]. eexists. split; [apply deref_app_new|].
    split; [exact (built_wf _ new_table_built)|].
    intros e He. vm_compute in He. destruct He.
  - rewrite Ht'. intros q' [= <-].
    destruct (Hq q eq_refl) as (h & Hh & Hwf & Hvals).
    exists h. split; [now apply deref_app|]. split; [assumption|].
    exact Hvals.
Qed.

Lemma ht_insert_saved_offset (v : Z) (s : SymTab) t id prop :
  ht_insert (set_saved_offset v s) t id prop
  = match ht_insert s t id prop with
    | Some (code, s1) => Some (code, set_saved_offset v s1)
    | None => None
    end.
Proof.
  unfold ht_insert. destruct t as [q|]; [|reflexivity]. simpl.
  destruct (deref (tabs s) q) as [h|]; [|reflexivity].
  now destruct (Hashtable.ht_insert h id prop) as [[code h']|].
Qed.

(** No function of the unit reads [saved_offset]: [open_subroutine]
    overwrites it, every other function carries it along. *)
Lemma saved_offset_never_read (v : Z) (s : SymTab) :
  (forall id prop,
     open_subroutine id prop (set_saved_offset v s) = open_subroutine id prop s)
  /\ (forall id prop,
        insert_name id prop (set_saved_offset v s)
        = res_map (set_saved_offset v) (insert_name id prop s))
  /\ (forall id,
        find_name id (set_saved_offset v s)
        = res_map (set_saved_offset v) (find_name id s))
  /\ release_symbol_table (set_saved_offset v s)
     = res_map (set_saved_offset v) (release_symbol_table s)
  /\ init_symbol_table (set_saved_offset v s)
     = res_map (set_saved_offset v) (init_symbol_table s)
  /\ get_variables_width (set_saved_offset v s) = get_variables_width s.
Proof.
  split; [|split; [|split; [|split; [|split]]]].
  - reflexivity.
  - intros id prop. unfold insert_name. rewrite ht_insert_saved_offset.
    simpl. destruct (table s) as [q|]; [|reflexivity].
    destruct (ht_insert s (Some q) id prop) as [[code s1]|]; [|reflexivity].
    destruct code; try reflexivity. simpl.
    destruct (deref (recs s1) prop) as [r|]; [|reflexivity].
    now destruct (negb (IS_CALLABLE_TYPE (type r))).
  - intros id. unfold find_name, ht_search. simpl.
    destruct (table s) as [q|].
    + destruct (deref (tabs s) q) as [h|]; [|reflexivity].
      destruct (Hashtable.ht_search h id) as [[p|]|]; try reflexivity.
      destruct (saved_table s) as [q'|]; [|reflexivity].
      destruct (deref (tabs s) q') as [h'|]; [|reflexivity].
      destruct (Hashtable.ht_search h' id) as [[p|]|]; try reflexivity.
      destruct (deref (recs s) p) as [r|]; [|reflexivity].
      now destruct (negb (IS_CALLABLE_TYPE (type r))).
    + destruct (saved_table s) as [q'|]; [|reflexivity].
      destruct (deref (tabs s) q') as [h'|]; [|reflexivity].
      destruct (Hashtable.ht_search h' id) as [[p|]|]; try reflexivity.
      destruct (deref (recs s) p) as [r|]; [|reflexivity].
      now destruct (negb (IS_CALLABLE_TYPE (type r))).
  - unfold release_symbol_table. simpl.
    destruct (table s) as [q|]; [|reflexivity].
    destruct (deref (tabs s) q) as [h|]; [|reflexivity].
    destruct (Hashtable.ht_free_values h) as [vs|]; [|reflexivity].
    now destruct (fold_left freeprop vs (Some (recs s))).
  - reflexivity.
  - reflexivity.
Qed.

End SymboltableInvariant.

Module HashtablePermutation.
Import Hashtable HashtableSpec HashtableKeys HashtableSearch HashtableGetsize.
Import HashtableInvariant.
Local Open Scope Z_scope.

Section WithTypes.
Context {K V : Type}.
Implicit Types (ht : HashTab K V) (k : K) (v : V) (e : HTentry K V).

Lemma bucket_Some (tbl : list (list (HTentry K V))) (i : Z) chain :
  bucket tbl i = Some chain -> 0 <= i /\ tbl !! Z.to_nat i = Some chain.
Proof.
  unfold bucket. destruct (i <? 0) eqn:E; [discriminate|].
  apply Z.ltb_ge in E. auto.
Qed.

(** Pushing an entry on the front of one chain adds it to the entries. *)
Lemma concat_insert_cons (tbl : list (list (HTentry K V))) :
  forall (i : nat) chain x,
    tbl !! i = Some chain ->
    Permutation (concat (<[i := x :: chain]> tbl)) (x :: concat tbl).
Proof.
  induction tbl as [|b tbl IH]; intros [|i] chain x H; try discriminate;
    simpl in *.
  - injection H as ->. reflexivity.
  - rewrite (IH i chain x H). symmetry. apply Permutation_middle.
Qed.

Lemma rehash_fold_None (hashf : K -> Z -> Z) (ns : Z)
    (es : list (HTentry K V)) :
  fold_left (rehash_entry hashf ns) es None = None.
Proof. induction es; simpl; auto. Qed.

Lemma rehash_fold_perm (hashf : K -> Z -> Z) (ns : Z)
    (es : list (HTentry K V)) :
  forall nt nt',
    fold_left (rehash_entry hashf ns) es (Some nt) = Some nt' ->
    Permutation (concat nt') (es ++ concat nt).
Proof.
  induction es as [|a es IH]; intros nt nt'; simpl.
  - intros [= <-]. reflexivity.
  - destruct (bucket nt (hashf (key a) ns)) as [chain|] eqn:E.
    + apply bucket_Some in E as [_ E]. intros H.
      rewrite (IH _ _ H), (concat_insert_cons _ _ _ a E).
      symmetry. apply Permutation_middle.
    + rewrite rehash_fold_None. discriminate.
Qed.

Lemma concat_all_nil (l : list (list (HTentry K V))) :
  (forall b, In b l -> b = []) -> concat l = [].
Proof.
  induction l as [|b l IH]; intros H; simpl; [reflexivity|].
  rewrite (H b) by now left. apply IH. intros b' Hb'. apply H. now right.
Qed.

(** The buckets from [size] on hold no entry: the entries of a well-formed
    table are those of its first [size] buckets. *)
Lemma wf_take_entries ht :
  ht_wf ht -> concat (take (Z.to_nat (size ht)) (table ht)) = entries ht.
Proof.
  intros [Hs Hr _ Hb]. unfold entries.
  rewrite <- (take_drop (Z.to_nat (size ht)) (table ht)) at 2.
  rewrite concat_app.
  rewrite (concat_all_nil (drop _ _)); [now rewrite app_nil_r|].
  intros b Hin. apply list_elem_of_In, list_elem_of_lookup in Hin as [j Hj].
  rewrite lookup_drop in Hj.
  destruct b as [|e b]; [reflexivity|]. exfalso.
  pose proof (Hb _ _ e Hj ltac:(now left)) as Hh.
  pose proof (Hr (key e) (size ht) ltac:(lia)). lia.
Qed.

(** [rehash] moves every entry, and nothing else, to the new table. *)
Lemma rehash_perm ht ht1 :
  ht_wf ht -> rehash ht = Some ht1 -> Permutation (entries ht1) (entries ht).
Proof.
  intros Hwf. unfold rehash. destruct (getsize ht) as [ns|]; [|discriminate].
  destruct ((0 <=? size ht) && (size ht <=? Z.of_nat (length (table ht))));
    [|discriminate].
  destruct (fold_left _ _ _) as [nt'|] eqn:E; [|discriminate].
  intros [= <-]. unfold entries at 1. simpl.
  rewrite (rehash_fold_perm _ _ _ _ _ E), (wf_take_entries ht Hwf).
  unfold talloc. rewrite concat_all_nil, app_nil_r; [reflexivity|].
  intros b Hb. apply list_elem_of_In, list_elem_of_lookup in Hb as [j Hj].
  now apply lookup_replicate in Hj as [-> _].
Qed.

Lemma rehash_fields ht ht1 :
  rehash ht = Some ht1 ->
  getsize ht = Some (size ht1) /\ num_entries ht1 = num_entries ht /\
  max_loadfactor ht1 = max_loadfactor ht /\ idx ht1 = idx ht /\
  hash ht1 = hash ht /\ cmp ht1 = cmp ht.
Proof.
  unfold rehash. destruct (getsize ht) as [ns|]; [|discriminate].
  destruct ((0 <=? size ht) && (size ht <=? Z.of_nat (length (table ht))));
    [|discriminate].
  destruct (fold_left _ _ _) as [nt'|]; [|discriminate].
  intros [= <-]. simpl. auto 10.
Qed.

(** The anatomy of a successful insertion: the key is absent from its
    bucket, the table is rehashed exactly when the load factor would exceed
    the maximum, and the new entry heads its chain. *)
Lemma ht_insert_success ht k v ht' :
  ht_insert ht k v = Some (EXIT_SUCCESS, ht') ->
  exists b ht1 chain,
    bucket (table ht) (hash ht k (size ht)) = Some b /\
    chain_search (cmp ht) k b = None /\
    (Qle_bool (current_loadfactor ht) (max_loadfactor ht) = true /\ ht1 = ht
     \/ Qle_bool (current_loadfactor ht) (max_loadfactor ht) = false /\
        rehash ht = Some ht1) /\
    bucket (table ht1) (hash ht1 k (size ht1)) = Some chain /\
    ht' = {| table := <[Z.to_nat (hash ht1 k (size ht1)) :=
                          mkHTentry k v :: chain]> (table ht1);
             size := size ht1;
             num_entries := uint (num_entries ht1 + 1);
             max_loadfactor := max_loadfactor ht1;
             idx := idx ht1;
             hash := hash ht1;
             cmp := cmp ht1 |}.
Proof.
  unfold ht_insert.
  destruct (bucket (table ht) (hash ht k (size ht))) as [b|]; [|discriminate].
  destruct (chain_search (cmp ht) k b) eqn:Ec; [discriminate|].
  destruct (Qle_bool (current_loadfactor ht) (max_loadfactor ht)) eqn:Eq;
    simpl.
  - destruct (bucket (table ht) (hash ht k (size ht))) as [chain|] eqn:Eb;
      [|discriminate].
    intros [= <-]. exists b, ht, chain. auto 10.
  - destruct (rehash ht) as [ht1|] eqn:Er; [|discriminate].
    destruct (bucket (table ht1) (hash ht1 k (size ht1))) as [chain|] eqn:Eb;
      [|discriminate].
    intros [= <-]. exists b, ht1, chain. auto 10.
Qed.

(** The other outcome: the key exists and the table is returned as it
    was. *)
Lemma ht_insert_codes ht k v code ht' :
  ht_insert ht k v = Some (code, ht') ->
  code = EXIT_SUCCESS \/
  code = HASH_TABLE_KEY_VALUE_PAIR_EXISTS /\ ht' = ht /\ present ht k.
Proof.
  unfold ht_insert.
  destruct (bucket (table ht) (hash ht k (size ht))) as [b|] eqn:Eb;
    [|discriminate].
  destruct (chain_search (cmp ht) k b) as [e|] eqn:Ec.
  - intros [= <- <-]. right. split; [reflexivity|]. split; [reflexivity|].
    apply chain_search_Some in Ec as [Hin Hc]. exists e. split; [|assumption].
    apply bucket_Some in Eb as [_ Eb]. unfold entries. apply in_concat.
    exists b. split; [|assumption].
    apply list_elem_of_In, list_elem_of_lookup. eauto.
  - destruct (if negb _ then _ else _) as [ht1|]; [|discriminate].
    destruct (bucket (table ht1) _); [|discriminate].
    intros [= <- _]. now left.
Qed.

Lemma ht_insert_perm ht k v ht' :
  ht_wf ht -> ht_insert ht k v = Some (EXIT_SUCCESS, ht') ->
  Permutation (entries ht') (mkHTentry k v :: entries ht).
Proof.
  intros Hwf H.
  destruct (ht_insert_success _ _ _ _ H)
    as (b & ht1 & chain & _ & _ & Hre & Hc & ->).
  apply bucket_Some in Hc as [_ Hc]. unfold entries at 1. simpl.
  rewrite (concat_insert_cons _ _ _ _ Hc). apply perm_skip.
  destruct Hre as [[_ ->]|[_ Hr]]; [reflexivity|].
  exact (rehash_perm ht ht1 Hwf Hr).
Qed.

(** On a well-formed table a key that its bucket does not hold is in no
    bucket. *)
Lemma absent_everywhere ht k b :
  ht_wf ht ->
  bucket (table ht) (hash ht k (size ht)) = Some b ->
  chain_search (cmp ht) k b = None ->
  forall e, In e (entries ht) -> cmp ht k (key e) <> 0.
Proof.
  intros Hwf Hb Hc. pose proof (ht_search_binding ht k Hwf) as Hs.
  unfold ht_search in Hs. rewrite Hb, Hc in Hs. injection Hs as Hs.
  unfold binding in Hs.
  destruct (chain_search (cmp ht) k (entries ht)) eqn:E; [discriminate|].
  now apply chain_search_None.
Qed.

(** *** Distinct keys *)

Lemma distinct_keys_perm (c : K -> K -> Z) (l l' : list (HTentry K V)) :
  (forall a b, c a b = 0 -> c b a = 0) ->
  Permutation l l' -> distinct_keys c l -> distinct_keys c l'.
Proof.
  intros Hsym Hp. induction Hp as [|x l l' Hp IH|x y l|l l' l'' _ IH1 _ IH2];
    simpl.
  - auto.
  - intros [Hx Hl]. split; [|auto]. intros e' He'. apply Hx.
    now apply (Permutation_in _ (Permutation_sym Hp)).
  - intros [Hy [Hx Hl]]. split; [|split; [|assumption]].
    + intros e' [<-|He']; [|now apply Hx].
      intros H0. apply (Hy x); [now left | now apply Hsym].
    + intros e' He'. apply Hy. now right.
  - auto.
Qed.

(** With distinct keys, the first match does not depend on the order of the
    entries. *)
Lemma chain_search_perm (c : K -> K -> Z) k (l l' : list (HTentry K V)) :
  cmp_equiv c -> Permutation l l' -> distinct_keys c l ->
  chain_search c k l = chain_search c k l'.
Proof.
  intros (Hrefl & Hsym & Htrans) Hp.
  induction Hp as [|x l l' Hp IH|x y l|l l' l'' Hp1 IH1 Hp2 IH2]; simpl.
  - reflexivity.
  - intros [_ Hl]. destruct (c k (key x) =? 0); [reflexivity | auto].
  - intros [Hy _].
    destruct (c k (key y) =? 0) eqn:Ey, (c k (key x) =? 0) eqn:Ex;
      try reflexivity.
    apply Z.eqb_eq in Ey, Ex. exfalso. apply (Hy x); [now left|].
    apply (Htrans _ k); [now apply Hsym | assumption].
  - intros Hl. rewrite IH1 by assumption. apply IH2.
    exact (distinct_keys_perm c _ _ Hsym Hp1 Hl).
Qed.

(** [ht_insert] keeps the keys distinct. *)
Lemma ht_insert_distinct ht k v code ht' :
  ht_wf ht -> (forall a b, cmp ht a b = 0 -> cmp ht b a = 0) ->
  ht_insert ht k v = Some (code, ht') ->
  distinct_keys (cmp ht) (entries ht) ->
  distinct_keys (cmp ht) (entries ht').
Proof.
  intros Hwf Hsym H Hd.
  destruct (ht_insert_codes _ _ _ _ _ H) as [->|(_ & -> & _)];
    [|assumption].
  pose proof (ht_insert_perm _ _ _ _ Hwf H) as Hp.
  apply (distinct_keys_perm _ _ _ Hsym (Permutation_sym Hp)). simpl.
  split; [|assumption].
  destruct (ht_insert_success _ _ _ _ H) as (b & _ & _ & Hb & Hc & _).
  exact (absent_everywhere ht k b Hwf Hb Hc).
Qed.

Lemma ht_insert_cmp ht k v code ht' :
  ht_insert ht k v = Some (code, ht') ->
  cmp ht' = cmp ht /\ hash ht' = hash ht /\
  max_loadfactor ht' = max_loadfactor ht.
Proof.
  intros H. destruct (ht_insert_codes _ _ _ _ _ H) as [->|(_ & -> & _)];
    [|auto].
  destruct (ht_insert_success _ _ _ _ H)
    as (b & ht1 & chain & _ & _ & Hre & _ & ->). simpl.
  destruct Hre as [[_ ->]|[_ Hr]]; [auto|].
  destruct (rehash_fields _ _ Hr) as (_ & _ & -> & _ & -> & ->). auto.
Qed.

End WithTypes.
End HashtablePermutation.

Module HashtableLoad.
Import Hashtable HashtableSpec HashtableKeys HashtableSearch HashtableGetsize.
Import HashtableInvariant HashtablePermutation.
Local Open Scope Z_scope.

(** A quotient of integers against a rational bound, cross-multiplied. *)
Lemma quotient_le (n s : Z) (q : Q) :
  0 < s ->
  (inject_Z n / inject_Z s <= q)%Q <-> n * Zpos (Qden q) <= Qnum q * s.
Proof.
  intros Hs. destruct s as [|p|p]; try lia. destruct q as [a b].
  unfold Qle, Qdiv, Qmult, Qinv, inject_Z. simpl. lia.
Qed.

Lemma uint_range (x : Z) : 0 <= uint x < 2 ^ 32.
Proof. unfold uint. apply Z.mod_pos_bound. lia. Qed.

Lemma uint_le (x : Z) : 0 <= x -> uint x <= x.
Proof. intros H. unfold uint. apply Z.mod_le; lia. Qed.

Lemma uint_succ (x : Z) : uint (uint x + 1) = uint (x + 1).
Proof. unfold uint. now rewrite Zplus_mod_idemp_l. Qed.

Section WithTypes.
Context {K V : Type}.
Implicit Types (ht : HashTab K V) (k : K) (v : V) (e : HTentry K V).

(** [getsize] returns more than the current size, and less than four times
    as much. *)
Lemma getsize_bounds ht ns :
  getsize ht = Some ns -> 2 <= size ht ->
  size ht + 2 <= ns < 4 * size ht.
Proof.
  intros Hg Hs.
  destruct (getsize_spec ht ns Hg) as (p & d & Hp & Hle & Hmin & Hd & -> & _).
  pose proof delta_bounds as Hb. rewrite List.Forall_forall in Hb.
  assert (0 <= d <= 57) as Hd57.
  { apply Hb. apply list_elem_of_In, list_elem_of_lookup. eauto. }
  assert (2 ^ (p + 1) = 2 * 2 ^ p) as Hpow
    by (rewrite Z.pow_add_r by lia; lia).
  assert (2 ^ p = 2 * 2 ^ (p - 1)) as Hpow'.
  { replace p with (p - 1 + 1) at 1 by lia. rewrite Z.pow_add_r by lia. lia. }
  split.
  - destruct (Z_le_gt_dec 6 p) as [H6|H6].
    + assert (2 ^ 6 <= 2 ^ p) by (apply Z.pow_le_mono_r; lia). lia.
    + assert (p = 2 \/ p = 3 \/ p = 4 \/ p = 5) as Hcases by lia.
      destruct Hcases as [ -> | [ -> | [ -> | -> ] ] ];
        vm_compute in Hd; injection Hd as <-; lia.
  - destruct Hmin as [ -> | Hmin]; [|lia].
    vm_compute in Hd. injection Hd as <-. lia.
Qed.

End WithTypes.
End HashtableLoad.

(** ** Single-precision arithmetic: rounding *)

Module HashtableFloat.
Import Hashtable.
Local Open Scope Z_scope.

(** Rounding to the nearest integer moves a number by at most one half. *)
Lemma round_half_even_error (y : Q) :
  (y - (1 # 2) <= inject_Z (round_half_even y) <= y + (1 # 2))%Q.
Proof.
  unfold round_half_even.
  pose proof (Qfloor_le y) as Hlo. pose proof (Qlt_floor y) as Hhi.
  rewrite inject_Z_plus in Hhi. change (inject_Z 1) with 1%Q in Hhi.
  destruct (y - inject_Z (Qfloor y) ?= 1 # 2)%Q eqn:E.
  - apply Qeq_alt in E.
    destruct (Z.even (Qfloor y));
      [|rewrite inject_Z_plus; change (inject_Z 1) with 1%Q]; lra.
  - apply Qlt_alt in E. lra.
  - apply Qgt_alt in E. rewrite inject_Z_plus.
    change (inject_Z 1) with 1%Q. lra.
Qed.

Lemma round_half_even_Z (y : Q) (k : Z) :
  (y == inject_Z k)%Q -> round_half_even y = k.
Proof.
  intros H. unfold round_half_even.
  assert (Qfloor y = k) as -> by (rewrite H; apply Qfloor_Z).
  assert ((y - inject_Z k ?= 1 # 2)%Q = Lt) as ->; [|reflexivity].
  apply (proj1 (Qlt_alt _ _)). lra.
Qed.

Lemma pow2_pos (e : Z) : (0 < 2 ^ e)%Q.
Proof. apply Qpower_0_lt. reflexivity. Qed.

Lemma pow2_Z (n : Z) : 0 <= n -> (inject_Z (2 ^ n) == 2 ^ n)%Q.
Proof. intros Hn. now rewrite Zpower_Qpower. Qed.

(** The exponent is the one of the binade that holds the number. *)
Lemma binade_spec (x : Q) :
  (0 < x)%Q -> (2 ^ binade x <= x < 2 ^ (binade x + 1))%Q.
Proof.
  intros Hx. destruct x as [p q]. unfold binade. cbn [Qnum Qden].
  assert (0 < p) as Hp by (unfold Qlt in Hx; simpl in Hx; lia).
  set (lp := Z.log2 p). set (lq := Z.log2 (Z.pos q)).
  assert (0 <= lp) as Hlp0 by apply Z.log2_nonneg.
  assert (0 <= lq) as Hlq0 by apply Z.log2_nonneg.
  destruct (Z.log2_spec p Hp) as [Hp1 Hp2]. fold lp in Hp1, Hp2.
  destruct (Z.log2_spec (Z.pos q) ltac:(lia)) as [Hq1 Hq2].
  fold lq in Hq1, Hq2.
  assert (Hx' : (p # q == inject_Z p / inject_Z (Z.pos q))%Q)
    by (rewrite Qmake_Qdiv; reflexivity).
  assert (HP1 : (2 ^ lp <= inject_Z p)%Q)
    by (rewrite <- pow2_Z by lia; now rewrite <- Zle_Qle).
  assert (HP2 : (inject_Z p < 2 ^ (lp + 1))%Q)
    by (rewrite <- pow2_Z by lia; rewrite <- Zlt_Qlt;
        now rewrite <- Z.add_1_r in Hp2).
  assert (HQ1 : (2 ^ lq <= inject_Z (Z.pos q))%Q)
    by (rewrite <- pow2_Z by lia; now rewrite <- Zle_Qle).
  assert (HQ2 : (inject_Z (Z.pos q) < 2 ^ (lq + 1))%Q)
    by (rewrite <- pow2_Z by lia; rewrite <- Zlt_Qlt;
        now rewrite <- Z.add_1_r in Hq2).
  assert (Hq0 : (0 < inject_Z (Z.pos q))%Q) by (rewrite <- (Zlt_Qlt 0); lia).
  assert (H2 : ~ (2 == 0)%Q) by discriminate.
  (* x lies between 2^(lp-lq-1) and 2^(lp-lq+1) *)
  assert (Hlow : (2 ^ (lp - lq - 1) <= p # q)%Q).
  { rewrite Hx'. apply Qle_shift_div_l; [exact Hq0|].
    replace (lp - lq - 1) with (lp - (lq + 1)) by lia.
    rewrite Qpower_minus by exact H2.
    pose proof (pow2_pos (lq + 1)) as Hd. pose proof (pow2_pos lp) as Hn.
    apply Qle_trans with (2 ^ lp / 2 ^ (lq + 1) * 2 ^ (lq + 1))%Q.
    - apply Qmult_le_l; [apply Qlt_shift_div_l; [exact Hd|lra]|].
      now apply Qlt_le_weak.
    - field_simplify; [|lra]. lra. }
  assert (Hhigh : (p # q < 2 ^ (lp - lq + 1))%Q).
  { rewrite Hx'. apply Qlt_shift_div_r; [exact Hq0|].
    replace (lp - lq + 1) with (lp + 1 - lq) by lia.
    rewrite Qpower_minus by exact H2.
    pose proof (pow2_pos lq) as Hd. pose proof (pow2_pos (lp + 1)) as Hn.
    apply Qlt_le_trans with (2 ^ (lp + 1))%Q; [exact HP2|].
    apply Qle_trans with (2 ^ (lp + 1) / 2 ^ lq * 2 ^ lq)%Q.
    - field_simplify; [|lra]. lra.
    - apply Qmult_le_l; [apply Qlt_shift_div_l; [exact Hd|lra]|]. exact HQ1. }
  destruct (Qle_bool (2 ^ (lp - lq)) (p # q)) eqn:E.
  - apply Qle_bool_iff in E. split; assumption.
  - assert (Hlt : (p # q < 2 ^ (lp - lq))%Q).
    { apply Qnot_le_lt. intros H. apply Qle_bool_iff in H. congruence. }
    replace (lp - lq - 1 + 1) with (lp - lq) by lia. split; assumption.
Qed.

(** One rounding changes a number by at most the fraction [2^-24] of it. *)
Lemma binary32_error (x : Q) :
  (0 < x)%Q ->
  (x * (1 - (1 # 16777216)) <= binary32 x
   <= x * (1 + (1 # 16777216)))%Q.
Proof.
  intros Hx. unfold binary32.
  assert (Qle_bool x 0 = false) as ->.
  { destruct (Qle_bool x 0) eqn:E; [|reflexivity].
    apply Qle_bool_iff in E. lra. }
  cbv zeta. destruct (binade_spec x Hx) as [Hlo _].
  set (e := binade x) in *.
  pose proof (pow2_pos (e - 23)) as HP.
  assert (HPe : (2 ^ (e - 23) == 2 ^ e * (1 # 8388608))%Q).
  { rewrite Qpower_minus by discriminate. reflexivity. }
  set (P := (2 ^ (e - 23))%Q) in *. set (E := (2 ^ e)%Q) in *.
  pose proof (round_half_even_error (x / P)) as [Hm1 Hm2].
  set (m := inject_Z (round_half_even (x / P))) in *.
  assert (Hy : (x / P * P == x)%Q) by (field; lra).
  set (y := (x / P)%Q) in *.
  assert (H1 : ((y - (1 # 2)) * P <= m * P)%Q)
    by (apply Qmult_le_compat_r; lra).
  assert (H2 : (m * P <= (y + (1 # 2)) * P)%Q)
    by (apply Qmult_le_compat_r; lra).
  split; lra.
Qed.

(** Integers below [2^24] are binary32 numbers. *)
Lemma binary32_exact (k : Z) :
  0 <= k < 2 ^ 24 -> (binary32 (inject_Z k) == inject_Z k)%Q.
Proof.
  intros Hk. unfold binary32.
  destruct (Qle_bool (inject_Z k) 0) eqn:E0.
  - apply Qle_bool_iff in E0. change 0%Q with (inject_Z 0) in E0.
    rewrite <- Zle_Qle in E0. assert (k = 0) as -> by lia. reflexivity.
  - assert (0 < k) as Hpos.
    { destruct (Z.eq_dec k 0) as [->|]; [discriminate|lia]. }
    assert (Hx : (0 < inject_Z k)%Q)
      by (change 0%Q with (inject_Z 0); rewrite <- Zlt_Qlt; lia).
    cbv zeta. destruct (binade_spec _ Hx) as [Hlo _].
    set (e := binade (inject_Z k)) in *.
    assert (He : e <= 23).
    { assert (H : (2 ^ e < 2 ^ 24)%Q).
      { apply Qle_lt_trans with (inject_Z k); [exact Hlo|].
        rewrite <- pow2_Z by lia. rewrite <- Zlt_Qlt. lia. }
      apply Qpower_lt_compat_l_inv in H; [lia | reflexivity]. }
    pose proof (pow2_pos (e - 23)) as HP.
    assert (Hinv : (2 ^ (e - 23) * inject_Z (2 ^ (23 - e)) == 1)%Q).
    { rewrite pow2_Z by lia. rewrite <- Qpower_plus by discriminate.
      replace (e - 23 + (23 - e)) with 0 by lia. reflexivity. }
    rewrite (round_half_even_Z _ (k * 2 ^ (23 - e))).
    + rewrite inject_Z_mult.
      set (P := (2 ^ (e - 23))%Q) in *.
      set (R := inject_Z (2 ^ (23 - e))) in *.
      transitivity (inject_Z k * (P * R))%Q; [ring | rewrite Hinv; ring].
    + rewrite inject_Z_mult.
      set (P := (2 ^ (e - 23))%Q) in *.
      set (R := inject_Z (2 ^ (23 - e))) in *.
      apply Qmult_inj_r with P; [lra|].
      transitivity (inject_Z k); [field; lra|].
      transitivity (inject_Z k * (P * R))%Q; [rewrite Hinv; ring | ring].
Qed.

Lemma inject_Z_pos (k : Z) : 0 < k -> (0 < inject_Z k)%Q.
Proof. intros H. change 0%Q with (inject_Z 0). now rewrite <- Zlt_Qlt. Qed.

Lemma binary32_zero (x : Q) : (x == 0)%Q -> binary32 x = 0%Q.
Proof.
  intros H. unfold binary32.
  assert (Qle_bool x 0 = true) as -> by (apply Qle_bool_iff; lra).
  reflexivity.
Qed.

(** A quotient that the float comparison finds above [0.75] is above
    [2/3]. *)
Lemma float_div_above (a s : Z) :
  0 < s -> 0 <= a ->
  (3 # 4 < float_div (float_of_uint a) (float_of_uint s))%Q ->
  2 * s < 3 * a.
Proof.
  intros Hs Ha HT. unfold float_div, float_of_uint in HT.
  destruct (Z.eq_dec a 0) as [->|Hne].
  { rewrite binary32_zero in HT; [lra|].
    rewrite (binary32_zero (inject_Z 0)) by reflexivity.
    unfold Qdiv. ring. }
  destruct (Z.lt_ge_cases (2 * s) (3 * a)) as [|Hle]; [assumption|exfalso].
  pose proof (inject_Z_pos a ltac:(lia)) as Hqa.
  pose proof (inject_Z_pos s Hs) as Hqs.
  assert (Hq : (3 * inject_Z a <= 2 * inject_Z s)%Q).
  { change 3%Q with (inject_Z 3). change 2%Q with (inject_Z 2).
    rewrite <- !inject_Z_mult, <- Zle_Qle. exact Hle. }
  pose proof (binary32_error _ Hqa) as [HA1 HA2].
  pose proof (binary32_error _ Hqs) as [HS1 HS2].
  set (A := binary32 (inject_Z a)) in *.
  set (S := binary32 (inject_Z s)) in *.
  assert (HS : (0 < S)%Q) by lra.
  assert (HA : (0 < A)%Q) by lra.
  assert (Hx1 : (0 < A / S)%Q) by (apply Qlt_shift_div_l; lra).
  assert (Hx2 : (A / S <= 7 # 10)%Q) by (apply Qle_shift_div_r; lra).
  pose proof (binary32_error _ Hx1) as [_ HB]. lra.
Qed.

(** Below [2^22] slots the float comparison with [0.75] finds every load
    above three quarters. *)
Lemma float_div_exceeds (a s : Z) :
  0 < s <= 2 ^ 22 -> 0 <= a -> 3 * s < 4 * a ->
  (3 # 4 < float_div (float_of_uint a) (float_of_uint s))%Q.
Proof.
  intros Hs Ha Hload. unfold float_div, float_of_uint.
  pose proof (inject_Z_pos a ltac:(lia)) as Hqa.
  pose proof (inject_Z_pos s ltac:(lia)) as Hqs.
  assert (Hs22 : (inject_Z s <= 4194304)%Q).
  { change 4194304%Q with (inject_Z (2 ^ 22)). rewrite <- Zle_Qle. lia. }
  assert (Hq : (3 * inject_Z s + 1 <= 4 * inject_Z a)%Q).
  { change 3%Q with (inject_Z 3). change 4%Q with (inject_Z 4).
    change 1%Q with (inject_Z 1).
    rewrite <- !inject_Z_mult, <- inject_Z_plus, <- Zle_Qle. lia. }
  pose proof (binary32_exact s ltac:(lia)) as HS.
  pose proof (binary32_error _ Hqa) as [HA1 _].
  set (S := binary32 (inject_Z s)) in *.
  assert (HA : (0 < binary32 (inject_Z a) /\
                (3 # 4) * inject_Z s + (1 # 4) <= binary32 (inject_Z a))%Q).
  { destruct (Z.lt_ge_cases a (2 ^ 24)) as [Hsmall|Hbig].
    - rewrite (binary32_exact a) by lia. lra.
    - assert (16777216 <= inject_Z a)%Q.
      { change 16777216%Q with (inject_Z (2 ^ 24)). now rewrite <- Zle_Qle. }
      lra. }
  set (A := binary32 (inject_Z a)) in *. destruct HA as [HA0 HA].
  assert (HS0 : (0 < S)%Q) by lra.
  assert (Hx1 : (0 < A / S)%Q) by (apply Qlt_shift_div_l; lra).
  assert (Hx2 : ((3 # 4) + (1 # 16777216) <= A / S)%Q).
  { apply Qle_shift_div_l; [exact HS0|]. rewrite HS. lra. }
  pose proof (binary32_error _ Hx1) as [HB _]. lra.
Qed.

End HashtableFloat.

Module HashtableTotal.
Import Hashtable HashtableSpec HashtableKeys HashtableSearch HashtableGetsize.
Import HashtableInvariant HashtablePermutation HashtableLoad HashtableFloat.
Local Open Scope Z_scope.

Section WithTypes.
Context {K V : Type}.
Implicit Types (ht : HashTab K V) (k : K) (v : V) (e : HTentry K V).

(** [ht_insert] does not fault on a well-formed table whose capacity
    [getsize] can enlarge. *)
Lemma ht_insert_total ht k v :
  ht_wf ht -> size ht <= 2 ^ 29 ->
  exists code ht', ht_insert ht k v = Some (code, ht').
Proof.
  intros Hwf Hsz. destruct (wf_bucket_exists ht k Hwf) as (b & Hb & _).
  unfold ht_insert. rewrite Hb.
  destruct (chain_search (cmp ht) k b); [eauto|].
  destruct (negb (Qle_bool (current_loadfactor ht) (max_loadfactor ht))).
  - destruct (getsize_total ht Hsz) as [ns Hg].
    destruct (rehash_wf ht ns Hwf Hg) as (ht1 & -> & Hwf1 & _).
    destruct (wf_bucket_exists ht1 k Hwf1) as (c & -> & _). eauto.
  - rewrite Hb. eauto.
Qed.

(** The binding of the key that a successful insertion stored. *)
Lemma ht_insert_binding_same ht k v ht' :
  ht_wf ht -> cmp ht k k = 0 ->
  ht_insert ht k v = Some (EXIT_SUCCESS, ht') ->
  binding ht' k = Some v.
Proof.
  intros Hwf Hrefl H.
  pose proof (ht_insert_wf _ _ _ _ _ Hwf H) as Hwf'.
  pose proof (ht_search_binding ht' k Hwf') as Hs.
  destruct (ht_insert_success _ _ _ _ H)
    as (b & ht1 & chain & _ & _ & Hre & Hc & ->).
  assert (cmp ht1 = cmp ht) as Hcmp.
  { destruct Hre as [[_ ->]|[_ Hr]]; [reflexivity|].
    now destruct (rehash_fields _ _ Hr) as (_ & _ & _ & _ & _ & ->). }
  apply bucket_Some in Hc as [Hpos Hc].
  unfold ht_search in Hs. simpl in Hs. rewrite bucket_lookup in Hs
    by assumption.
  rewrite list_lookup_insert_eq in Hs
    by (apply lookup_lt_Some in Hc; exact Hc).
  simpl in Hs. rewrite Hcmp, Hrefl in Hs. simpl in Hs. congruence.
Qed.

(** The bindings of the other keys across an insertion. *)
Lemma ht_insert_binding_other ht k v code ht' k' :
  ht_wf ht -> cmp_equiv (cmp ht) -> distinct_keys (cmp ht) (entries ht) ->
  ht_insert ht k v = Some (code, ht') -> cmp ht k' k <> 0 ->
  binding ht' k' = binding ht k'.
Proof.
  intros Hwf Heq Hd H Hne.
  destruct (ht_insert_codes _ _ _ _ _ H) as [->|(_ & -> & _)];
    [|reflexivity].
  destruct (ht_insert_cmp _ _ _ _ _ H) as (Hcmp & _ & _).
  unfold binding. rewrite Hcmp. f_equal.
  pose proof (ht_insert_perm _ _ _ _ Hwf H) as Hp.
  rewrite <- (chain_search_perm (cmp ht) k' _ _ Heq (Permutation_sym Hp)).
  - simpl. destruct (cmp ht k' k =? 0) eqn:E; [|reflexivity].
    apply Z.eqb_eq in E. contradiction.
  - simpl. split; [|assumption].
    destruct (ht_insert_success _ _ _ _ H) as (b & _ & _ & Hb & Hc & _).
    exact (absent_everywhere ht k b Hwf Hb Hc).
Qed.

(** A key is bound exactly when it is present. *)
Lemma binding_present ht k :
  binding ht k <> None <-> present ht k.
Proof.
  unfold binding. split.
  - destruct (chain_search (cmp ht) k (entries ht)) as [e|] eqn:E;
      [|intros H; now destruct H].
    intros _. apply chain_search_Some in E as [Hin Hc]. now exists e.
  - intros (e & Hin & Hc).
    destruct (chain_search (cmp ht) k (entries ht)) as [e'|] eqn:E;
      [discriminate|].
    rewrite chain_search_None in E. now destruct (E e Hin).
Qed.

(** With the maximal load factor [0.75], the capacity stays in proportion to
    the number of entries: a rehash happens only above a load of two
    thirds, whatever the rounding of the [float] quotient. *)
Lemma ht_insert_size ht k v ht' :
  ht_wf ht -> max_loadfactor ht = 3 # 4 ->
  0 <= num_entries ht < 2 ^ 32 - 1 -> 13 <= size ht ->
  size ht = 13 \/ size ht < 6 * num_entries ht ->
  ht_insert ht k v = Some (EXIT_SUCCESS, ht') ->
  num_entries ht' = num_entries ht + 1 /\ 13 <= size ht' /\
  (size ht' = 13 \/ size ht' < 6 * num_entries ht').
Proof.
  intros Hwf Hlf Hn H2 Hsz H.
  destruct (ht_insert_success _ _ _ _ H)
    as (b & ht1 & chain & _ & _ & Hre & _ & ->). simpl.
  assert (uint (num_entries ht + 1) = num_entries ht + 1) as Hu
    by (unfold uint; apply Z.mod_small; lia).
  destruct Hre as [[_ ->]|[Hq Hr]].
  - rewrite Hu. split; [reflexivity | lia].
  - destruct (rehash_fields _ _ Hr) as (Hg & -> & _). rewrite Hu.
    pose proof (getsize_bounds ht _ Hg ltac:(lia)) as Hgrow.
    split; [reflexivity|]. split; [lia|]. right.
    assert (2 * size ht < 3 * uint (num_entries ht + 1)) as Hover.
    { apply float_div_above; [lia | rewrite Hu; lia |].
      apply Qnot_le_lt. intros Hle. apply Qle_bool_iff in Hle.
      unfold current_loadfactor in Hq. rewrite Hlf in Hq. congruence. }
    rewrite Hu in Hover. lia.
Qed.

End WithTypes.
End HashtableTotal.

Module SymboltableStrings.
Import Hashtable HashtableSpec HashtableKeys HashtableSearch HashtableInvariant.
Import HashtablePermutation.
Import Symboltable SymboltableSpec SymboltableSamples SymboltableHash.
Local Open Scope Z_scope.

(** [strcmp] answers "equal" exactly for strings that agree up to their
    first NUL. *)
Lemma strcmp_c_string (a b : string) :
  strcmp a b = 0 <-> c_string a = c_string b.
Proof.
  revert b. induction a as [|c a IH]; intros [|c' b]; simpl.
  - tauto.
  - destruct (N_of_ascii c' =? 0)%N; split; try reflexivity; try discriminate.
  - destruct (N_of_ascii c =? 0)%N; split; try reflexivity; try discriminate.
  - destruct (N.compare_spec (N_of_ascii c) (N_of_ascii c')) as [He|Hl|Hg].
    + assert (c = c') as <-.
      { rewrite <- (ascii_N_embedding c), <- (ascii_N_embedding c').
        now f_equal. }
      destruct (N_of_ascii c =? 0)%N; [tauto|].
      rewrite IH. split; [now intros -> | now intros [= ->]].
    + split; [discriminate|].
      destruct (N.eqb_spec (N_of_ascii c) 0) as [E0|E0],
               (N.eqb_spec (N_of_ascii c') 0) as [E0'|E0'];
        try discriminate; try lia.
      intros [= -> _]. lia.
    + split; [discriminate|].
      destruct (N.eqb_spec (N_of_ascii c) 0) as [E0|E0],
               (N.eqb_spec (N_of_ascii c') 0) as [E0'|E0'];
        try discriminate; try lia.
      intros [= -> _]. lia.
Qed.

(** [key_strcmp] is an equivalence on the keys. *)
Lemma key_strcmp_equiv : cmp_equiv key_strcmp.
Proof.
  unfold cmp_equiv, key_strcmp. split; [|split].
  - intros a. now apply strcmp_c_string.
  - intros a b H. apply strcmp_c_string. symmetry. now apply strcmp_c_string.
  - intros a b d H1 H2. apply strcmp_c_string.
    apply strcmp_c_string in H1, H2. congruence.
Qed.

Lemma insert_keys_built (ks : list string) :
  forall ht, built ht -> built (insert_keys ks ht).
Proof.
  induction ks as [|k ks IH]; intros ht Hb; simpl; [assumption|].
  destruct (Hashtable.ht_insert ht k 0%nat) as [[code ht']|] eqn:E;
    [|assumption].
  apply IH. exact (built_insert ht k 0%nat code ht' Hb E).
Qed.

Lemma insert_keys_cmp (ks : list string) :
  forall ht, cmp (insert_keys ks ht) = cmp ht.
Proof.
  induction ks as [|k ks IH]; intros ht; simpl; [reflexivity|].
  destruct (Hashtable.ht_insert ht k 0%nat) as [[code ht']|] eqn:E;
    [|reflexivity].
  rewrite IH. now destruct (ht_insert_cmp _ _ _ _ _ E) as (-> & _).
Qed.

Lemma insert_keys_distinct (ks : list string) :
  forall ht, built ht -> cmp ht = key_strcmp ->
    distinct_keys key_strcmp (entries ht) ->
    distinct_keys key_strcmp (entries (insert_keys ks ht)).
Proof.
  induction ks as [|k ks IH]; intros ht Hb Hc Hd; simpl; [assumption|].
  destruct (Hashtable.ht_insert ht k 0%nat) as [[code ht']|] eqn:E;
    [|assumption].
  destruct (ht_insert_cmp _ _ _ _ _ E) as (Hc' & _ & _).
  apply IH.
  - exact (built_insert ht k 0%nat code ht' Hb E).
  - congruence.
  - rewrite <- Hc.
    apply (ht_insert_distinct ht k 0%nat code ht' (built_wf ht Hb));
      [ rewrite Hc; apply key_strcmp_equiv | assumption | now rewrite Hc ].
Qed.

(** The insertion of one key, read off its return code. *)
Lemma insert_keys_one (ht : HashTab string ptr) (k : string) code :
  option_map fst (Hashtable.ht_insert ht k 0%nat) = Some code ->
  Hashtable.ht_insert ht k 0%nat = Some (code, insert_keys [k] ht).
Proof.
  simpl. destruct (Hashtable.ht_insert ht k 0%nat) as [[c h]|]; simpl;
    congruence.
Qed.

Lemma nine_names_built : built nine_names.
Proof. apply insert_keys_built. exact new_table_built. Qed.

Lemma ten_names_built : built ten_names.
Proof. apply insert_keys_built. exact nine_names_built. Qed.

Lemma nine_names_cmp : cmp nine_names = key_strcmp.
Proof. unfold nine_names. now rewrite insert_keys_cmp. Qed.

Lemma ten_names_cmp : cmp ten_names = key_strcmp.
Proof. unfold ten_names. rewrite insert_keys_cmp. exact nine_names_cmp. Qed.

Lemma nine_names_distinct :
  distinct_keys (cmp nine_names) (entries nine_names).
Proof.
  rewrite nine_names_cmp. apply insert_keys_distinct;
    [exact new_table_built | reflexivity | exact I].
Qed.

Lemma nine_names_equiv : cmp_equiv (cmp nine_names).
Proof. rewrite nine_names_cmp. exact key_strcmp_equiv. Qed.

Lemma tenth_name_inserted :
  Hashtable.ht_insert nine_names "j"%string 0%nat
  = Some (EXIT_SUCCESS, ten_names).
Proof. apply insert_keys_one. vm_compute. reflexivity. Qed.

End SymboltableStrings.

Module SymboltableHashBits.
Import Hashtable Symboltable SymboltableSpec SymboltableSamples.
Import SymboltableHash.
Local Open Scope Z_scope.

Lemma uint_testbit (x i : Z) :
  0 <= i -> Z.testbit (uint x) i = (i <? 32) && Z.testbit x i.
Proof.
  intros Hi. unfold uint. destruct (i <? 32) eqn:E.
  - apply Z.ltb_lt in E. now rewrite Z.mod_pow2_bits_low by lia.
  - apply Z.ltb_ge in E. now rewrite Z.mod_pow2_bits_high by lia.
Qed.

Lemma hash_step_high (h u : Z) :
  high_zero (Z.lxor (uint (Z.shiftl h 5)) (uint u)).
Proof.
  intros i Hi. rewrite Z.lxor_spec, !uint_testbit by lia.
  assert ((i <? 32) = false) as -> by (apply Z.ltb_ge; lia). reflexivity.
Qed.

Lemma hash_step_agree (k h1 h2 u : Z) :
  0 <= k -> agree_low k h1 h2 ->
  agree_low (k + 5) (Z.lxor (uint (Z.shiftl h1 5)) (uint u))
                    (Z.lxor (uint (Z.shiftl h2 5)) (uint u)).
Proof.
  intros Hk H i Hi. rewrite !Z.lxor_spec, !uint_testbit by lia.
  rewrite !Z.shiftl_spec by lia.
  assert (Z.testbit h1 (i - 5) = Z.testbit h2 (i - 5)) as ->;
    [|reflexivity].
  destruct (Z_lt_ge_dec (i - 5) 0) as [Hneg|Hpos].
  - now rewrite !Z.testbit_neg_r by lia.
  - apply H. lia.
Qed.

Lemma shift_hash_loop_agree (s : string) :
  no_nul s = true ->
  forall k h1 h2,
    0 <= k -> agree_low k h1 h2 -> high_zero h1 -> high_zero h2 ->
    agree_low (k + 5 * Z.of_nat (String.length s))
      (shift_hash_loop s h1) (shift_hash_loop s h2) /\
    high_zero (shift_hash_loop s h1) /\ high_zero (shift_hash_loop s h2).
Proof.
  induction s as [|c s IH]; intros Hn k h1 h2 Hk Ha H1 H2;
    cbn [String.length shift_hash_loop no_nul] in *.
  - replace (k + 5 * Z.of_nat 0) with k by lia. auto.
  - apply andb_true_iff in Hn as [Hc Hs]. rewrite char_val_zero.
    apply negb_true_iff in Hc. rewrite Hc.
    replace (k + 5 * Z.of_nat (S (String.length s)))
      with (k + 5 + 5 * Z.of_nat (String.length s)) by lia.
    apply IH; [assumption | lia | now apply hash_step_agree
              | apply hash_step_high | apply hash_step_high].
Qed.

Lemma shift_hash_loop_app (p s : string) (h : Z) :
  no_nul p = true ->
  shift_hash_loop (p ++ s) h = shift_hash_loop s (shift_hash_loop p h).
Proof.
  revert h. induction p as [|c p IH]; simpl; intros h Hn; [reflexivity|].
  apply andb_true_iff in Hn as [Hc Hp]. rewrite char_val_zero.
  apply negb_true_iff in Hc. rewrite Hc. now apply IH.
Qed.

Lemma shift_hash_loop_high (p : string) (h : Z) :
  high_zero h -> high_zero (shift_hash_loop p h).
Proof.
  revert h. induction p as [|c p IH]; simpl; intros h Hh; [assumption|].
  destruct (char_val c =? 0); [assumption|]. apply IH, hash_step_high.
Qed.

(** After seven characters nothing is left of what came before. *)
Lemma shift_hash_loop_forgets (s : string) (h1 h2 : Z) :
  no_nul s = true -> (7 <= String.length s)%nat ->
  high_zero h1 -> high_zero h2 ->
  shift_hash_loop s h1 = shift_hash_loop s h2.
Proof.
  intros Hn Hlen H1 H2.
  destruct (shift_hash_loop_agree s Hn 0 h1 h2 ltac:(lia)) as (Ha & Hh1 & Hh2);
    [intros i Hi; lia | assumption | assumption |].
  apply Z.bits_inj'. intros i Hi.
  destruct (Z_lt_ge_dec i 32) as [Hlow|Hhigh].
  - apply Ha. lia.
  - now rewrite Hh1, Hh2 by lia.
Qed.

End SymboltableHashBits.

Module SymboltableSafety.
Import Hashtable HashtableSpec HashtableKeys HashtableSearch HashtableGetsize.
Import HashtableInvariant HashtableEntries HashtablePermutation HashtableLoad.
Import HashtableTotal.
Import Symboltable SymboltableSpec SymboltableSamples SymboltableScopes.
Import SymboltableHash SymboltableSteps SymboltableInvariant.
Import SymboltableStrings.
Local Open Scope Z_scope.

Lemma table_ok_init :
  table_ok (ht_init (V:=ptr) loadfactor_075 shift_hash key_strcmp).
Proof.
  constructor.
  - exact (built_wf _ new_table_built).
  - reflexivity.
  - reflexivity.
  - exact I.
  - reflexivity.
  - simpl. lia.
Qed.

Lemma binding_None_absent (h : HashTab string ptr) (k : string) :
  (forall e, In e (entries h) -> cmp h k (key e) <> 0) -> binding h k = None.
Proof.
  intros H. unfold binding.
  now rewrite (proj2 (chain_search_None (cmp h) k (entries h)) H).
Qed.

(** An insertion into a table of the symbol table that holds fewer than
    [2^26] names: it does not fault, the table stays a table of the symbol
    table, and the name is added exactly when it was not bound. *)
Lemma table_ok_insert (h : HashTab string ptr) (k : string) (v : ptr) :
  table_ok h -> num_entries h < 2 ^ 26 ->
  exists code h',
    Hashtable.ht_insert h k v = Some (code, h') /\ table_ok h' /\
    (code = EXIT_SUCCESS /\ binding h k = None /\ binding h' k = Some v /\
     Permutation (entries h') (mkHTentry k v :: entries h)
     \/ code = HASH_TABLE_KEY_VALUE_PAIR_EXISTS /\ h' = h /\
        binding h k <> None).
Proof.
  intros [Hwf Hcmp Hlf Hd Hcount [H13 Hsize]] Hn.
  assert (0 <= num_entries h) as Hn0 by lia.
  assert (size h <= 2 ^ 29) as Hs29 by lia.
  destruct (ht_insert_total h k v Hwf Hs29) as (code & h' & Hi).
  exists code, h'. split; [exact Hi|].
  destruct (ht_insert_codes _ _ _ _ _ Hi) as [->|(-> & -> & Hp)].
  - pose proof (ht_insert_perm _ _ _ _ Hwf Hi) as Hperm.
    destruct (ht_insert_cmp _ _ _ _ _ Hi) as (Hcmp' & _ & Hlf').
    destruct (ht_insert_size h k v h' Hwf Hlf ltac:(lia) H13 Hsize Hi)
      as (Hn' & H13' & Hsize').
    assert (binding h k = None) as Habs.
    { destruct (ht_insert_success _ _ _ _ Hi) as (b & _ & _ & Hb & Hc & _).
      apply binding_None_absent.
      exact (absent_everywhere h k b Hwf Hb Hc). }
    split.
    + constructor.
      * exact (ht_insert_wf _ _ _ _ _ Hwf Hi).
      * congruence.
      * congruence.
      * rewrite <- Hcmp.
        apply (ht_insert_distinct h k v EXIT_SUCCESS h' Hwf);
          [ rewrite Hcmp; apply key_strcmp_equiv | assumption
          | now rewrite Hcmp ].
      * rewrite Hn', (Permutation_length Hperm), Hcount. simpl length. lia.
      * auto.
    + left. split; [reflexivity|]. split; [assumption|].
      split; [|assumption].
      apply (ht_insert_binding_same h k v h' Hwf); [|assumption].
      rewrite Hcmp. apply strcmp_refl.
  - split; [now constructor|]. right. split; [reflexivity|].
    split; [reflexivity|]. now apply binding_present.
Qed.

(** *** The bound records *)

Lemma scope_values_tabs (s s' : SymTab) (t : option ptr) :
  tabs s' = tabs s -> scope_values s' t = scope_values s t.
Proof. intros H. unfold scope_values. now rewrite H. Qed.

Lemma bound_records_tabs (s s' : SymTab) :
  tabs s' = tabs s -> table s' = table s -> saved_table s' = saved_table s ->
  bound_records s' = bound_records s.
Proof.
  intros Ht Hc Hs. unfold bound_records.
  rewrite Hc, Hs, !(scope_values_tabs s s') by assumption. reflexivity.
Qed.

Lemma scope_values_current (s : SymTab) (p : ptr) :
  In p (scope_values s (table s)) -> In p (bound_records s).
Proof. intros H. unfold bound_records. apply in_or_app. now left. Qed.

Lemma scope_values_saved (s : SymTab) (p : ptr) :
  In p (scope_values s (saved_table s)) -> In p (bound_records s).
Proof.
  intros H. unfold bound_records. apply in_or_app.
  destruct (decide (saved_table s = table s)) as [E|E].
  - left. now rewrite <- E.
  - now right.
Qed.

(** The invariant of this development implies the one of the scope rule. *)
Lemma sym_inv_ok (s : SymTab) : sym_inv s -> sym_ok s.
Proof.
  intros [_ Hc Hs _ Hl]. split; intros q Hq.
  - destruct (Hc q Hq) as (h & Hh & Hok). exists h.
    split; [assumption|]. split; [apply Hok|]. intros e He.
    destruct (Hl (value e)) as (r & Hr & _); [|now exists r].
    apply scope_values_current. rewrite Hq. simpl. rewrite Hh.
    now apply in_map.
  - destruct (Hs q Hq) as (h & Hh & Hok). exists h.
    split; [assumption|]. split; [apply Hok|]. intros e He.
    destruct (Hl (value e)) as (r & Hr & _); [|now exists r].
    apply scope_values_saved. rewrite Hq. simpl. rewrite Hh.
    now apply in_map.
Qed.

Lemma deref_lt {A : Type} (heap : list (option A)) (p : ptr) (a : A) :
  deref heap p = Some a -> (p < length heap)%nat.
Proof.
  unfold deref. destruct (heap !! p) as [o|] eqn:E; [|discriminate].
  intros _. now apply lookup_lt_Some in E.
Qed.

(** No table holds more entries than there are records. *)
Lemma entries_le_records (s : SymTab) (h : HashTab string ptr) :
  sym_inv s -> (exists t, table s = Some t /\ deref (tabs s) t = Some h) ->
  (length (entries h) <= length (recs s))%nat.
Proof.
  intros [_ _ _ Hnd Hl] (t & Ht & Hh).
  assert (scope_values s (table s) = map value (entries h)) as Hv
    by (rewrite Ht; simpl; now rewrite Hh).
  assert (length (scope_values s (table s))
          <= length (seq 0 (length (recs s))))%nat as Hle.
  { apply List.NoDup_incl_length.
    - unfold bound_records in Hnd. apply NoDup_app in Hnd as (Hnd & _).
      now apply NoDup_ListNoDup.
    - intros p Hp. apply in_seq. split; [lia|]. simpl.
      destruct (Hl p (scope_values_current s p Hp)) as (r & Hr & _).
      exact (deref_lt _ _ _ Hr). }
  now rewrite Hv, length_map, length_seq in Hle.
Qed.

Lemma fresh_not_length (s : SymTab) (p : ptr) :
  sym_inv s -> In p (bound_records s) -> p <> length (recs s).
Proof.
  intros [_ _ _ _ Hl] Hp. destruct (Hl p Hp) as (r & Hr & _).
  apply deref_lt in Hr. lia.
Qed.

(** The state after the table [t] of the current scope took one more
    entry. *)
Lemma sym_inv_tabs_update (s s' : SymTab) (t : ptr)
    (h h' : HashTab string ptr) (prop : ptr) :
  sym_inv s -> table s = Some t -> deref (tabs s) t = Some h ->
  tabs s' = <[t := Some h']> (tabs s) -> recs s' = recs s ->
  table s' = table s -> saved_table s' = saved_table s ->
  table_ok h' ->
  Permutation (map value (entries h')) (prop :: map value (entries h)) ->
  fresh_record s prop ->
  sym_inv s' /\ Permutation (bound_records s') (prop :: bound_records s).
Proof.
  intros [Ht Hc Hs Hnd Hl] Et Eh Etabs Erecs Etable Esaved Hok Hperm
    [Hfresh (r & Hr & Hrok)].
  assert (deref (tabs s') t = Some h') as Eh'.
  { rewrite Etabs. exact (deref_insert_eq _ _ h h' Eh). }
  assert (forall q, q <> t -> deref (tabs s') q = deref (tabs s) q) as Hother.
  { intros q Hq. rewrite Etabs. apply deref_insert_ne. congruence. }
  assert (Permutation (bound_records s') (prop :: bound_records s)) as Hb.
  { unfold bound_records. rewrite Etable, Esaved, Et. simpl.
    rewrite Eh', Eh. rewrite Hperm. simpl. apply perm_skip.
    apply Permutation_app_head.
    destruct (decide (saved_table s = Some t)) as [E|E]; [reflexivity|].
    unfold scope_values. destruct (saved_table s) as [g|]; [|reflexivity].
    rewrite Hother by congruence. reflexivity. }
  split; [|exact Hb]. constructor.
  - congruence.
  - rewrite Etable, Et. intros q [= <-]. eauto.
  - rewrite Esaved. intros q Hq. destruct (decide (q = t)) as [->|Hne].
    + eauto.
    + rewrite Hother by assumption. now apply Hs.
  - rewrite Hb. apply NoDup_cons. split; [|assumption].
    now rewrite list_elem_of_In.
  - intros p Hp. rewrite Erecs.
    apply (Permutation_in _ Hb) in Hp as [<-|Hp]; [eauto | now apply Hl].
Qed.

(** The state after a record was overwritten by one of the same kind. *)
Lemma sym_inv_recs_update (s s' : SymTab) (p : ptr) (r r' : IDPropt) :
  sym_inv s -> tabs s' = tabs s -> table s' = table s ->
  saved_table s' = saved_table s ->
  deref (recs s) p = Some r -> recs s' = <[p := Some r']> (recs s) ->
  record_ok r' ->
  sym_inv s' /\ bound_records s' = bound_records s.
Proof.
  intros [Ht Hc Hs Hnd Hl] Etabs Etable Esaved Hr Erecs Hrok.
  pose proof (bound_records_tabs s s' Etabs Etable Esaved) as Hb.
  split; [|exact Hb]. constructor.
  - congruence.
  - rewrite Etable. intros q Hq. rewrite Etabs. now apply Hc.
  - rewrite Esaved. intros q Hq. rewrite Etabs. now apply Hs.
  - now rewrite Hb.
  - rewrite Hb. intros q Hq. rewrite Erecs.
    destruct (decide (p = q)) as [<-|Hne].
    + exists r'. split; [exact (deref_insert_eq _ _ r r' Hr) | assumption].
    + rewrite deref_insert_ne by assumption. now apply Hl.
Qed.

Lemma state_eta (s : SymTab) :
  {| tabs := tabs s; recs := recs s; table := table s;
     saved_table := saved_table s; curr_offset := curr_offset s;
     saved_offset := saved_offset s |} = s.
Proof. now destruct s. Qed.

Lemma deref_insert_same {A : Type} (heap : list (option A)) (p : ptr) (a : A) :
  deref heap p = Some a -> <[p := Some a]> heap = heap.
Proof.
  unfold deref. destruct (heap !! p) as [[b|]|] eqn:E; try discriminate.
  intros [= ->]. now apply list_insert_id.
Qed.

(** What [ht_insert] through the pointer of the current table does. *)
Lemma ht_insert_current (s : SymTab) (t : ptr) (h : HashTab string ptr)
    (id : string) (prop : ptr) :
  sym_inv s -> small s -> table s = Some t -> deref (tabs s) t = Some h ->
  exists code h',
    Hashtable.ht_insert h id prop = Some (code, h') /\
    ht_insert s (Some t) id prop
    = Some (code, {| tabs := <[t := Some h']> (tabs s);
                     recs := recs s;
                     table := table s;
                     saved_table := saved_table s;
                     curr_offset := curr_offset s;
                     saved_offset := saved_offset s |}) /\
    table_ok h' /\
    (code = EXIT_SUCCESS /\ binding h id = None /\ binding h' id = Some prop /\
     Permutation (entries h') (mkHTentry id prop :: entries h)
     \/ code = HASH_TABLE_KEY_VALUE_PAIR_EXISTS /\ h' = h /\
        binding h id <> None).
Proof.
  intros Hinv Hsmall Et Eh.
  assert (table_ok h) as Hok.
  { destruct (inv_current s Hinv t Et) as (h0 & Eh0 & Hok). congruence. }
  assert (num_entries h < 2 ^ 26) as Hn.
  { pose proof (entries_le_records s h Hinv ltac:(eauto)) as Hle.
    rewrite (tok_count h Hok). unfold small in Hsmall. lia. }
  destruct (table_ok_insert h id prop Hok Hn) as (code & h' & Hi & Hok' & Hc).
  exists code, h'. split; [exact Hi|]. split; [|auto].
  unfold ht_insert. now rewrite Eh, Hi.
Qed.

(** [insert_name] under the invariant, for a record that is not bound
    yet. *)
Lemma insert_name_inv (id : string) (prop : ptr) (s : SymTab) :
  sym_inv s -> small s -> fresh_record s prop ->
  exists b s1,
    insert_name id prop s = Ok b s1 /\
    match b with
    | false => s1 = s /\ scope_binding s (table s) id <> None
    | true =>
        scope_binding s (table s) id = None /\
        scope_binding s1 (table s1) id = Some prop /\
        sym_inv s1 /\ table s1 = table s /\
        saved_table s1 = saved_table s /\
        length (recs s1) = length (recs s) /\
        Permutation (bound_records s1) (prop :: bound_records s)
    end.
Proof.
  intros Hinv Hsmall Hfresh.
  assert (exists t, table s = Some t) as [t Et].
  { destruct (table s) eqn:E; [eauto | now destruct (inv_table s Hinv)]. }
  destruct (inv_current s Hinv t Et) as (h & Eh & Hok).
  destruct (ht_insert_current s t h id prop Hinv Hsmall Et Eh)
    as (code & h' & Hi & Hput & Hok' & Hc).
  unfold insert_name. rewrite Et, Hput. simpl.
  destruct Hc as [(-> & Hnone & Hsome & Hperm)|(-> & -> & Hbound)].
  - destruct Hfresh as [Hnew (r & Hr & Hrok)]. rewrite Hr.
    set (s' := {| tabs := <[t := Some h']> (tabs s); recs := recs s;
                  table := table s; saved_table := saved_table s;
                  curr_offset := curr_offset s;
                  saved_offset := saved_offset s |}).
    destruct (sym_inv_tabs_update s s' t h h' prop Hinv Et Eh)
      as [Hinv' Hb'];
      [ reflexivity | reflexivity | reflexivity | reflexivity | assumption
      | now rewrite Hperm | split; eauto | ].
    assert (scope_binding s (Some t) id = None) as Hb0
      by (simpl; now rewrite Eh).
    assert (forall tabs', deref tabs' t = Some h' ->
              match deref tabs' t with
              | Some h0 => binding h0 id
              | None => None
              end = Some prop) as Hb1 by (intros tabs' ->; assumption).
    destruct (negb (IS_CALLABLE_TYPE (type r))) eqn:Ev.
    + eexists true, _. split; [reflexivity|].
      lazymatch goal with
      | |- _ /\ _ /\ sym_inv ?x /\ _ =>
          destruct (sym_inv_recs_update s' x prop r
                      {| type := type r; offset := curr_offset s;
                         nparams := nparams r; params := params r |}
                      Hinv' eq_refl eq_refl eq_refl Hr eq_refl Hrok)
            as [Hinv'' Hb'']
      end.
      split; [exact Hb0|]. split.
      { simpl. rewrite Et. simpl. apply Hb1.
        exact (deref_insert_eq _ _ h h' Eh). }
      split; [exact Hinv''|]. split; [simpl; congruence|].
      split; [reflexivity|]. split; [simpl; now rewrite length_insert|].
      rewrite Hb''. exact Hb'.
    + eexists true, _. split; [reflexivity|].
      split; [exact Hb0|]. split.
      { simpl. rewrite Et. simpl. apply Hb1.
        exact (deref_insert_eq _ _ h h' Eh). }
      split; [exact Hinv'|]. split; [simpl; congruence|]. auto.
  - eexists false, _. split; [reflexivity|]. split.
    + rewrite (deref_insert_same _ _ _ Eh). apply state_eta.
    + simpl. now rewrite Eh.
Qed.

(** The invariant does not read the offsets. *)
Lemma sym_inv_ext (s s' : SymTab) :
  tabs s' = tabs s -> recs s' = recs s -> table s' = table s ->
  saved_table s' = saved_table s -> sym_inv s -> sym_inv s'.
Proof.
  intros Et Er Ec Es [Ht Hc Hs Hnd Hl].
  pose proof (bound_records_tabs s s' Et Ec Es) as Hb. constructor.
  - congruence.
  - rewrite Ec. intros q Hq. rewrite Et. now apply Hc.
  - rewrite Es. intros q Hq. rewrite Et. now apply Hs.
  - now rewrite Hb.
  - rewrite Hb, Er. exact Hl.
Qed.

Lemma scope_binding_value (s : SymTab) (t : option ptr) (n : string)
    (p : ptr) :
  scope_binding s t n = Some p -> In p (scope_values s t).
Proof.
  unfold scope_binding, scope_values. destruct t as [q|]; [|discriminate].
  destruct (deref (tabs s) q) as [h|]; [|discriminate].
  unfold binding.
  destruct (chain_search (cmp h) n (entries h)) as [e|] eqn:E;
    [|discriminate].
  intros [= <-]. apply chain_search_Some in E as [Hin _]. now apply in_map.
Qed.

(** [find_name] under the invariant: it returns, it leaves the state alone,
    and the record it finds is a bound one. *)
Lemma find_name_inv (n : string) (s : SymTab) :
  sym_inv s ->
  find_name n s = Ok (find_name_spec n s) s /\
  (forall p, find_name_spec n s = Some p -> In p (bound_records s)).
Proof.
  intros Hinv. split; [exact (find_name_refines n s (sym_inv_ok s Hinv))|].
  unfold find_name_spec. intros p.
  destruct (scope_binding s (table s) n) as [p0|] eqn:Ec.
  - intros [= <-]. apply scope_values_current.
    exact (scope_binding_value _ _ _ _ Ec).
  - destruct (scope_binding s (saved_table s) n) as [p0|] eqn:Es;
      [|discriminate].
    destruct (callable s p0); [|discriminate]. intros [= <-].
    apply scope_values_saved. exact (scope_binding_value _ _ _ _ Es).
Qed.

(** [init_symbol_table] establishes the invariant, whatever the state
    before. *)
Lemma init_symbol_table_inv (s : SymTab) :
  exists s1, init_symbol_table s = Ok tt s1 /\ sym_inv s1 /\
             recs s1 = recs s /\ saved_table s1 = None /\ curr_offset s1 = 1.
Proof.
  eexists. split; [reflexivity|]. split; [|auto]. constructor; simpl.
  - discriminate.
  - intros q [= <-]. eexists. split; [apply deref_app_new|].
    exact table_ok_init.
  - intros q [=].
  - unfold bound_records. simpl. rewrite deref_app_new. simpl.
    try case_decide; apply NoDup_nil_2.
  - unfold bound_records. simpl. rewrite deref_app_new. simpl.
    try case_decide; intros p [].
Qed.

(** [open_subroutine] under the invariant, for a record that is not bound
    yet. *)
Lemma open_subroutine_inv (id : string) (prop : ptr) (s : SymTab) :
  sym_inv s -> small s -> fresh_record s prop ->
  exists b s1,
    open_subroutine id prop s = Ok b s1 /\
    recs s1 = recs s /\ saved_offset s1 = curr_offset s /\
    match b with
    | false =>
        scope_binding s (table s) id <> None /\ tabs s1 = tabs s /\
        table s1 = table s /\ saved_table s1 = saved_table s /\
        curr_offset s1 = curr_offset s
    | true =>
        scope_binding s (table s) id = None /\
        sym_inv s1 /\ nested s1 /\ saved_table s1 = table s /\
        curr_offset s1 = 1 /\
        scope_values s1 (table s1) = [] /\
        scope_binding s1 (saved_table s1) id = Some prop /\
        Permutation (bound_records s1) (prop :: scope_values s (table s))
    end.
Proof.
  intros Hinv Hsmall Hfresh.
  assert (exists t, table s = Some t) as [t Et].
  { destruct (table s) eqn:E; [eauto | now destruct (inv_table s Hinv)]. }
  destruct (inv_current s Hinv t Et) as (h & Eh & Hok).
  set (s0 := {| tabs := tabs s; recs := recs s; table := table s;
                saved_table := saved_table s; curr_offset := curr_offset s;
                saved_offset := curr_offset s |}).
  assert (sym_inv s0) as Hinv0 by (now apply (sym_inv_ext s s0)).
  assert (fresh_record s0 prop) as Hfresh0.
  { destruct Hfresh as [Hn Hr]. split; [|exact Hr].
    now rewrite (bound_records_tabs s s0). }
  destruct (ht_insert_current s0 t h id prop Hinv0 Hsmall Et Eh)
    as (code & h' & Hi & Hput & Hok' & Hc).
  unfold open_subroutine. fold s0. change (table s0) with (table s).
  rewrite Et, Hput.
  destruct Hc as [(-> & Hnone & Hsome & Hperm)|(-> & -> & Hbound)].
  - set (s1 := {| tabs := <[t := Some h']> (tabs s0); recs := recs s0;
                  table := table s0; saved_table := saved_table s0;
                  curr_offset := curr_offset s0;
                  saved_offset := saved_offset s0 |}).
    destruct (sym_inv_tabs_update s0 s1 t h h' prop Hinv0 Et Eh)
      as [Hinv1 Hb1];
      [ reflexivity | reflexivity | reflexivity | reflexivity | assumption
      | now rewrite Hperm | assumption | ].
    assert (deref (<[t := Some h']> (tabs s)) t = Some h') as Eh'
      by exact (deref_insert_eq _ _ h h' Eh).
    assert (t <> length (<[t := Some h']> (tabs s))) as Hnew
      by (apply deref_lt in Eh'; lia).
    eexists true, _. split; [reflexivity|]. simpl.
    split; [reflexivity|]. split; [reflexivity|].
    split; [now rewrite Eh|].
    assert (deref (<[t := Some h']> (tabs s)
                   ++ [Some (ht_init loadfactor_075 shift_hash key_strcmp)])
              t = Some h') as Eh'' by (now apply deref_app).
    assert (forall x : length (<[t := Some h']> (tabs s)) = t, False) as Hne.
    { intros x. apply Hnew. congruence. }
    split.
    { constructor; simpl.
      - discriminate.
      - intros q [= <-]. eexists. split; [apply deref_app_new|].
        exact table_ok_init.
      - rewrite Et. intros q [= <-]. eauto.
      - unfold bound_records. simpl. rewrite deref_app_new, Et. simpl.
        destruct (decide _) as [[= E]|_]; [now destruct (Hne (eq_sym E))|].
        simpl. rewrite Eh''.
        destruct Hinv1 as [_ _ _ Hnd _]. unfold bound_records in Hnd.
        apply NoDup_app in Hnd as (Hnd & _). simpl in Hnd.
        rewrite Et in Hnd. simpl in Hnd.
        now rewrite Eh' in Hnd.
      - unfold bound_records. simpl. rewrite deref_app_new, Et. simpl.
        destruct (decide _) as [[= E]|_]; [now destruct (Hne (eq_sym E))|].
        simpl. rewrite Eh''. intros p Hp.
        apply (inv_live s1 Hinv1). apply scope_values_current.
        simpl. rewrite Et. simpl. now rewrite Eh'. }
    split.
    { split; simpl; [rewrite Et; discriminate|]. rewrite Et.
      intros [= E]. exact (Hne (eq_sym E)). }
    split; [simpl; congruence|]. split; [reflexivity|].
    split; [now rewrite deref_app_new|].
    split; [rewrite Et; simpl; now rewrite Eh''|].
    unfold bound_records. simpl. rewrite deref_app_new, Et. simpl.
    destruct (decide _) as [[= E]|_]; [now destruct (Hne (eq_sym E))|].
    simpl. rewrite Eh'', Eh. now rewrite Hperm.
  - eexists false, _. split; [reflexivity|]. simpl.
    split; [reflexivity|]. split; [reflexivity|].
    split; [now rewrite Eh|].
    rewrite (deref_insert_same _ _ _ Eh). auto.
Qed.

Lemma deref_insert_None {A : Type} (heap : list (option A)) (p : ptr) :
  deref (<[p := None]> heap) p = None.
Proof.
  unfold deref.
  destruct (<[p:=None]> heap !! p) as [[a|]|] eqn:E; try reflexivity.
  exfalso. assert (p < length heap)%nat as Hlt
    by (apply lookup_lt_Some in E; rewrite length_insert in E; exact E).
  rewrite list_lookup_insert_eq in E by assumption. discriminate.
Qed.

(** [ht_free] with [freeprop]: records that are live and distinct are all
    freed, and no other record is touched. *)
Lemma freeprop_fold (vs : list ptr) :
  forall rs,
    NoDup vs -> (forall p, In p vs -> exists r, deref rs p = Some r) ->
    exists rs',
      fold_left freeprop vs (Some rs) = Some rs' /\
      length rs' = length rs /\
      (forall p, In p vs -> deref rs' p = None) /\
      (forall p, ~ In p vs -> deref rs' p = deref rs p).
Proof.
  induction vs as [|v vs IH]; intros rs Hnd Hl; simpl.
  - exists rs. split; [reflexivity|]. split; [reflexivity|].
    split; [intros p [] | reflexivity].
  - apply NoDup_cons in Hnd as [Hv Hnd]. rewrite list_elem_of_In in Hv.
    destruct (Hl v ltac:(now left)) as (r & ->).
    destruct (IH (<[v := None]> rs) Hnd) as (rs' & Hf & Hlen & Hin & Hout).
    { intros p Hp. rewrite deref_insert_ne by (intros ->; contradiction).
      apply Hl. now right. }
    exists rs'. split; [exact Hf|]. split; [now rewrite Hlen, length_insert|].
    split.
    + intros p [<-|Hp]; [|now apply Hin].
      rewrite (Hout v Hv). apply deref_insert_None.
    + intros p Hp. rewrite Hout by (intros H; apply Hp; now right).
      apply deref_insert_ne. intros ->. apply Hp. now left.
Qed.

Lemma free_values_entries (h : HashTab string ptr) :
  ht_wf h -> ht_free_values h = Some (map value (entries h)).
Proof.
  intros Hwf. unfold ht_free_values. rewrite (wf_take_entries h Hwf).
  destruct Hwf as [Hs _ _ _].
  assert ((0 <=? Hashtable.size h)
          && (Hashtable.size h <=? Z.of_nat (length (Hashtable.table h)))
          = true) as ->; [|reflexivity].
  apply andb_true_iff. split; apply Z.leb_le; lia.
Qed.

(** [release_symbol_table] under the invariant: the current table and the
    records it binds are freed, and nothing else. *)
Lemma release_symbol_table_inv (s : SymTab) :
  sym_inv s ->
  exists t rs,
    table s = Some t /\
    release_symbol_table s
    = Ok tt {| tabs := <[t := None]> (tabs s); recs := rs; table := None;
               saved_table := saved_table s; curr_offset := curr_offset s;
               saved_offset := saved_offset s |} /\
    length rs = length (recs s) /\
    (forall p, In p (scope_values s (table s)) -> deref rs p = None) /\
    (forall p, ~ In p (scope_values s (table s)) ->
               deref rs p = deref (recs s) p).
Proof.
  intros Hinv.
  assert (exists t, table s = Some t) as [t Et].
  { destruct (table s) eqn:E; [eauto | now destruct (inv_table s Hinv)]. }
  destruct (inv_current s Hinv t Et) as (h & Eh & Hok).
  assert (scope_values s (table s) = map value (entries h)) as Hv
    by (rewrite Et; simpl; now rewrite Eh).
  destruct (freeprop_fold (map value (entries h)) (recs s))
    as (rs & Hf & Hlen & Hin & Hout).
  - destruct Hinv as [_ _ _ Hnd _]. unfold bound_records in Hnd.
    apply NoDup_app in Hnd as (Hnd & _). now rewrite Hv in Hnd.
  - intros p Hp. rewrite <- Hv in Hp.
    destruct (inv_live s Hinv p (scope_values_current s p Hp)) as (r & Hr & _).
    eauto.
  - exists t, rs. split; [exact Et|]. rewrite Hv. split; [|auto].
    unfold release_symbol_table.
    now rewrite Et, Eh, (free_values_entries h (tok_wf h Hok)), Hf.
Qed.

(** [close_subroutine] under the invariant, in a subroutine scope: the scope
    and its records are freed, and the saved scope is the current one
    again. *)
Lemma close_subroutine_inv (s : SymTab) :
  sym_inv s -> nested s ->
  exists s1,
    close_subroutine s = Ok tt s1 /\ sym_inv s1 /\
    table s1 = saved_table s /\ saved_table s1 = saved_table s /\
    length (recs s1) = length (recs s) /\ curr_offset s1 = 1 /\
    bound_records s1 = scope_values s (saved_table s) /\
    (forall n, scope_binding s1 (table s1) n
               = scope_binding s (saved_table s) n) /\
    (forall p, In p (scope_values s (table s)) -> deref (recs s1) p = None) /\
    (forall p, ~ In p (scope_values s (table s)) ->
               deref (recs s1) p = deref (recs s) p).
Proof.
  intros Hinv [Hsome Hne].
  destruct (release_symbol_table_inv s Hinv)
    as (t & rs & Et & Hrel & Hlen & Hin & Hout).
  assert (exists g, saved_table s = Some g) as [g Eg].
  { destruct (saved_table s) eqn:E; [eauto | now destruct Hsome]. }
  assert (t <> g) as Htg by congruence.
  destruct (inv_saved s Hinv g Eg) as (hg & Ehg & Hokg).
  assert (deref (<[t := None]> (tabs s)) g = Some hg) as Ehg'
    by (now rewrite deref_insert_ne).
  unfold close_subroutine. rewrite Et, Hrel. simpl.
  eexists. split; [reflexivity|]. simpl.
  assert (NoDup (map value (entries hg)) /\
          forall p, In p (map value (entries hg)) ->
                    ~ In p (scope_values s (Some t))) as [Hndg Hdisj].
  { destruct Hinv as [_ _ _ Hnd _]. unfold bound_records in Hnd.
    rewrite Eg, Et in Hnd.
    destruct (decide (Some g = Some t)) as [[= E]|_]; [congruence|].
    apply NoDup_app in Hnd as (_ & Hd & Hnd). simpl in Hnd.
    rewrite Ehg in Hnd. split; [assumption|]. intros p Hp Hpt.
    apply (Hd p); rewrite list_elem_of_In; [assumption|].
    simpl. now rewrite Ehg. }
  split.
  { constructor; simpl.
    - rewrite Eg. discriminate.
    - rewrite Eg. intros q [= <-]. eauto.
    - rewrite Eg. intros q [= <-]. eauto.
    - unfold bound_records. simpl. rewrite Eg. simpl. rewrite Ehg'.
      destruct (decide _) as [_|E]; [|now destruct E].
      now rewrite app_nil_r.
    - unfold bound_records. simpl. rewrite Eg. simpl. rewrite Ehg'.
      destruct (decide _) as [_|E]; [|now destruct E].
      rewrite app_nil_r. intros p Hp. rewrite Hout.
      + apply (inv_live s Hinv). apply scope_values_saved.
        rewrite Eg. simpl. now rewrite Ehg.
      + rewrite Et. now apply Hdisj. }
  split; [now rewrite Eg|]. split; [now rewrite Eg|].
  split; [assumption|]. split; [reflexivity|].
  split.
  { unfold bound_records. simpl. rewrite Eg. simpl. rewrite Ehg', Ehg.
    destruct (decide _) as [_|E]; [|now destruct E].
    now rewrite app_nil_r. }
  rewrite Et in Hin, Hout. split; [|split; assumption].
  intros n. rewrite Eg. simpl. now rewrite Ehg', Ehg.
Qed.

(** The bindings of the other names across an insertion into a table of the
    symbol table. *)
Lemma table_ok_insert_other (h h' : HashTab string ptr) (k n : string)
    (v : ptr) code :
  table_ok h -> Hashtable.ht_insert h k v = Some (code, h') ->
  key_strcmp n k <> 0 -> binding h' n = binding h n.
Proof.
  intros [Hwf Hcmp _ Hd _ _] Hi Hne.
  apply (ht_insert_binding_other h k v code h' n Hwf); try assumption.
  - rewrite Hcmp. exact key_strcmp_equiv.
  - now rewrite Hcmp.
  - now rewrite Hcmp.
Qed.

Lemma callable_recs_update (s s' : SymTab) (p : ptr) (r r' : IDPropt) :
  deref (recs s) p = Some r -> recs s' = <[p := Some r']> (recs s) ->
  type r' = type r -> forall q, callable s' q = callable s q.
Proof.
  intros Hr Er Ht q. unfold callable. rewrite Er.
  destruct (decide (p = q)) as [<-|Hne].
  - now rewrite (deref_insert_eq _ _ r r' Hr), Hr, Ht.
  - now rewrite deref_insert_ne.
Qed.

(** [ht_insert] through a table pointer: what it leaves of the bindings of
    the other names, in the table it updates and in any other one. *)
Lemma ht_insert_scope_other (s s1 : SymTab) (t : ptr) (id n : string)
    (prop : ptr) code :
  scope_inv s (Some t) ->
  ht_insert s (Some t) id prop = Some (code, s1) ->
  key_strcmp n id <> 0 ->
  forall q, scope_binding s1 q n = scope_binding s q n.
Proof.
  intros Hinv H Hne q. destruct (Hinv t eq_refl) as (h & Eh & Hok).
  unfold ht_insert in H. rewrite Eh in H.
  destruct (Hashtable.ht_insert h id prop) as [[c h']|] eqn:Ei;
    [|discriminate].
  injection H as _ <-. unfold scope_binding. destruct q as [q|]; [|reflexivity].
  simpl. destruct (decide (t = q)) as [<-|Hq].
  - rewrite (deref_insert_eq _ _ h h' Eh), Eh.
    exact (table_ok_insert_other h h' id n prop c Hok Ei Hne).
  - now rewrite deref_insert_ne.
Qed.

(** [insert_name] leaves the bindings of the other names alone, in both
    scopes, and it changes the kind of no record. *)
Lemma insert_name_other (id n : string) (prop : ptr) (s s1 : SymTab)
    (b : bool) :
  sym_inv s -> insert_name id prop s = Ok b s1 -> key_strcmp n id <> 0 ->
  table s1 = table s /\ saved_table s1 = saved_table s /\
  (forall q, scope_binding s1 q n = scope_binding s q n) /\
  (forall q, callable s1 q = callable s q).
Proof.
  intros Hinv H Hne. unfold insert_name in H.
  destruct (table s) as [t|] eqn:Et; [|discriminate].
  destruct (ht_insert s (Some t) id prop) as [[code s']|] eqn:Ei;
    [|discriminate].
  assert (scope_inv s (Some t)) as Hcur
    by (rewrite <- Et; exact (inv_current s Hinv)).
  pose proof (ht_insert_scope_other s s' t id n prop code Hcur Ei Hne) as Hb.
  destruct (ht_insert_offsets _ _ _ _ _ _ Ei) as (_ & Hr & Ht & Hs).
  assert (forall q, callable s' q = callable s q) as Hcall
    by (intros q; unfold callable; now rewrite Hr).
  destruct code; try (injection H as _ <-; rewrite Ht, Hs, Et; auto).
  destruct (deref (recs s') prop) as [r|] eqn:Er; [|discriminate].
  destruct (negb (IS_CALLABLE_TYPE (type r))); injection H as _ <-; simpl.
  - rewrite Ht, Hs, Et. split; [reflexivity|]. split; [reflexivity|].
    split; [exact Hb|]. intros q.
    rewrite <- Hcall. unfold callable at 1. simpl.
    destruct (decide (prop = q)) as [<-|Hq].
    + unfold callable. now rewrite (deref_insert_eq _ _ r _ Er), Er.
    + unfold callable. now rewrite deref_insert_ne.
  - rewrite Ht, Hs, Et. auto.
Qed.

Lemma scope_binding_app (s : SymTab) (tabs' : list (option (HashTab string ptr)))
    (x : option (HashTab string ptr)) (q : ptr) (n : string) (h : HashTab string ptr) :
  tabs' = tabs s ++ [x] -> deref (tabs s) q = Some h ->
  match deref tabs' q with
  | Some h0 => binding h0 n
  | None => None
  end = binding h n.
Proof. intros -> Hq. now rewrite (deref_app _ _ _ x Hq). Qed.

(** [open_subroutine] leaves the bindings of the other names of the scope
    that it saves alone. *)
Lemma open_subroutine_other (id n : string) (prop : ptr) (s s1 : SymTab) :
  sym_inv s -> open_subroutine id prop s = Ok true s1 ->
  key_strcmp n id <> 0 ->
  scope_binding s1 (saved_table s1) n = scope_binding s (table s) n.
Proof.
  intros Hinv H Hne. unfold open_subroutine in H. simpl in H.
  destruct (table s) as [t|] eqn:Et; [|discriminate].
  set (s0 := {| tabs := tabs s; recs := recs s; table := Some t;
                saved_table := saved_table s; curr_offset := curr_offset s;
                saved_offset := curr_offset s |}) in *.
  destruct (ht_insert s0 (Some t) id prop) as [[code s']|] eqn:Ei;
    [|discriminate].
  assert (scope_inv s0 (Some t)) as Hcur.
  { intros q [= <-]. apply (inv_current s Hinv). exact Et. }
  pose proof (ht_insert_scope_other s0 s' t id n prop code Hcur Ei Hne
                (Some t)) as Hb.
  destruct (ht_insert_offsets _ _ _ _ _ _ Ei) as (_ & _ & Ht & _).
  destruct code; try discriminate. simpl in H. injection H as <-. simpl.
  rewrite Ht. simpl. simpl in Hb. rewrite <- Hb.
  destruct (deref (tabs s') t) as [h'|] eqn:Eh'.
  - exact (scope_binding_app s' _ _ t n h' eq_refl Eh').
  - exfalso. unfold ht_insert in Ei.
    destruct (Hcur t eq_refl) as (h & Eh & _). rewrite Eh in Ei.
    destruct (Hashtable.ht_insert h id prop) as [[c h']|]; [|discriminate].
    injection Ei as _ <-. simpl in Eh'.
    pose proof (deref_insert_eq _ _ h h' Eh) as Eh2. simpl in Eh2.
    congruence.
Qed.

Lemma scope_values_nil_binding (s : SymTab) (t : option ptr) (n : string) :
  scope_values s t = [] -> scope_binding s t n = None.
Proof.
  unfold scope_values, scope_binding. destruct t as [q|]; [|reflexivity].
  destruct (deref (tabs s) q) as [h|]; [|reflexivity].
  unfold binding. intros H. apply map_eq_nil in H. now rewrite H.
Qed.

End SymboltableSafety.

Module SymboltableSampleStates.
Import Hashtable HashtableSpec HashtableKeys HashtableSearch HashtableInvariant.
Import Symboltable SymboltableSpec SymboltableSamples SymboltableScopes.
Import SymboltableHash SymboltableSteps SymboltableInvariant.
Import SymboltableStrings SymboltableSafety.
Local Open Scope Z_scope.
Local Open Scope string_scope.

Lemma returned_ok {A : Type} (r : Res SymTab A) (a : A) (s : SymTab) :
  r = Ok a s -> state_of r = s.
Proof. now intros ->. Qed.

Lemma sample_record_var (s : SymTab) (p : ptr) (t : ValType) :
  option_map type (deref (recs s) p) = Some t ->
  IS_CALLABLE_TYPE t = false ->
  exists r, deref (recs s) p = Some r /\ record_ok r.
Proof.
  destruct (deref (recs s) p) as [r|]; [|discriminate].
  intros [= <-] Hv. exists r. split; [reflexivity|].
  intros Hc. congruence.
Qed.

Lemma scope_global_inv : sym_inv scope_global.
Proof.
  destruct (init_symbol_table_inv records_only) as (s1 & E & Hinv & _).
  unfold scope_global. now rewrite E.
Qed.

Lemma scope_global_v_step :
  insert_name "v" 0%nat scope_global = Ok true scope_global_v /\
  sym_inv scope_global_v.
Proof.
  destruct (insert_name_inv "v" 0%nat scope_global scope_global_inv)
    as (b & s1 & E & H).
  - vm_compute. reflexivity.
  - split; [vm_compute; intros []|].
    apply (sample_record_var _ _ TYPE_INTEGER); vm_compute; reflexivity.
  - unfold scope_global_v. rewrite E. simpl. destruct b.
    + split; [reflexivity | apply H].
    + destruct H as [_ H]. exfalso. apply H. vm_compute. reflexivity.
Qed.

Lemma scope_f_step :
  open_subroutine "f" 2%nat scope_global_v = Ok true scope_f /\
  sym_inv scope_f /\ nested scope_f.
Proof.
  destruct (open_subroutine_inv "f" 2%nat scope_global_v
              (proj2 scope_global_v_step))
    as (b & s1 & E & _ & _ & H).
  - vm_compute. reflexivity.
  - split; [vm_compute; intros [H|[]]; discriminate|].
    eexists. split; [vm_compute; reflexivity|].
    intros _. split; [discriminate | vm_compute; discriminate].
  - unfold scope_f. rewrite E. simpl. destruct b.
    + split; [reflexivity|]. split; apply H.
    + destruct H as [H _]. exfalso. apply H. vm_compute. reflexivity.
Qed.

Lemma scope_f_x_step :
  insert_name "x" 1%nat scope_f = Ok true scope_f_x /\
  sym_inv scope_f_x /\ nested scope_f_x.
Proof.
  destruct scope_f_step as (_ & Hinv & Hn1 & Hn2).
  destruct (insert_name_inv "x" 1%nat scope_f Hinv)
    as (b & s1 & E & H).
  - vm_compute. reflexivity.
  - split; [vm_compute; intros [H|[H|[]]]; discriminate|].
    apply (sample_record_var _ _ TYPE_BOOLEAN); vm_compute; reflexivity.
  - unfold scope_f_x. rewrite E. simpl. destruct b.
    + destruct H as (_ & _ & H & Ht & Hs & _).
      split; [reflexivity|]. split; [exact H|].
      split; [now rewrite Hs | now rewrite Hs, Ht].
    + destruct H as [_ H]. exfalso. apply H. vm_compute. reflexivity.
Qed.

End SymboltableSampleStates.

Module AmplcRules.
Import Token Amplc AmplcSpec AmplcRuns.
Import SymboltableSpec SymboltableScopes SymboltableSafety.
Local Open Scope Z_scope.
Local Open Scope string_scope.

Lemma TokenType_beq_eq (t t' : TokenType) :
  TokenType_beq t t' = true <-> t = t'.
Proof.
  split; [apply internal_TokenType_dec_bl | apply internal_TokenType_dec_lb].
Qed.

Lemma TokenType_beq_neq (t t' : TokenType) :
  TokenType_beq t t' = false <-> t <> t'.
Proof.
  rewrite <- TokenType_beq_eq. now destruct (TokenType_beq t t').
Qed.

(** *** The scanner *)

Lemma get_token_symtab (st : State) : symtab (get_token st) = symtab st.
Proof. unfold get_token. now destruct (source st) as [|[t p] rest]. Qed.

Lemma get_token_remaining (st : State) :
  (remaining (get_token st) <= remaining st)%nat.
Proof.
  unfold remaining, get_token.
  destruct (source st) as [|[t p] rest]; simpl.
  - lia.
  - destruct (TokenType_beq (type t) TOK_EOF),
             (TokenType_beq (type (token st)) TOK_EOF); lia.
Qed.

Lemma get_token_consumes (st : State) :
  type (token st) <> TOK_EOF ->
  (remaining (get_token st) + 1 <= remaining st)%nat.
Proof.
  intros Hne. apply TokenType_beq_neq in Hne.
  unfold remaining, get_token. rewrite Hne.
  destruct (source st) as [|[t p] rest]; simpl.
  - lia.
  - destruct (TokenType_beq (type t) TOK_EOF); lia.
Qed.

Lemma set_symtab_same (st : State) : set_symtab (symtab st) st = st.
Proof. now destruct st. Qed.

(** *** Rules for the outcome of a run *)

Section Rules.
Context {A : Type}.
Implicit Types (Q : A -> State -> Prop) (st : State).

Lemma outcome_bind {B : Type} (m : M B) (k : B -> M A) Q st :
  outcome (fun b st' => outcome Q (k b st')) (m st) ->
  outcome Q (bind m k st).
Proof. unfold bind. now destruct (m st). Qed.

Lemma outcome_weaken Q (Q' : A -> State -> Prop) (r : Res State A) :
  outcome Q r -> (forall a st, Q a st -> Q' a st) -> outcome Q' r.
Proof. destruct r; simpl; auto. Qed.

Lemma outcome_ret Q (a : A) st : Q a st -> outcome Q (ret a st).
Proof. exact (fun H => H). Qed.

Lemma outcome_get Q (f : State -> A) st : Q (f st) st -> outcome Q (get f st).
Proof. exact (fun H => H). Qed.

Lemma outcome_abort_c Q (e : Error) (args : list Arg) st :
  outcome Q (abort_c e args st).
Proof. unfold abort_c, _abort_cp, leprintf. destruct e; simpl; eauto. Qed.

Lemma outcome_abort_cp Q (p : SourcePos) (e : Error) (args : list Arg) st :
  outcome Q (abort_cp p e args st).
Proof. unfold abort_cp, _abort_cp, leprintf. destruct e; simpl; eauto. Qed.

Lemma parses_outcome {B : Type} (d : nat) (m : M B)
    (k : B -> State -> Prop) st :
  parses d m st ->
  (forall b st', symtab st' = symtab st ->
                 (remaining st' + d <= remaining st)%nat -> k b st') ->
  outcome k (m st).
Proof.
  unfold parses. intros H Hk. destruct (m st); simpl in *; try assumption.
  destruct H. auto.
Qed.

End Rules.

Section UnitRules.
Implicit Types (Q : unit -> State -> Prop) (st : State).

Lemma outcome_modify Q (f : State -> State) st :
  Q tt (f st) -> outcome Q (modify f st).
Proof. exact (fun H => H). Qed.

Lemma outcome_set_position Q (p : SourcePos) st :
  (forall st', symtab st' = symtab st -> remaining st' = remaining st ->
               token st' = token st -> return_type st' = return_type st ->
               Q tt st') ->
  outcome Q (modify (set_position p) st).
Proof. intros H. apply H; reflexivity. Qed.

Lemma outcome_set_return_type Q (t : ValType) st :
  (forall st', symtab st' = symtab st -> remaining st' = remaining st ->
               token st' = token st -> Q tt st') ->
  outcome Q (modify (set_return_type t) st).
Proof. intros H. apply H; reflexivity. Qed.

Lemma outcome_advance Q st :
  (forall st', symtab st' = symtab st ->
               (remaining st' <= remaining st)%nat ->
               (type (token st) <> TOK_EOF ->
                (remaining st' + 1 <= remaining st)%nat) ->
               Q tt st') ->
  outcome Q (advance st).
Proof.
  intros H. apply H;
    [apply get_token_symtab | apply get_token_remaining
    | apply get_token_consumes].
Qed.

Lemma outcome_expect Q (t : TokenType) st :
  t <> TOK_EOF ->
  (forall st', type (token st) = t -> symtab st' = symtab st ->
               (remaining st' + 1 <= remaining st)%nat -> Q tt st') ->
  outcome Q (expect t st).
Proof.
  intros Ht H. unfold expect, bind, is_tok, get.
  destruct (TokenType_beq (type (token st)) t) eqn:E.
  - apply TokenType_beq_eq in E. apply H;
      [ assumption | apply get_token_symtab
      | apply get_token_consumes; congruence ].
  - apply outcome_abort_c.
Qed.

Lemma outcome_chktypes Q (found expected : ValType) (pos : SourcePos)
    (ctx : string) st :
  Q tt st -> outcome Q (chktypes found expected pos ctx st).
Proof.
  intros H. unfold chktypes.
  destruct (negb (found =? expected)%Z); [simpl; eauto | exact H].
Qed.

Lemma outcome_when Q (b : bool) (m : M unit) st :
  (b = true -> outcome Q (m st)) -> (b = false -> Q tt st) ->
  outcome Q (when b m st).
Proof. destruct b; simpl; auto. Qed.

Lemma outcome_check_argument Q (t1 param : ValType) (pos : SourcePos)
    (i : Z) (id : string) st :
  Q tt st -> outcome Q (check_argument t1 param pos i id st).
Proof.
  intros H. unfold check_argument.
  destruct (negb (IS_ARRAY_TYPE t1) && negb (IS_ARRAY_TYPE param)).
  - destruct (negb _); [now apply outcome_chktypes | exact H].
  - now apply outcome_chktypes.
Qed.

End UnitRules.

Lemma outcome_param_at (Q : ValType -> State -> Prop) (prop : IDPropt)
    (i : Z) (st : State) :
  (Z.to_nat i < length (Symboltable.params prop))%nat ->
  (forall t, Q t st) -> outcome Q (param_at prop i st).
Proof.
  intros Hi H. unfold param_at.
  destruct (Symboltable.params prop !! Z.to_nat i) as [t|] eqn:E.
  - apply H.
  - apply lookup_ge_None in E. lia.
Qed.

Lemma outcome_tok (Q : TokenType -> State -> Prop) (st : State) :
  Q (type (token st)) st -> outcome Q (tok st).
Proof. exact (fun H => H). Qed.

Lemma outcome_is_tok (Q : bool -> State -> Prop) (t : TokenType)
    (st : State) :
  (type (token st) = t -> Q true st) ->
  (type (token st) <> t -> Q false st) ->
  outcome Q (is_tok t st).
Proof.
  intros Ht Hf. unfold is_tok, get. simpl.
  destruct (TokenType_beq (type (token st)) t) eqn:E.
  - apply Ht. now apply TokenType_beq_eq.
  - apply Hf. now apply TokenType_beq_neq.
Qed.

Lemma outcome_expect_id (Q : string -> State -> Prop) (st : State) :
  (forall st', type (token st) = TOK_ID -> symtab st' = symtab st ->
               (remaining st' + 1 <= remaining st)%nat ->
               Q (lexeme (token st)) st') ->
  outcome Q (expect_id st).
Proof.
  intros H. unfold expect_id, bind, is_tok, get, advance, modify, ret.
  destruct (TokenType_beq (type (token st)) TOK_ID) eqn:E.
  - apply TokenType_beq_eq in E. apply H;
      [ assumption | apply get_token_symtab
      | apply get_token_consumes; congruence ].
  - apply outcome_abort_c.
Qed.

Lemma outcome_find_name (Q : option ptr -> State -> Prop) (id : string)
    (st : State) :
  sym_inv (symtab st) ->
  Q (find_name_spec id (symtab st)) st -> outcome Q (find_name id st).
Proof.
  intros Hinv H. unfold find_name, sym.
  rewrite (proj1 (find_name_inv id (symtab st) Hinv)).
  now rewrite set_symtab_same.
Qed.

Lemma outcome_load (Q : IDPropt -> State -> Prop) (p : ptr) (r : IDPropt)
    (st : State) :
  Symboltable.deref (Symboltable.recs (symtab st)) p = Some r ->
  Q r st -> outcome Q (load p st).
Proof. intros Hr H. unfold load. now rewrite Hr. Qed.

Lemma outcome_width (Q : Z -> State -> Prop) (st : State) :
  Q (Symboltable.get_variables_width (symtab st)) st ->
  outcome Q (get_variables_width st).
Proof. exact (fun H => H). Qed.

(** A name that [find_name] resolves is bound to a live record. *)
Lemma found_live (id : string) (s : Symboltable.SymTab) (p : ptr) :
  sym_inv s -> find_name_spec id s = Some p ->
  exists r, Symboltable.deref (Symboltable.recs s) p = Some r /\
            record_ok r.
Proof.
  intros Hinv Hf. apply (inv_live s Hinv).
  exact (proj2 (find_name_inv id s Hinv) p Hf).
Qed.

End AmplcRules.

Module AmplcExprRuns.
Import Token Amplc AmplcSpec AmplcRuns AmplcRules.
Import SymboltableSpec SymboltableScopes SymboltableSafety.
Local Open Scope Z_scope.
Local Open Scope string_scope.

(** One step through a routine of the parser. *)
Ltac known_token :=
  repeat match goal with
         | H : type (token ?s) <> TOK_EOF -> _ |- _ =>
             first [ specialize (H ltac:(congruence))
                   | specialize (H ltac:(let E := fresh in
                                         intro E; rewrite E in *;
                                         simpl in *; congruence))
                   | clear H ]
         end.

Ltac step :=
  lazymatch goal with
  | |- outcome _ (bind _ _ _) => apply outcome_bind
  | |- outcome _ (ret _ _) => apply outcome_ret
  | |- outcome _ (get _ _) => apply outcome_get
  | |- outcome _ (tok _) => apply outcome_tok
  | |- outcome _ (is_tok _ _) => apply outcome_is_tok; intros ?
  | |- outcome _ (advance _) =>
      apply outcome_advance; intros ? ? ? ?; known_token
  | |- outcome _ (parse_relop _) =>
      apply outcome_advance; intros ? ? ? ?; known_token
  | |- outcome _ (parse_mulop _) =>
      apply outcome_advance; intros ? ? ? ?; known_token
  | |- outcome _ (parse_addop _) =>
      apply outcome_advance; intros ? ? ? ?; known_token
  | |- outcome _ (parse_string _) =>
      apply outcome_advance; intros ? ? ? ?; known_token
  | |- outcome _ (modify (set_position _) _) =>
      apply outcome_set_position; intros ? ? ? ? ?
  | |- outcome _ (modify (set_return_type _) _) =>
      apply outcome_set_return_type; intros ? ? ? ?
  | |- outcome _ (abort_c _ _ _) => apply outcome_abort_c
  | |- outcome _ (abort_cp _ _ _ _) => apply outcome_abort_cp
  | |- outcome _ (chktypes _ _ _ _ _) => apply outcome_chktypes
  | |- outcome _ (check_argument _ _ _ _ _ _) => apply outcome_check_argument
  | |- outcome _ (when _ _ _) => apply outcome_when; intros ?
  | |- outcome _ (expect _ _) =>
      apply outcome_expect; [discriminate | intros ? ? ? ?]
  | |- outcome _ (expect_id _) => apply outcome_expect_id; intros ? ? ? ?
  | |- outcome _ (get_variables_width _) => apply outcome_width
  | |- outcome _ (find_name _ _) => apply outcome_find_name; [congruence | ]
  | |- outcome _ (load ?p _) =>
      first
        [ match goal with
          | Hr : Symboltable.deref _ p = Some ?r |- _ =>
              apply (outcome_load _ p r); [congruence | ]
          end
        | match goal with
          | Hf : find_name_spec ?id ?s = Some p |- _ =>
              let r := fresh "r" in
              let Hr := fresh "Hr" in
              let Hok := fresh "Hok" in
              let Hs := fresh "Hs" in
              assert (sym_inv s) as Hs by congruence;
              destruct (found_live id s p Hs Hf) as (r & Hr & Hok);
              apply (outcome_load _ p r); [congruence | ]
          end ]
  | |- outcome _ (param_at _ _ _) =>
      apply outcome_param_at; [ | intros ?]
  | |- outcome _ ((if ?b then _ else _) _) => destruct b eqn:?
  | |- outcome _ ((match ?x with _ => _ end) _) => destruct x eqn:?
  | |- outcome _ (let '(_, _) := ?x in _) => destruct x eqn:?
  end; cbv beta iota.

(** The end of a reading run. *)
Ltac finish := split; [congruence | lia].

(** A call of a routine whose run is known. *)
Ltac call :=
  eapply parses_outcome;
  [ match goal with
    | H : context [parses] |- _ => apply H; [congruence | lia]
    end
  | intros ? ? ? ? ].

Ltac run := repeat first [step | call | finish].

Lemma callee_ok_intro (id : string) (s : Symboltable.SymTab) (p : ptr)
    (r : IDPropt) :
  find_name_spec id s = Some p ->
  Symboltable.deref (Symboltable.recs s) p = Some r ->
  IS_CALLABLE_TYPE (Symboltable.type r) = true ->
  callee_ok id s.
Proof.
  intros Hf Hr Hc q Hq. rewrite Hf in Hq. injection Hq as <-.
  unfold callable. now rewrite Hr.
Qed.

Lemma callee_record_of (id : string) (s : Symboltable.SymTab) (p : ptr) :
  sym_inv s -> callee_ok id s -> find_name_spec id s = Some p ->
  callee_record s p.
Proof.
  intros Hinv Hc Hf. destruct (found_live id s p Hinv Hf) as (r & Hr & Hok).
  exists r. split; [assumption | split; [ | assumption]].
  specialize (Hc p Hf). unfold callable in Hc. now rewrite Hr in Hc.
Qed.

Lemma callee_record_first (s : Symboltable.SymTab) (p : ptr) (r : IDPropt) :
  callee_record s p ->
  Symboltable.deref (Symboltable.recs s) p = Some r ->
  (Z.to_nat 0 < length (Symboltable.params r))%nat.
Proof.
  intros (r' & Hr' & Hc & Hok) Hr. assert (r' = r) as -> by congruence.
  destruct (Hok Hc) as [Hne _].
  destruct (Symboltable.params r); [congruence | simpl; lia].
Qed.

Lemma callee_record_next (s : Symboltable.SymTab) (p : ptr) (r : IDPropt)
    (i : Z) :
  callee_record s p ->
  Symboltable.deref (Symboltable.recs s) p = Some r ->
  0 <= i -> (i >=? Symboltable.nparams r) = false ->
  (Z.to_nat i < length (Symboltable.params r))%nat.
Proof.
  intros (r' & Hr' & Hc & Hok) Hr Hi Hlt. assert (r' = r) as -> by congruence.
  destruct (Hok Hc) as [_ Hn]. lia.
Qed.

Lemma expr_runs (fuel : nat) :
  (forall st, sym_inv (symtab st) ->
              (5 * remaining st + 4 <= fuel)%nat ->
              parses 1 (parse_expr fuel) st) /\
  (forall st, sym_inv (symtab st) ->
              (5 * remaining st + 3 <= fuel)%nat ->
              parses 1 (parse_simple fuel) st) /\
  (forall t0 st, sym_inv (symtab st) ->
                 (5 * remaining st + 1 <= fuel)%nat ->
                 parses 0 (parse_simple_loop fuel t0) st) /\
  (forall st, sym_inv (symtab st) ->
              (5 * remaining st + 2 <= fuel)%nat ->
              parses 1 (parse_term fuel) st) /\
  (forall t0 st, sym_inv (symtab st) ->
                 (5 * remaining st + 1 <= fuel)%nat ->
                 parses 0 (parse_term_loop fuel t0) st) /\
  (forall st, sym_inv (symtab st) ->
              (5 * remaining st + 1 <= fuel)%nat ->
              parses 1 (parse_factor fuel) st) /\
  (forall id st, sym_inv (symtab st) ->
                 (5 * remaining st + 1 <= fuel)%nat ->
                 parses 1 (parse_index fuel id) st) /\
  (forall id idpos st, sym_inv (symtab st) ->
                       (5 * remaining st + 1 <= fuel)%nat ->
                       callee_ok id (symtab st) ->
                       parses 1 (parse_arglist fuel id idpos) st) /\
  (forall id p i st, sym_inv (symtab st) ->
                     (5 * remaining st + 1 <= fuel)%nat ->
                     callee_record (symtab st) p -> 0 <= i ->
                     parses 0 (parse_arglist_loop fuel id p i) st).
Proof.
  induction fuel as [|fuel (IHexpr & IHsimple & IHsloop & IHterm & IHtloop
                            & IHfactor & IHindex & IHarglist & IHaloop)].
  { repeat split; intros; lia. }
  split; [|split; [|split; [|split; [|split; [|split; [|split; [|split]]]]]]].
  - intros st Hinv Hfuel. unfold parses. cbn [parse_expr]. run.
  - intros st Hinv Hfuel. unfold parses. cbn [parse_simple]. run.
  - intros t0 st Hinv Hfuel. unfold parses. cbn [parse_simple_loop]. run.
  - intros st Hinv Hfuel. unfold parses. cbn [parse_term]. run.
  - intros t0 st Hinv Hfuel. unfold parses. cbn [parse_term_loop]. run.
  - intros st Hinv Hfuel. unfold parses. cbn [parse_factor]. run.
    eapply parses_outcome.
    { apply IHarglist; [congruence | lia | ].
      apply (callee_ok_intro _ _ p r); [assumption | assumption | ].
      apply negb_false_iff in H2. unfold IS_FUNCTION in H2.
      now apply andb_prop in H2. }
    intros ? ? ? ?. run.
  - intros id st Hinv Hfuel. unfold parses. cbn [parse_index]. run.
  - intros id idpos st Hinv Hfuel Hcallee. unfold parses.
    cbn [parse_arglist]. run.
    + apply (callee_record_first (symtab st) p r);
        [apply (callee_record_of id); assumption | assumption].
    + eapply parses_outcome.
      { apply IHaloop; [congruence | lia | | ].
        - replace (symtab st'0) with (symtab st) by congruence.
          apply (callee_record_of id); assumption.
        - unfold Hashtable.uint. apply Z.mod_pos_bound. lia. }
      intros ? ? ? ?. run.
  - intros id p i st Hinv Hfuel Hrec Hi. unfold parses.
    pose proof Hrec as (r & Hr & Hc & Hok).
    cbn [parse_arglist_loop]. run.
    + apply (callee_record_next (symtab st) p r); assumption.
    + eapply parses_outcome.
      { apply IHaloop; [congruence | lia | | ].
        - replace (symtab st'0) with (symtab st) by congruence. assumption.
        - unfold Hashtable.uint. apply Z.mod_pos_bound. lia. }
      intros ? ? ? ?. run.
Qed.

End AmplcExprRuns.

Module AmplcStmtRuns.
Import Token Amplc AmplcSpec AmplcRuns AmplcRules AmplcExprRuns.
Import SymboltableSpec SymboltableScopes SymboltableSafety.
Local Open Scope Z_scope.
Local Open Scope string_scope.

Ltac with_exprs fuel :=
  destruct (expr_runs fuel)
    as (IHexpr & IHsimple & IHsloop & IHterm & IHtloop & IHfactor & IHindex
        & IHarglist & IHaloop).

Lemma parse_assign_runs (fuel : nat) (st : State) :
  sym_inv (symtab st) -> (5 * remaining st <= fuel)%nat ->
  parses 1 (parse_assign fuel) st.
Proof.
  intros Hinv Hfuel. with_exprs fuel. unfold parses, parse_assign. run.
Qed.

Lemma parse_call_runs (fuel : nat) (st : State) :
  sym_inv (symtab st) -> (5 * remaining st <= fuel)%nat ->
  parses 1 (parse_call fuel) st.
Proof.
  intros Hinv Hfuel. with_exprs fuel. unfold parses, parse_call. run.
  eapply parses_outcome.
  { apply IHarglist; [congruence | lia | ].
    apply (callee_ok_intro _ _ p r); [assumption | assumption | ].
    now apply negb_false_iff. }
  intros ? ? ? ?. run.
Qed.

Lemma parse_input_runs (fuel : nat) (st : State) :
  sym_inv (symtab st) -> (5 * remaining st <= fuel)%nat ->
  parses 1 (parse_input fuel) st.
Proof.
  intros Hinv Hfuel. with_exprs fuel. unfold parses, parse_input. run.
Qed.

Lemma parse_output_item_runs (fuel : nat) (pos : SourcePos) (st : State) :
  sym_inv (symtab st) -> (5 * remaining st + 4 <= fuel)%nat ->
  parses 1 (parse_output_item fuel pos) st.
Proof.
  intros Hinv Hfuel. with_exprs fuel. unfold parses, parse_output_item. run.
Qed.

Lemma parse_output_loop_runs (fuel : nat) (st : State) :
  sym_inv (symtab st) -> (5 * remaining st + 1 <= fuel)%nat ->
  parses 0 (parse_output_loop fuel) st.
Proof.
  revert st. induction fuel as [|fuel IH]; intros st Hinv Hfuel; [lia|].
  pose proof (parse_output_item_runs fuel) as Hitem.
  unfold parses. cbn [parse_output_loop]. run.
Qed.

Lemma parse_output_runs (fuel : nat) (st : State) :
  sym_inv (symtab st) -> (5 * remaining st <= fuel)%nat ->
  parses 1 (parse_output fuel) st.
Proof.
  intros Hinv Hfuel.
  pose proof (parse_output_item_runs fuel) as Hitem.
  pose proof (parse_output_loop_runs fuel) as Hloop.
  unfold parses, parse_output. run.
Qed.

Lemma parse_return_runs (fuel : nat) (st : State) :
  sym_inv (symtab st) -> (5 * remaining st <= fuel)%nat ->
  parses 1 (parse_return fuel) st.
Proof.
  intros Hinv Hfuel. with_exprs fuel. unfold parses, parse_return. run.
Qed.

Lemma stmt_runs (fuel : nat) :
  (forall st, sym_inv (symtab st) ->
              (5 * remaining st + 3 <= fuel)%nat ->
              parses 1 (parse_statements fuel) st) /\
  (forall st, sym_inv (symtab st) ->
              (5 * remaining st + 1 <= fuel)%nat ->
              parses 0 (parse_statements_loop fuel) st) /\
  (forall st, sym_inv (symtab st) ->
              (5 * remaining st + 2 <= fuel)%nat ->
              parses 1 (parse_statement fuel) st) /\
  (forall st, sym_inv (symtab st) ->
              (5 * remaining st + 1 <= fuel)%nat ->
              parses 1 (parse_if fuel) st) /\
  (forall st, sym_inv (symtab st) ->
              (5 * remaining st + 1 <= fuel)%nat ->
              parses 0 (parse_elif_loop fuel) st) /\
  (forall st, sym_inv (symtab st) ->
              (5 * remaining st + 1 <= fuel)%nat ->
              parses 1 (parse_while fuel) st).
Proof.
  induction fuel as [|fuel (IHstmts & IHsloop & IHstmt & IHif & IHelif
                            & IHwhile)].
  { repeat split; intros; lia. }
  destruct (expr_runs fuel) as (IHexpr & _).
  pose proof (parse_assign_runs fuel) as Hassign.
  pose proof (parse_call_runs fuel) as Hcall.
  pose proof (parse_input_runs fuel) as Hinput.
  pose proof (parse_output_runs fuel) as Houtput.
  pose proof (parse_return_runs fuel) as Hreturn.
  split; [|split; [|split; [|split; [|split]]]].
  - intros st Hinv Hfuel. unfold parses. cbn [parse_statements]. run.
  - intros st Hinv Hfuel. unfold parses. cbn [parse_statements_loop]. run.
  - intros st Hinv Hfuel. unfold parses. cbn [parse_statement]. run.
  - intros st Hinv Hfuel. unfold parses. cbn [parse_if]. run.
  - intros st Hinv Hfuel. unfold parses. cbn [parse_elif_loop]. run.
  - intros st Hinv Hfuel. unfold parses. cbn [parse_while]. run.
Qed.

End AmplcStmtRuns.

Module AmplcDefRuns.
Import Token Amplc AmplcSpec AmplcRuns AmplcRules AmplcExprRuns AmplcStmtRuns.
Import Symboltable SymboltableSpec SymboltableScopes SymboltableSafety.
Local Open Scope Z_scope.
Local Open Scope string_scope.

(** A record allocated at the end of the record heap is fresh, and the
    bound records stay as they are. *)
Lemma sym_inv_alloc (s : SymTab) (r : IDPropt) :
  sym_inv s -> record_ok r ->
  let s' := {| tabs := tabs s; recs := recs s ++ [Some r]; table := table s;
               saved_table := saved_table s; curr_offset := curr_offset s;
               saved_offset := saved_offset s |} in
  sym_inv s' /\ fresh_record s' (length (recs s)).
Proof.
  intros Hinv Hr s'.
  assert (Hb : bound_records s' = bound_records s) by reflexivity.
  assert (Hold : forall p, In p (bound_records s) ->
                           deref (recs s') p = deref (recs s) p).
  { intros p Hp. destruct (inv_live s Hinv p Hp) as (r0 & Hr0 & _).
    apply deref_lt in Hr0. unfold deref. simpl.
    now rewrite lookup_app_l by exact Hr0. }
  split.
  - constructor.
    + exact (inv_table s Hinv).
    + exact (inv_current s Hinv).
    + exact (inv_saved s Hinv).
    + rewrite Hb. exact (inv_nodup s Hinv).
    + intros p Hp. rewrite Hb in Hp. rewrite (Hold p Hp).
      exact (inv_live s Hinv p Hp).
  - split.
    + rewrite Hb. intros Hin.
      exact (fresh_not_length s _ Hinv Hin eq_refl).
    + exists r. split; [|exact Hr]. unfold deref. simpl.
      now rewrite list_lookup_middle.
Qed.

Lemma outcome_idpropt (Q : ptr -> State -> Prop) (t : ValType)
    (offset nparams : Z) (params : list ValType) (st : State) :
  sym_inv (symtab st) ->
  record_ok (mkIDPropt t offset nparams params) ->
  (forall st',
     sym_inv (symtab st') ->
     fresh_record (symtab st') (length (recs (symtab st))) ->
     table (symtab st') = table (symtab st) ->
     saved_table (symtab st') = saved_table (symtab st) ->
     length (recs (symtab st')) = S (length (recs (symtab st))) ->
     remaining st' = remaining st -> token st' = token st ->
     Q (length (recs (symtab st))) st') ->
  outcome Q (idpropt t offset nparams params st).
Proof.
  intros Hinv Hr H. unfold idpropt. simpl.
  destruct (sym_inv_alloc _ _ Hinv Hr) as [Hinv' Hfresh].
  apply H; try assumption; try reflexivity.
  simpl. rewrite length_app. simpl. lia.
Qed.

Lemma outcome_insert_name (Q : bool -> State -> Prop) (id : string)
    (prop : ptr) (st : State) :
  sym_inv (symtab st) -> small (symtab st) ->
  fresh_record (symtab st) prop ->
  (forall st',
     sym_inv (symtab st') ->
     table (symtab st') = table (symtab st) ->
     saved_table (symtab st') = saved_table (symtab st) ->
     length (recs (symtab st')) = length (recs (symtab st)) ->
     remaining st' = remaining st -> token st' = token st ->
     Q true st') ->
  (Q false st) ->
  outcome Q (Amplc.insert_name id prop st).
Proof.
  intros Hinv Hsmall Hfresh Ht Hf. unfold Amplc.insert_name, sym.
  destruct (insert_name_inv id prop _ Hinv Hsmall Hfresh)
    as (b & s1 & -> & Hb).
  destruct b.
  - destruct Hb as (_ & _ & Hinv1 & Htab & Hsav & Hlen & _).
    apply Ht; assumption || reflexivity.
  - destruct Hb as (-> & _). now rewrite set_symtab_same.
Qed.

Lemma outcome_define_variable (Q : unit -> State -> Prop) (id : string)
    (t1 : ValType) (pos : SourcePos) (st : State) :
  sym_inv (symtab st) ->
  Z.of_nat (length (recs (symtab st))) + 1 < 2 ^ 26 ->
  IS_CALLABLE_TYPE t1 = false ->
  (forall st',
     sym_inv (symtab st') ->
     table (symtab st') = table (symtab st) ->
     saved_table (symtab st') = saved_table (symtab st) ->
     length (recs (symtab st')) = S (length (recs (symtab st))) ->
     remaining st' = remaining st -> token st' = token st ->
     Q tt st') ->
  outcome Q (define_variable id t1 pos st).
Proof.
  intros Hinv Hsmall Ht H. unfold define_variable. run.
  apply outcome_idpropt; [assumption | | ].
  { intros Hc. simpl in Hc. congruence. }
  intros st' Hinv' Hfresh Htab Hsav Hlen Hrem Htok. cbv beta.
  apply outcome_bind. apply outcome_insert_name; try assumption.
  { unfold small. rewrite Hlen. lia. }
  - intros st'' Hinv'' Htab' Hsav' Hlen' Hrem' Htok'. cbv beta. run.
    apply H; congruence.
  - cbv beta. run. discriminate.
Qed.

Lemma outcome_parse_type (Q : ValType -> State -> Prop) (t0 : ValType)
    (st : State) :
  (forall t st', symtab st' = symtab st ->
                 (remaining st' + 1 <= remaining st)%nat ->
                 IS_CALLABLE_TYPE t = IS_CALLABLE_TYPE t0 -> Q t st') ->
  outcome Q (parse_type t0 st).
Proof.
  intros H. unfold parse_type. run.
  all: apply H; [congruence | lia | ].
  all: unfold IS_CALLABLE_TYPE; rewrite ?Z.lor_spec; simpl;
    now rewrite ?orb_false_r.
Qed.

Lemma outcome_open_subroutine (Q : bool -> State -> Prop) (id : string)
    (prop : ptr) (st : State) :
  sym_inv (symtab st) -> small (symtab st) ->
  fresh_record (symtab st) prop ->
  (forall st',
     sym_inv (symtab st') -> nested (symtab st') ->
     saved_table (symtab st') = table (symtab st) ->
     length (recs (symtab st')) = length (recs (symtab st)) ->
     remaining st' = remaining st -> token st' = token st ->
     Q true st') ->
  (forall st', Q false st') ->
  outcome Q (sym (open_subroutine id prop) st).
Proof.
  intros Hinv Hsmall Hfresh Ht Hf. unfold sym.
  destruct (open_subroutine_inv id prop _ Hinv Hsmall Hfresh)
    as (b & s1 & -> & Hrecs & _ & Hb).
  destruct b.
  - destruct Hb as (_ & Hinv1 & Hnest & Hsav & _).
    apply Ht; try assumption; try reflexivity. simpl. now rewrite Hrecs.
  - apply Hf.
Qed.

Lemma outcome_close_subroutine (Q : unit -> State -> Prop) (st : State) :
  sym_inv (symtab st) -> nested (symtab st) ->
  (forall st',
     sym_inv (symtab st') ->
     table (symtab st') = saved_table (symtab st) ->
     length (recs (symtab st')) = length (recs (symtab st)) ->
     remaining st' = remaining st -> token st' = token st ->
     Q tt st') ->
  outcome Q (sym close_subroutine st).
Proof.
  intros Hinv Hnest H. unfold sym.
  destruct (close_subroutine_inv _ Hinv Hnest)
    as (s1 & -> & Hinv1 & Htab & _ & Hlen & _).
  apply H; try assumption; reflexivity.
Qed.

Lemma defines_outcome {A : Type} (d : nat) (m : M A) (st : State)
    (Q : A -> State -> Prop) :
  defines d m st ->
  (forall a st',
     sym_inv (symtab st') ->
     table (symtab st') = table (symtab st) ->
     saved_table (symtab st') = saved_table (symtab st) ->
     (weight st' <= weight st)%nat ->
     (remaining st' + d <= remaining st)%nat -> Q a st') ->
  outcome Q (m st).
Proof.
  unfold defines. intros Hm H. destruct (m st); simpl in *; try assumption.
  destruct Hm as (H1 & H2 & H3 & H4 & H5). now apply H.
Qed.

Lemma declares_outcome {A : Type} (d : nat) (m : M A) (st : State)
    (Q : A -> State -> Prop) :
  declares d m st ->
  (forall a st',
     sym_inv (symtab st') ->
     table (symtab st') = table (symtab st) ->
     (weight st' <= weight st)%nat ->
     (remaining st' + d <= remaining st)%nat -> Q a st') ->
  outcome Q (m st).
Proof.
  unfold declares. intros Hm H. destruct (m st); simpl in *; try assumption.
  destruct Hm as (H1 & H2 & H3 & H4). now apply H.
Qed.

(** A run that only reads is a run that defines nothing. *)
Lemma parses_defines {A : Type} (d : nat) (m : M A) (st : State) :
  sym_inv (symtab st) -> parses d m st -> defines d m st.
Proof.
  unfold parses, defines. intros Hinv Hm.
  destruct (m st); simpl in *; try assumption.
  destruct Hm as [Hs Hr]. unfold weight. rewrite Hs.
  split; [assumption | split; [reflexivity | split; [reflexivity | split; lia]]].
Qed.

(** Record counts and token counts. *)
Ltac sizes :=
  unfold light, small, weight in *;
  repeat match goal with
         | H : symtab ?a = symtab ?b |- _ => rewrite H in *
         end;
  first [assumption | congruence | lia].

Ltac dfinish :=
  lazymatch goal with
  | |- _ /\ _ => split; [sizes | dfinish]
  | _ => sizes
  end.

Ltac dstep :=
  lazymatch goal with
  | |- outcome _ (parse_type _ _) =>
      apply outcome_parse_type; intros ? ? ? ? ?
  | |- outcome _ (define_variable _ _ _ _) =>
      apply outcome_define_variable;
      [ sizes | sizes
      | first [assumption | etransitivity; [eassumption | reflexivity]]
      | intros ? ? ? ? ? ? ? ]
  | |- outcome _ (sym close_subroutine _) =>
      apply outcome_close_subroutine;
      [ sizes | unfold nested in *; split; congruence
      | intros ? ? ? ? ? ? ]
  | _ => step
  end; cbv beta iota.

Ltac dcall :=
  eapply defines_outcome;
  [ match goal with
    | H : context [defines] |- _ => apply H; sizes
    end
  | intros ? ? ? ? ? ? ? ].

Ltac drun := repeat first [dstep | dcall | dfinish].

Lemma parse_vardef_loop_runs (fuel : nat) (t1 : ValType) (st : State) :
  sym_inv (symtab st) -> light st -> IS_CALLABLE_TYPE t1 = false ->
  (5 * remaining st + 1 <= fuel)%nat ->
  defines 0 (parse_vardef_loop fuel t1) st.
Proof.
  revert st. induction fuel as [|fuel IH]; intros st Hinv Hl Ht Hfuel; [lia|].
  unfold defines. cbn [parse_vardef_loop]. drun.
Qed.

Lemma parse_vardef_runs (fuel : nat) (st : State) :
  sym_inv (symtab st) -> light st -> (5 * remaining st <= fuel)%nat ->
  defines 1 (parse_vardef fuel) st.
Proof.
  intros Hinv Hl Hfuel.
  pose proof (parse_vardef_loop_runs fuel) as Hloop.
  unfold defines, parse_vardef. drun.
Qed.

Lemma parse_body_loop_runs (fuel : nat) (st : State) :
  sym_inv (symtab st) -> light st -> (5 * remaining st + 1 <= fuel)%nat ->
  defines 0 (parse_body_loop fuel) st.
Proof.
  revert st. induction fuel as [|fuel IH]; intros st Hinv Hl Hfuel; [lia|].
  pose proof (parse_vardef_runs fuel) as Hvardef.
  unfold defines. cbn [parse_body_loop]. drun.
Qed.

Lemma parse_body_runs (fuel : nat) (st : State) :
  sym_inv (symtab st) -> light st -> (5 * remaining st + 3 <= fuel)%nat ->
  defines 1 (parse_body fuel) st.
Proof.
  intros Hinv Hl Hfuel.
  pose proof (parse_body_loop_runs fuel) as Hloop.
  assert (Hstmts : forall st, sym_inv (symtab st) -> light st ->
                              (5 * remaining st + 3 <= fuel)%nat ->
                              defines 1 (parse_statements fuel) st).
  { intros st0 H0 _ H1. apply parses_defines; [assumption|].
    now apply (proj1 (stmt_runs fuel)). }
  unfold defines, parse_body. drun.
Qed.

Lemma parse_subdef_params_runs (fuel : nat) (st : State) :
  (5 * remaining st + 1 <= fuel)%nat ->
  outcome (fun more st' =>
             symtab st' = symtab st /\
             (remaining st' + length more <= remaining st)%nat /\
             Forall (fun v => IS_CALLABLE_TYPE (vtype v) = false) more)
          (parse_subdef_params fuel st).
Proof.
  revert st. induction fuel as [|fuel IH]; intros st Hfuel; [lia|].
  cbn [parse_subdef_params]. drun.
  - eapply outcome_weaken; [apply IH; lia | ].
    intros more st2 (Hs & Hr & Hall). cbv beta. apply outcome_ret.
    split; [congruence | split; [simpl; lia | ]].
    constructor; [ | assumption]. simpl.
    etransitivity; [eassumption | reflexivity].
  - split; [reflexivity | split; [simpl; lia | constructor]].
Qed.

Lemma define_params_runs (head : list Variable_s) (st : State) :
  sym_inv (symtab st) ->
  Forall (fun v => IS_CALLABLE_TYPE (vtype v) = false) head ->
  Z.of_nat (length (recs (symtab st))) + Z.of_nat (length head) < 2 ^ 26 ->
  outcome (fun _ st' =>
             sym_inv (symtab st') /\
             table (symtab st') = table (symtab st) /\
             saved_table (symtab st') = saved_table (symtab st) /\
             length (recs (symtab st'))
             = (length (recs (symtab st)) + length head)%nat /\
             remaining st' = remaining st)
          (define_params head st).
Proof.
  revert st. induction head as [|v head IH]; intros st Hinv Hall Hsmall.
  - simpl.
    split; [assumption | split; [reflexivity | split; [reflexivity | ]]].
    split; [lia | reflexivity].
  - inversion Hall as [|? ? Hv Hrest]; subst. simpl in Hsmall.
    cbn [define_params]. apply outcome_bind.
    apply outcome_define_variable; [assumption | lia | assumption | ].
    intros st1 Hinv1 Htab1 Hsav1 Hlen1 Hrem1 _. cbv beta.
    eapply outcome_weaken; [apply IH; [assumption | assumption | lia] | ].
    intros _ st2 (Hinv2 & Htab2 & Hsav2 & Hlen2 & Hrem2).
    split; [assumption | split; [congruence | split; [congruence | ]]].
    split; [simpl; lia | congruence].
Qed.

Lemma parse_subdef_runs (fuel : nat) (st : State) :
  sym_inv (symtab st) -> light st -> (5 * remaining st <= fuel)%nat ->
  declares 1 (parse_subdef fuel) st.
Proof.
  intros Hinv Hl Hfuel.
  pose proof (parse_body_runs fuel) as Hbody.
  unfold declares, parse_subdef. drun.
  eapply outcome_weaken; [apply parse_subdef_params_runs; lia | ].
  intros more st3 (Hs3 & Hr3 & Hall). cbv beta. drun.
  all: apply outcome_idpropt;
    [ sizes
    | intros _; simpl; split;
      [ discriminate
      | rewrite length_map; unfold Hashtable.uint; apply Z.mod_le; lia ]
    | intros st8 Hinv8 Hfresh8 Htab8 Hsav8 Hlen8 Hrem8 Htok8 ].
  all: cbv beta; apply outcome_bind; apply outcome_open_subroutine;
    [ assumption | sizes | assumption
    | intros st9 Hinv9 [Hn1 Hn2] Hsav9 Hlen9 Hrem9 Htok9
    | intros st9; cbv beta iota; drun ].
  all: cbv beta iota; apply outcome_bind.
  all: eapply outcome_weaken;
    [ apply define_params_runs;
      [ assumption
      | constructor;
        [ simpl; etransitivity; [eassumption | reflexivity] | assumption ]
      | cbn [length]; sizes ]
    | intros _ st10 (Hinv10 & Htab10 & Hsav10 & Hlen10 & Hrem10) ].
  all: cbn [length] in Hlen10; cbv beta.
  all: drun.
Qed.

Ltac ccall :=
  eapply declares_outcome;
  [ match goal with
    | H : context [declares] |- _ => apply H; sizes
    end
  | intros ? ? ? ? ? ? ].

Ltac crun := repeat first [dstep | dcall | ccall | dfinish].

Lemma parse_program_loop_runs (fuel : nat) (st : State) :
  sym_inv (symtab st) -> light st -> (5 * remaining st + 1 <= fuel)%nat ->
  declares 0 (parse_program_loop fuel) st.
Proof.
  revert st. induction fuel as [|fuel IH]; intros st Hinv Hl Hfuel; [lia|].
  pose proof (parse_subdef_runs fuel) as Hsubdef.
  unfold declares. cbn [parse_program_loop]. crun.
Qed.

Lemma parse_program_runs (fuel : nat) (st : State) :
  sym_inv (symtab st) -> light st -> (5 * remaining st <= fuel)%nat ->
  declares 1 (parse_program fuel) st.
Proof.
  intros Hinv Hl Hfuel.
  pose proof (parse_program_loop_runs fuel) as Hloop.
  pose proof (parse_body_runs fuel) as Hbody.
  unfold declares, parse_program. crun.
Qed.

Lemma outcome_release_symbol_table (Q : unit -> State -> Prop) (st : State) :
  sym_inv (symtab st) ->
  (forall st', table (symtab st') = None ->
               length (recs (symtab st')) = length (recs (symtab st)) ->
               remaining st' = remaining st -> Q tt st') ->
  outcome Q (sym release_symbol_table st).
Proof.
  intros Hinv H. unfold sym.
  destruct (release_symbol_table_inv _ Hinv) as (t & rs & _ & -> & Hlen & _).
  apply H; [reflexivity | exact Hlen | reflexivity].
Qed.

Lemma outcome_init_symbol_table (Q : unit -> State -> Prop) (st : State) :
  (forall st', sym_inv (symtab st') ->
               recs (symtab st') = recs (symtab st) ->
               remaining st' = remaining st -> Q tt st') ->
  outcome Q (sym init_symbol_table st).
Proof.
  intros H. unfold sym.
  destruct (init_symbol_table_inv (symtab st)) as (s1 & Heq & Hinv1 & Hrecs & _).
  rewrite Heq. apply H; [assumption | assumption | reflexivity].
Qed.

Lemma main_runs (fuel : nat) (tokens : list (Token * SourcePos))
    (eof : SourcePos) :
  Z.of_nat (length tokens) < 2 ^ 26 -> (5 * length tokens <= fuel)%nat ->
  outcome (fun _ st' => table (symtab st') = None) (main fuel tokens eof).
Proof.
  intros Hsmall Hfuel. unfold main.
  pose proof (parse_program_runs fuel) as Hprogram.
  apply outcome_bind. apply outcome_init_symbol_table.
  intros st1 Hinv1 Hrecs1 Hrem1. cbv beta.
  change (remaining (start tokens eof)) with (length tokens) in Hrem1.
  change (recs (symtab (start tokens eof))) with (@nil (option IDPropt))
    in Hrecs1.
  assert (Hl : light st1).
  { unfold light, weight. rewrite Hrecs1, Hrem1. simpl. lia. }
  crun.
  apply outcome_release_symbol_table; [assumption | intros; assumption].
Qed.

(** A run that ends well returned or reported. *)
Lemma outcome_cases {A : Type} (Q : A -> State -> Prop) (r : Res State A) :
  outcome Q r ->
  (exists a st, r = Ok a st /\ Q a st) \/ (exists d, r = Abort d).
Proof.
  destruct r as [a st|d| |]; simpl; intros H;
    [left; eauto | right; eauto | contradiction | contradiction].
Qed.

(** The same, with the diagnostic of the parser. *)
Lemma outcome_diagnostic {A : Type} (Q : A -> State -> Prop)
    (r : Res State A) :
  outcome Q r ->
  (exists a st, r = Ok a st /\ Q a st) \/
  (exists pos msg, r = Abort (Leprintf pos msg)).
Proof.
  destruct r as [a st|d| |]; simpl; intros H;
    [left; eauto | right | contradiction | contradiction].
  destruct H as (pos & msg & ->). eauto.
Qed.

End AmplcDefRuns.

(** * Properties *)

Import Hashtable HashtableSpec HashtableSearch HashtableGetsize.
Import HashtableInvariant HashtableEntries HashtableFloat.

Section HashtableClaims.
Local Open Scope Z_scope.
Context {K V : Type}.
Implicit Types (ht : HashTab K V) (k : K) (v : V).

Lemma absent_binding ht k :
  chain_search (cmp ht) k (entries ht) = None -> ~ present ht k.
Proof.
  intros H (e & He & Hc). rewrite chain_search_None in H. now apply (H e).
Qed.

(** C10.  For every well-formed hash table (every table the interface
    builds is one) and every key already present in it, [ht_insert] returns
    [HASH_TABLE_KEY_VALUE_PAIR_EXISTS] and the table it leaves is the table
    it was given: same buckets, same entry count, same size, whatever the
    load factor. *)
Theorem ht_insert_existing_key ht k v :
  ht_wf ht -> present ht k ->
  ht_insert ht k v = Some (HASH_TABLE_KEY_VALUE_PAIR_EXISTS, ht).
Proof.
  intros Hwf Hp. destruct (present_chain ht k Hwf Hp) as (b & e & Hb & Hs).
  unfold ht_insert. now rewrite Hb, Hs.
Qed.

(** When the load test of [ht_insert] succeeds on a new key, the table is
    rehashed before the insertion, and the new capacity is
    [2^(p+1) - delta[p+1]], the largest prime below [2^(p+1)], where [2^p]
    is the least power of two, from [4] on, that is not below the current
    capacity (at most [2^29], the range of the [int] arithmetic of
    [getsize]). *)
Lemma ht_insert_rehash_tested ht k v :
  ht_wf ht -> ~ present ht k ->
  (max_loadfactor ht < current_loadfactor ht)%Q ->
  size ht <= 2 ^ 29 ->
  exists p d ht1 chain,
    2 <= p <= 29 /\ size ht <= 2 ^ p /\ (p = 2 \/ 2 ^ (p - 1) < size ht) /\
    delta !! Z.to_nat (p + 1) = Some d /\
    rehash ht = Some ht1 /\ size ht1 = 2 ^ (p + 1) - d /\
    Z.prime (size ht1) /\
    (forall q, size ht1 < q < 2 ^ (p + 1) -> ~ Z.prime q) /\
    table ht1 !! Z.to_nat (hash ht k (size ht1)) = Some chain /\
    ht_insert ht k v
    = Some (EXIT_SUCCESS,
            {| table := <[Z.to_nat (hash ht k (size ht1)) :=
                            mkHTentry k v :: chain]> (table ht1);
               size := size ht1;
               num_entries := uint (num_entries ht + 1);
               max_loadfactor := max_loadfactor ht;
               idx := idx ht;
               hash := hash ht;
               cmp := cmp ht |}).
Proof.
  intros Hwf Hnew Hlf Hsz.
  destruct (getsize_total ht Hsz) as [ns Hg].
  destruct (getsize_spec ht ns Hg)
    as (p & d & Hp & Hle & Hmin & Hd & -> & Hpos).
  destruct (rehash_wf ht _ Hwf Hg)
    as (ht1 & Hr & Hwf1 & Hs1 & Hn1 & Hm1 & Hh1 & Hc1).
  destruct (wf_bucket_exists ht1 k Hwf1) as (chain & Hb1 & Hl1).
  exists p, d, ht1, chain. rewrite Hh1 in Hl1, Hb1.
  destruct (delta_largest_prime (p + 1) d ltac:(lia) Hd) as [Hprime Hgap].
  rewrite <- Hs1 in Hprime, Hgap.
  repeat (split; [assumption|]).
  destruct (wf_bucket_exists ht k Hwf) as (b & Hb & Hl).
  unfold ht_insert. rewrite Hb, (absent_chain ht k b Hnew Hl).
  assert (negb (Qle_bool (current_loadfactor ht) (max_loadfactor ht)) = true)
    as ->.
  { apply negb_true_iff. destruct (Qle_bool _ _) eqn:E; [|reflexivity].
    apply Qle_bool_iff in E. exfalso. exact (Qlt_not_le _ _ Hlf E). }
  rewrite Hr, Hh1, Hb1. f_equal. f_equal.
  assert (idx ht1 = idx ht) as Hi.
  { unfold rehash in Hr. rewrite Hg in Hr.
    destruct ((0 <=? size ht) && _); [|discriminate].
    destruct (fold_left _ _ _); [|discriminate]. now injection Hr as <-. }
  now rewrite Hn1, Hm1, Hi, Hc1.
Qed.

(** The load test computes in [float]: on a table of 16777213 slots with
    12582909 entries the quotient 12582910 / 16777213, which is above 0.75,
    rounds to 0.75, and the next key is inserted without a rehash. *)
Lemma load_test_rounds ht :
  size ht = 16777213 -> num_entries ht = 12582909 ->
  max_loadfactor ht = 3 # 4 ->
  3 * size ht < 4 * uint (num_entries ht + 1) /\
  negb (Qle_bool (current_loadfactor ht) (max_loadfactor ht)) = false.
Proof.
  intros Hs Hn Hlf. unfold current_loadfactor. rewrite Hs, Hn, Hlf.
  split; vm_compute; reflexivity.
Qed.

(** C8, as amended.  On a table with the threshold 0.75 and at most [2^22]
    slots, where the rounding of the [float] quotient does not change the
    outcome of the load test: when the insertion of a new key would raise
    the load factor, the entries with the new one over the slots, strictly
    above 0.75, the table is rehashed before the insertion, and the new
    capacity is [2^(p+1) - delta[p+1]], the largest prime below [2^(p+1)],
    where [2^p] is the least power of two, from [4] on, that is not below
    the current capacity. *)
Theorem ht_insert_rehash_capacity ht k v :
  ht_wf ht -> ~ present ht k ->
  max_loadfactor ht = 3 # 4 -> size ht <= 2 ^ 22 ->
  3 * size ht < 4 * uint (num_entries ht + 1) ->
  exists p d ht1 chain,
    2 <= p <= 29 /\ size ht <= 2 ^ p /\ (p = 2 \/ 2 ^ (p - 1) < size ht) /\
    delta !! Z.to_nat (p + 1) = Some d /\
    rehash ht = Some ht1 /\ size ht1 = 2 ^ (p + 1) - d /\
    Z.prime (size ht1) /\
    (forall q, size ht1 < q < 2 ^ (p + 1) -> ~ Z.prime q) /\
    table ht1 !! Z.to_nat (hash ht k (size ht1)) = Some chain /\
    ht_insert ht k v
    = Some (EXIT_SUCCESS,
            {| table := <[Z.to_nat (hash ht k (size ht1)) :=
                            mkHTentry k v :: chain]> (table ht1);
               size := size ht1;
               num_entries := uint (num_entries ht + 1);
               max_loadfactor := max_loadfactor ht;
               idx := idx ht;
               hash := hash ht;
               cmp := cmp ht |}).
Proof.
  intros Hwf Hnew Hlf Hsz Hload.
  apply ht_insert_rehash_tested; [assumption | assumption | | lia].
  rewrite Hlf. unfold current_loadfactor.
  apply float_div_exceeds;
    [ | unfold uint; apply Z.mod_pos_bound; lia | exact Hload ].
  split; [exact (proj1 (wf_size ht Hwf)) | exact Hsz].
Qed.

(** The converse case: at or below the threshold a new key is inserted
    without a rehash. *)
Lemma ht_insert_no_rehash ht k v :
  ht_wf ht -> ~ present ht k ->
  (current_loadfactor ht <= max_loadfactor ht)%Q ->
  exists chain,
    table ht !! Z.to_nat (hash ht k (size ht)) = Some chain /\
    ht_insert ht k v
    = Some (EXIT_SUCCESS,
            {| table := <[Z.to_nat (hash ht k (size ht)) :=
                            mkHTentry k v :: chain]> (table ht);
               size := size ht;
               num_entries := uint (num_entries ht + 1);
               max_loadfactor := max_loadfactor ht;
               idx := idx ht;
               hash := hash ht;
               cmp := cmp ht |}).
Proof.
  intros Hwf Hnew Hlf.
  destruct (wf_bucket_exists ht k Hwf) as (b & Hb & Hl).
  exists b. split; [assumption|].
  unfold ht_insert. rewrite Hb, (absent_chain ht k b Hnew Hl).
  apply Qle_bool_iff in Hlf. rewrite Hlf. simpl. now rewrite Hb.
Qed.

End HashtableClaims.

Section SampleTable.
Import Symboltable SymboltableSpec SymboltableHash.
Local Open Scope Z_scope.
Local Open Scope string_scope.

Lemma insert_keys_wf (ks : list string) :
  forall ht, ht_wf ht -> ht_wf (insert_keys ks ht).
Proof.
  induction ks as [|k ks IH]; intros ht Hwf; simpl; [assumption|].
  destruct (Hashtable.ht_insert ht k 0%nat) as [[code ht']|] eqn:E;
    [|assumption].
  apply IH. exact (ht_insert_wf _ _ _ _ _ Hwf E).
Qed.

Lemma nine_names_wf : ht_wf nine_names.
Proof. apply insert_keys_wf. exact (built_wf _ new_table_built). Qed.

Lemma ht_insert_existing_key_witness :
  ht_wf nine_names /\ present nine_names "c" /\
  Hashtable.ht_insert nine_names "c" 5%nat
  = Some (HASH_TABLE_KEY_VALUE_PAIR_EXISTS, nine_names).
Proof.
  assert (present nine_names "c") as Hp.
  { exists (mkHTentry "c" 0%nat). split; [|reflexivity].
    vm_compute. repeat (try (left; reflexivity); right). }
  split; [exact nine_names_wf|]. split; [exact Hp|].
  exact (ht_insert_existing_key nine_names "c" 5%nat nine_names_wf Hp).
Defined.

(** C8, counterexample.  A table of capacity 13 holds nine names; inserting
    a tenth, new name raises the load factor to 10/13, above 0.75.  The
    table is rehashed to capacity 31, while 29 is a prime above twice 13 and
    below 31. *)
Lemma rehash_capacity_not_next_prime :
  Hashtable.size nine_names = 13 /\
  num_entries nine_names = 9 /\
  binding nine_names "j" = None /\
  (max_loadfactor nine_names < current_loadfactor nine_names)%Q /\
  option_map (fun r => (fst r, Hashtable.size (snd r)))
    (Hashtable.ht_insert nine_names "j" 9%nat) = Some (EXIT_SUCCESS, 31) /\
  Z.prime 29 /\ 2 * 13 < 29 < 31.
Proof.
  split; [vm_compute; reflexivity|]. split; [vm_compute; reflexivity|].
  split; [vm_compute; reflexivity|]. split; [vm_compute; reflexivity|].
  split; [vm_compute; reflexivity|].
  split; [apply Primes.is_prime_correct; vm_compute; reflexivity | lia].
Qed.

Lemma ht_insert_rehash_capacity_witness :
  ht_wf nine_names /\ ~ present nine_names "j" /\
  max_loadfactor nine_names = 3 # 4 /\
  Hashtable.size nine_names <= 2 ^ 22 /\
  3 * Hashtable.size nine_names < 4 * uint (num_entries nine_names + 1) /\
  exists p d ht1 chain,
    2 <= p <= 29 /\ Hashtable.size nine_names <= 2 ^ p /\
    (p = 2 \/ 2 ^ (p - 1) < Hashtable.size nine_names) /\
    delta !! Z.to_nat (p + 1) = Some d /\
    rehash nine_names = Some ht1 /\ Hashtable.size ht1 = 2 ^ (p + 1) - d /\
    Z.prime (Hashtable.size ht1) /\
    (forall q, Hashtable.size ht1 < q < 2 ^ (p + 1) -> ~ Z.prime q) /\
    Hashtable.table ht1
      !! Z.to_nat (hash nine_names "j" (Hashtable.size ht1)) = Some chain /\
    Hashtable.ht_insert nine_names "j" 9%nat
    = Some (EXIT_SUCCESS,
            {| Hashtable.table :=
                 <[Z.to_nat (hash nine_names "j" (Hashtable.size ht1)) :=
                     mkHTentry "j" 9%nat :: chain]> (Hashtable.table ht1);
               Hashtable.size := Hashtable.size ht1;
               num_entries := uint (num_entries nine_names + 1);
               max_loadfactor := max_loadfactor nine_names;
               idx := idx nine_names;
               hash := hash nine_names;
               cmp := cmp nine_names |}).
Proof.
  assert (~ present nine_names "j") as Hn
    by (apply absent_binding; reflexivity).
  assert (max_loadfactor nine_names = 3 # 4) as Hlf by reflexivity.
  assert (Hashtable.size nine_names <= 2 ^ 22) as Hsz
    by (vm_compute; discriminate).
  assert (3 * Hashtable.size nine_names
          < 4 * uint (num_entries nine_names + 1)) as Hload
    by (vm_compute; reflexivity).
  repeat (split; [assumption || exact nine_names_wf|]).
  exact (ht_insert_rehash_capacity nine_names "j" 9%nat nine_names_wf
           Hn Hlf Hsz Hload).
Defined.

End SampleTable.

Section SymboltableClaims.
Import Symboltable SymboltableSpec SymboltableHash SymboltableSteps.
Import SymboltableInvariant.
Local Open Scope Z_scope.
Local Open Scope string_scope.

(** C3.  For every name [n], in a state whose scopes are well formed,
    [find_name] returns the binding of [n] in the current scope when there is
    one; otherwise it returns the binding of the saved outer scope only if
    that binding is callable, and it yields not-found when the outer binding
    is not callable or when neither scope binds [n] (which includes the case
    of no saved scope).  The state is unchanged. *)
Theorem find_name_scope_rule (n : string) (s : SymTab) :
  sym_ok s ->
  find_name n s
  = Ok match scope_binding s (table s) n with
       | Some p => Some p
       | None =>
           match saved_table s with
           | None => None
           | Some outer =>
               match scope_binding s (Some outer) n with
               | Some p => if callable s p then Some p else None
               | None => None
               end
           end
       end s.
Proof.
  intros Hok. rewrite (find_name_refines n s Hok). unfold find_name_spec.
  destruct (scope_binding s (table s) n); [reflexivity|].
  now destruct (saved_table s).
Qed.

Lemma scope_f_x_ok : sym_ok scope_f_x.
Proof.
  assert (sym_ok scope_global) as H1.
  { apply (init_symbol_table_ok records_only).
    apply returned_state_of. reflexivity. }
  assert (sym_ok scope_global_v) as H2.
  { apply (insert_name_ok "v" 0%nat scope_global scope_global_v true);
      [ apply returned_state_of; vm_compute; reflexivity
      | eexists; vm_compute; reflexivity
      | exact H1 ]. }
  assert (sym_ok scope_f) as H3.
  { apply (open_subroutine_ok "f" 2%nat scope_global_v scope_f);
      [ apply returned_state_of; vm_compute; reflexivity
      | eexists; vm_compute; reflexivity
      | exact H2 ]. }
  apply (insert_name_ok "x" 1%nat scope_f scope_f_x true);
    [ apply returned_state_of; vm_compute; reflexivity
    | eexists; vm_compute; reflexivity
    | exact H3 ].
Qed.

Lemma find_name_scope_rule_witness :
  sym_ok scope_f_x /\
  returned (find_name "x" scope_f_x) = Some (Some 1%nat) /\
  returned (find_name "f" scope_f_x) = Some (Some 2%nat) /\
  returned (find_name "v" scope_f_x) = Some None /\
  returned (find_name "w" scope_f_x) = Some None.
Proof.
  split; [exact scope_f_x_ok|].
  rewrite (find_name_scope_rule "x" scope_f_x scope_f_x_ok).
  rewrite (find_name_scope_rule "f" scope_f_x scope_f_x_ok).
  rewrite (find_name_scope_rule "v" scope_f_x scope_f_x_ok).
  rewrite (find_name_scope_rule "w" scope_f_x scope_f_x_ok).
  vm_compute. repeat split; reflexivity.
Defined.


(** C9.  After every call of [close_subroutine] that returns,
    [get_variables_width] is 1; and the frame width that [open_subroutine]
    saved is never read back: the outcome of [close_subroutine] does not
    depend on [saved_offset], which it carries along unchanged. *)
Theorem close_subroutine_resets_width (s : SymTab) :
  (forall s', close_subroutine s = Ok tt s' ->
              get_variables_width s' = 1 /\ saved_offset s' = saved_offset s) /\
  (forall v, close_subroutine (set_saved_offset v s)
             = res_map (set_saved_offset v) (close_subroutine s)).
Proof.
  split.
  - intros s'. unfold close_subroutine, release_symbol_table.
    destruct (table s) as [q|]; simpl.
    + destruct (deref (tabs s) q); [|discriminate].
      destruct (ht_free_values _); [|discriminate].
      destruct (fold_left freeprop _ _); [|discriminate].
      intros [= <-]. split; reflexivity.
    + intros [= <-]. split; reflexivity.
  - intros v. unfold close_subroutine, release_symbol_table. simpl.
    destruct (table s) as [q|]; simpl; [|reflexivity].
    destruct (deref (tabs s) q); [|reflexivity].
    destruct (ht_free_values _); [|reflexivity].
    now destruct (fold_left freeprop _ _).
Qed.

Lemma close_subroutine_resets_width_witness :
  saved_offset scope_f_x = 2 /\
  close_subroutine scope_f_x = Ok tt scope_closed /\
  get_variables_width scope_closed = 1 /\
  saved_offset scope_closed = saved_offset scope_f_x.
Proof.
  assert (close_subroutine scope_f_x = Ok tt scope_closed) as Hc
    by (apply returned_state_of; vm_compute; reflexivity).
  split; [vm_compute; reflexivity|]. split; [exact Hc|].
  exact (proj1 (close_subroutine_resets_width scope_f_x) scope_closed Hc).
Defined.

End SymboltableClaims.

Section AmplcClaims.
Import Token Amplc AmplcSpec AmplcSteps.
Local Open Scope Z_scope.
Local Open Scope string_scope.

(** C1.  In the procedure [g] of
    [program p: g(int x): return main: chillax] the bare [return], which
    the claim accepts, is rejected: [parse_return] tests for a procedure
    right after the keyword, before it looks for an expression, and the
    compilation stops there with the diagnostic of
    [ERR_RETURN_EXPRESSION_NOT_ALLOWED], although no expression follows. *)
Theorem procedure_bare_return_rejected :
  main 50 procedure_bare_return procedure_bare_return_eof
  = Abort (Leprintf (mkSourcePos 1 29)
             (Some "a return expression is not allowed for a procedure"))
  /\ returned (main 50 procedure_bare_return procedure_bare_return_eof)
     = None.
Proof. split; vm_compute; reflexivity. Qed.

(** In a function, [return e] with an expression of the declared type is
    accepted: [program p: f(int x) -> int: return x + 1 main: chillax]
    compiles. *)
Example function_return_accepted :
  returned (main 50 function_return function_return_eof) = Some tt.
Proof. vm_compute. reflexivity. Qed.

(** C2.  The call [g()] of the procedure [g(int x)] passes no argument for
    one parameter, and [program p: g(int x): chillax main: g()] is accepted
    without [ERR_TOO_FEW_ARGUMENTS]: [parse_arglist] compares the argument
    count with [nparams] only inside the branch taken when an expression
    starts. *)
Theorem call_without_arguments_accepted :
  returned (main 50 call_no_arguments call_no_arguments_eof) = Some tt.
Proof. vm_compute. reflexivity. Qed.

(** The other two arities of the same call site are rejected:
    [g(1,2)] for [g(int x)] and [h(1)] for [h(int x, int y)]. *)
Example too_many_arguments_rejected :
  main 50 too_many_arguments too_many_arguments_eof
  = Abort (Leprintf (mkSourcePos 1 39)
             (Some "too many arguments for call to 'g'")).
Proof. vm_compute. reflexivity. Qed.

Example too_few_arguments_rejected :
  main 50 too_few_arguments too_few_arguments_eof
  = Abort (Leprintf (mkSourcePos 1 46)
             (Some "too few arguments for call to 'h'")).
Proof. vm_compute. reflexivity. Qed.

(** C5.  In [program p: f(int x) -> int: return 1 main: f(1)] the function
    [f] is called as a statement.  Compilation stops at the identifier, in
    the early test of [parse_call], but [abort_c(ERR_NOT_A_PROCEDURE)] is
    called there without the identifier, so the text formatted from
    ['%s' is not a procedure] is indeterminate. *)
Theorem function_call_statement_diagnostic :
  main 50 function_as_statement function_as_statement_eof
  = Abort (Leprintf (mkSourcePos 1 44) None).
Proof. vm_compute. reflexivity. Qed.

(** The later call site of [parse_call] passes the identifier: a variable
    called as a statement in [program p: main: int x; x()]. *)
Example variable_call_statement_diagnostic :
  main 50 variable_as_statement variable_as_statement_eof
  = Abort (Leprintf (mkSourcePos 1 25) (Some "'x' is not a procedure")).
Proof. vm_compute. reflexivity. Qed.

(** C6, counterexample.  The input whose first token is [main], on line 2:
    the missing [program] is reported at line 2, column 1. *)
Lemma missing_program_not_at_origin :
  main 50 main_on_second_line main_on_second_line_eof
  = Abort (Leprintf (mkSourcePos 2 1)
             (Some "expected 'program', but found 'main'"))
  /\ mkSourcePos 2 1 <> mkSourcePos 1 0.
Proof. split; [vm_compute; reflexivity | discriminate]. Qed.

(** C6, as amended.  For the empty input the [ERR_EXPECT] diagnostic for the
    missing [program] is reported at line 1, column 0; for an input whose
    first token is another token than [program] it is reported at the
    position of that token. *)
Theorem missing_program_position (fuel : nat)
    (tokens : list (Token * SourcePos)) (eof : SourcePos) :
  match tokens with
  | [] =>
      main fuel tokens eof
      = Abort (Leprintf (mkSourcePos 1 0)
                 (Some ("expected " ++ get_token_string TOK_PROGRAM
                        ++ ", but found " ++ get_token_string TOK_EOF)))
  | (t, p) :: _ =>
      type t <> TOK_PROGRAM -> type t <> TOK_EOF ->
      main fuel tokens eof
      = Abort (Leprintf p
                 (Some ("expected " ++ get_token_string TOK_PROGRAM
                        ++ ", but found " ++ get_token_string (type t))))
  end.
Proof.
  destruct tokens as [|[[ty lx] p] rest]; [reflexivity|].
  simpl. intros Hp He. unfold main, start, bind, sym, advance, modify. simpl.
  unfold parse_program, bind, is_tok, get, when, expect. simpl.
  destruct ty; try congruence; reflexivity.
Qed.

Lemma missing_program_position_witness :
  main 50 [] (mkSourcePos 1 1)
  = Abort (Leprintf (mkSourcePos 1 0)
             (Some "expected 'program', but found end-of-file")) /\
  main 50 [kw TOK_MAIN 1 1] (mkSourcePos 1 5)
  = Abort (Leprintf (mkSourcePos 1 1)
             (Some "expected 'program', but found 'main'")).
Proof.
  split.
  - exact (missing_program_position 50 [] (mkSourcePos 1 1)).
  - apply (missing_program_position 50 [kw TOK_MAIN 1 1] (mkSourcePos 1 5));
      simpl; discriminate.
Defined.

(** C7, counterexample.  On [program p: f()->int: return 1 main: chillax]
    no fuel makes the compilation stop at [main] with
    [expected ':', but found 'main']. *)
Lemma scenario6_not_rejected_at_main :
  ~ exists fuel,
      main fuel scenario6 scenario6_eof
      = Abort (Leprintf (mkSourcePos 1 31)
                 (Some "expected ':', but found 'main'")).
Proof. intros [[|fuel] H]; vm_compute in H; discriminate. Qed.

(** C7, as amended.  For the input
    [program p: f()->int: return 1 main: chillax] compilation is rejected at
    the token [)] of the empty parameter list, with the diagnostic text
    [expected type specifier, but found ')']. *)
Theorem scenario6_rejected_at_rparen (fuel : nat) :
  main (S fuel) scenario6 scenario6_eof
  = Abort (Leprintf (mkSourcePos 1 14)
             (Some "expected type specifier, but found ')'")).
Proof. reflexivity. Qed.

End AmplcClaims.

(** * Further properties: the hash table *)

Section HashtableProperties.
Import HashtableKeys HashtablePermutation HashtableLoad HashtableFloat.
Local Open Scope Z_scope.
Context {K V : Type}.
Implicit Types (ht : HashTab K V) (k : K) (v : V) (e : HTentry K V).

(** X1.  On a well-formed table [ht_search] does not fault; it returns
    [NULL] exactly when no entry of the table has a key that compares equal
    to the given one, and otherwise the value of an entry whose key compares
    equal. *)
Theorem ht_search_sound ht k :
  ht_wf ht ->
  match ht_search ht k with
  | Some (Some v) =>
      exists e, In e (entries ht) /\ cmp ht k (key e) = 0 /\ value e = v
  | Some None => forall e, In e (entries ht) -> cmp ht k (key e) <> 0
  | None => False
  end.
Proof.
  intros Hwf. rewrite (ht_search_binding ht k Hwf). unfold binding.
  destruct (chain_search (cmp ht) k (entries ht)) as [e|] eqn:E; simpl.
  - apply chain_search_Some in E as [Hin Hc]. now exists e.
  - now apply chain_search_None.
Qed.

(** X2.  Insert, then look up: after [ht_insert] has stored a key with a
    value in a well-formed table, with or without a rehash, [ht_search]
    finds that value under the key (a key compares equal to itself). *)
Theorem ht_insert_then_search ht k v ht' :
  ht_wf ht -> cmp ht k k = 0 ->
  ht_insert ht k v = Some (EXIT_SUCCESS, ht') ->
  ht_search ht' k = Some (Some v).
Proof.
  intros Hwf Hrefl H.
  destruct (ht_insert_success _ _ _ _ H)
    as (b & ht1 & chain & _ & _ & Hre & Hc & ->).
  assert (cmp ht1 = cmp ht) as Hcmp.
  { destruct Hre as [[_ ->]|[_ Hr]]; [reflexivity|].
    now destruct (rehash_fields _ _ Hr) as (_ & _ & _ & _ & _ & ->). }
  apply bucket_Some in Hc as [Hpos Hc].
  unfold ht_search. simpl. rewrite bucket_lookup by assumption.
  rewrite list_lookup_insert_eq by (apply lookup_lt_Some in Hc; exact Hc).
  simpl. rewrite Hcmp, Hrefl. reflexivity.
Qed.

(** X3.  A successful insertion adds exactly the new entry: the entries of
    the table afterwards are the new entry and the old entries, each once,
    also when the table was rehashed on the way. *)
Theorem ht_insert_adds_one_entry ht k v ht' :
  ht_wf ht -> ht_insert ht k v = Some (EXIT_SUCCESS, ht') ->
  Permutation (entries ht') (mkHTentry k v :: entries ht) /\
  num_entries ht' = uint (num_entries ht + 1).
Proof.
  intros Hwf H. split; [exact (ht_insert_perm ht k v ht' Hwf H)|].
  destruct (ht_insert_success _ _ _ _ H)
    as (b & ht1 & chain & _ & _ & Hre & _ & ->). simpl.
  destruct Hre as [[_ ->]|[_ Hr]]; [reflexivity|].
  now destruct (rehash_fields _ _ Hr) as (_ & -> & _).
Qed.

(** X4.  An insertion does not disturb the other keys: when the comparison
    is an equivalence and the keys of the table are distinct, [ht_search]
    for a key that does not compare equal to the inserted one returns after
    [ht_insert] what it returned before, whatever the outcome of the
    insertion and also across a rehash. *)
Theorem ht_insert_other_keys ht k v code ht' k' :
  ht_wf ht -> cmp_equiv (cmp ht) -> distinct_keys (cmp ht) (entries ht) ->
  ht_insert ht k v = Some (code, ht') -> cmp ht k' k <> 0 ->
  ht_search ht' k' = ht_search ht k'.
Proof.
  intros Hwf Heq Hd H Hne.
  destruct (ht_insert_codes _ _ _ _ _ H) as [->|(_ & -> & _)];
    [|reflexivity].
  pose proof (ht_insert_wf _ _ _ _ _ Hwf H) as Hwf'.
  destruct (ht_insert_cmp _ _ _ _ _ H) as (Hcmp & _ & _).
  rewrite (ht_search_binding _ _ Hwf'), (ht_search_binding _ _ Hwf).
  unfold binding. rewrite Hcmp. do 2 f_equal.
  pose proof (ht_insert_perm _ _ _ _ Hwf H) as Hp.
  destruct Heq as (Hrefl & Hsym & Htrans).
  rewrite <- (chain_search_perm (cmp ht) k' _ _
                (conj Hrefl (conj Hsym Htrans)) (Permutation_sym Hp)).
  - simpl. destruct (cmp ht k' k =? 0) eqn:E; [|reflexivity].
    apply Z.eqb_eq in E. contradiction.
  - simpl. split; [|assumption].
    destruct (ht_insert_success _ _ _ _ H) as (b & _ & _ & Hb & Hc & _).
    exact (absent_everywhere ht k b Hwf Hb Hc).
Qed.

(** X5.  Every table that the interface builds with a comparison that is an
    equivalence holds each key at most once. *)
Theorem built_distinct_keys ht :
  built ht -> cmp_equiv (cmp ht) -> distinct_keys (cmp ht) (entries ht).
Proof.
  induction 1 as [lf h c Hr Hc | ht k v code ht' Hb IH Hi]; intros Heq.
  - exact I.
  - destruct (ht_insert_cmp _ _ _ _ _ Hi) as (Hcmp & _ & _).
    rewrite Hcmp in *.
    apply (ht_insert_distinct ht k v code ht' (built_wf ht Hb));
      [apply Heq | assumption | now apply IH].
Qed.

(** X6.  In every table that the interface builds, [num_entries] is the
    number of entries that the buckets hold (as an [unsigned int]). *)
Theorem built_num_entries ht :
  built ht -> num_entries ht = uint (Z.of_nat (length (entries ht))).
Proof.
  induction 1 as [lf h c Hr Hc | ht k v code ht' Hb IH Hi].
  - reflexivity.
  - destruct (ht_insert_codes _ _ _ _ _ Hi) as [->|(_ & -> & _)];
      [|assumption].
    destruct (ht_insert_adds_one_entry ht k v ht' (built_wf ht Hb) Hi)
      as [Hp ->].
    rewrite (Permutation_length Hp), IH. simpl length.
    rewrite uint_succ. f_equal. lia.
Qed.

(** X7.  The capacity of every table that the interface builds is a prime
    number, from 13 on. *)
Theorem built_capacity_prime ht :
  built ht -> Z.prime (size ht) /\ 13 <= size ht.
Proof.
  induction 1 as [lf h c Hr Hc | ht k v code ht' Hb [IHp IHs] Hi].
  - simpl. split; [|lia]. apply Primes.is_prime_correct. reflexivity.
  - destruct (ht_insert_codes _ _ _ _ _ Hi) as [->|(_ & -> & _)];
      [|auto].
    destruct (ht_insert_success _ _ _ _ Hi)
      as (b & ht1 & chain & _ & _ & Hre & _ & ->). simpl.
    destruct Hre as [[_ ->]|[_ Hr]]; [auto|].
    destruct (rehash_fields _ _ Hr) as (Hg & _).
    pose proof (getsize_bounds ht _ Hg ltac:(lia)) as Hgrow.
    split; [|lia].
    destruct (getsize_spec ht _ Hg) as (p & d & Hp & _ & _ & Hd & -> & _).
    exact (proj1 (delta_largest_prime (p + 1) d ltac:(lia) Hd)).
Qed.

(** X8.  [getsize] makes progress: for a table of at least two buckets the
    capacity it computes exceeds the current one by at least two and stays
    below four times the current one. *)
Theorem getsize_grows ht ns :
  getsize ht = Some ns -> 2 <= size ht -> size ht + 2 <= ns < 4 * size ht.
Proof. exact (getsize_bounds ht ns). Qed.

(** X9.  The load stays below the maximum: in every table that the
    interface builds with the maximal load factor 0.75 and at most [2^22]
    slots, where the rounding of the [float] quotient does not change the
    outcome of the load test, the number of entries divided by the capacity
    does not exceed 0.75. *)
Theorem built_load_bounded ht :
  built ht -> max_loadfactor ht = 3 # 4 -> size ht <= 2 ^ 22 ->
  (loadfactor ht <= max_loadfactor ht)%Q.
Proof.
  intros Hb Hlf Hsz. rewrite Hlf. unfold loadfactor.
  destruct (built_capacity_prime ht Hb) as [_ H13].
  apply (proj2 (quotient_le _ (size ht) (3 # 4) ltac:(lia))).
  change (num_entries ht * 4 <= 3 * size ht).
  induction Hb as [lf h c Hr Hc | ht k v code ht' Hb IH Hi].
  - simpl. lia.
  - destruct (ht_insert_cmp _ _ _ _ _ Hi) as (_ & _ & Hmax).
    rewrite Hmax in Hlf.
    destruct (built_capacity_prime ht Hb) as [_ H13'].
    destruct (ht_insert_codes _ _ _ _ _ Hi) as [->|(_ & -> & _)];
      [|now apply IH].
    pose proof (built_num_entries ht Hb) as Hn.
    pose proof (uint_range (Z.of_nat (length (entries ht)))) as Hrange.
    rewrite <- Hn in Hrange.
    pose proof (uint_range (num_entries ht + 1)) as Hrange1.
    destruct (ht_insert_success _ _ _ _ Hi)
      as (b & ht1 & chain & _ & _ & Hre & _ & ->). simpl in *.
    destruct Hre as [[Hq ->]|[_ Hr]].
    + destruct (Z.le_gt_cases (uint (num_entries ht + 1) * 4) (3 * size ht))
        as [|Hover]; [assumption|exfalso].
      assert (3 # 4 < current_loadfactor ht)%Q as HT.
      { unfold current_loadfactor.
        apply float_div_exceeds; [lia | lia | lia]. }
      apply Qle_bool_iff in Hq. rewrite Hlf in Hq.
      exact (Qlt_not_le _ _ HT Hq).
    + destruct (rehash_fields _ _ Hr) as (Hg & Hs1 & _).
      pose proof (getsize_bounds ht _ Hg ltac:(lia)) as Hgrow.
      rewrite Hs1 in *.
      pose proof (uint_le (num_entries ht + 1) ltac:(lia)) as Hu.
      specialize (IH Hlf ltac:(lia) H13'). lia.
Qed.

(** X10.  [ht_free] on a well-formed table hands every stored value to
    [freeval], each entry once, in bucket order; the three spare slots that
    [ht_init] allocates beyond the capacity never hold an entry. *)
Theorem ht_free_values_all ht :
  ht_wf ht -> ht_free_values ht = Some (map value (entries ht)).
Proof.
  intros Hwf. unfold ht_free_values. rewrite (wf_take_entries ht Hwf).
  destruct Hwf as [Hs _ _ _].
  assert ((0 <=? size ht) && (size ht <=? Z.of_nat (length (table ht))) = true)
    as ->; [|reflexivity].
  apply andb_true_iff. split; apply Z.leb_le; lia.
Qed.

End HashtableProperties.

Section HashtablePropertiesSample.
Import HashtableKeys HashtablePermutation HashtableLoad.
Import Symboltable SymboltableSpec SymboltableSamples SymboltableHash.
Import SymboltableStrings.
Local Open Scope Z_scope.
Local Open Scope string_scope.

Lemma ht_search_sound_witness :
  ht_wf nine_names /\
  (exists e, In e (entries nine_names) /\
             cmp nine_names "c" (key e) = 0 /\ value e = 0%nat) /\
  (forall e, In e (entries nine_names) -> cmp nine_names "z" (key e) <> 0).
Proof.
  pose proof (ht_search_sound nine_names "c" nine_names_wf) as Hc.
  pose proof (ht_search_sound nine_names "z" nine_names_wf) as Hz.
  assert (Hashtable.ht_search nine_names "c" = Some (Some 0%nat)) as Ec
    by (vm_compute; reflexivity).
  assert (Hashtable.ht_search nine_names "z" = Some None) as Ez
    by (vm_compute; reflexivity).
  rewrite Ec in Hc. rewrite Ez in Hz.
  exact (conj nine_names_wf (conj Hc Hz)).
Defined.

Lemma ht_insert_then_search_witness :
  ht_wf nine_names /\ cmp nine_names "j" "j" = 0 /\
  Hashtable.ht_insert nine_names "j" 0%nat = Some (EXIT_SUCCESS, ten_names) /\
  Hashtable.size ten_names = 31 /\
  Hashtable.ht_search ten_names "j" = Some (Some 0%nat).
Proof.
  assert (cmp nine_names "j" "j" = 0) as Hrefl by (vm_compute; reflexivity).
  split; [exact nine_names_wf|]. split; [exact Hrefl|].
  split; [exact tenth_name_inserted|].
  split; [vm_compute; reflexivity|].
  exact (ht_insert_then_search nine_names "j" 0%nat ten_names nine_names_wf
           Hrefl tenth_name_inserted).
Defined.

Lemma ht_insert_adds_one_entry_witness :
  Permutation (entries ten_names) (mkHTentry "j" 0%nat :: entries nine_names)
  /\ num_entries ten_names = uint (num_entries nine_names + 1).
Proof.
  exact (ht_insert_adds_one_entry nine_names "j" 0%nat ten_names
           nine_names_wf tenth_name_inserted).
Defined.

Lemma ht_insert_other_keys_witness :
  cmp nine_names "c" "j" <> 0 /\
  Hashtable.ht_search ten_names "c" = Hashtable.ht_search nine_names "c".
Proof.
  assert (cmp nine_names "c" "j" <> 0) as Hne by (vm_compute; discriminate).
  split; [exact Hne|].
  exact (ht_insert_other_keys nine_names "j" 0%nat EXIT_SUCCESS ten_names "c"
           nine_names_wf nine_names_equiv nine_names_distinct
           tenth_name_inserted Hne).
Defined.

Lemma built_distinct_keys_witness :
  built ten_names /\ cmp_equiv (cmp ten_names) /\
  distinct_keys (cmp ten_names) (entries ten_names).
Proof.
  assert (cmp_equiv (cmp ten_names)) as Heq
    by (rewrite ten_names_cmp; exact key_strcmp_equiv).
  split; [exact ten_names_built|]. split; [exact Heq|].
  exact (built_distinct_keys ten_names ten_names_built Heq).
Defined.

Lemma built_num_entries_witness :
  built ten_names /\ length (entries ten_names) = 10%nat /\
  num_entries ten_names = uint (Z.of_nat (length (entries ten_names))).
Proof.
  split; [exact ten_names_built|]. split; [vm_compute; reflexivity|].
  exact (built_num_entries ten_names ten_names_built).
Defined.

Lemma built_capacity_prime_witness :
  built ten_names /\ Hashtable.size ten_names = 31 /\
  Z.prime (Hashtable.size ten_names) /\ 13 <= Hashtable.size ten_names.
Proof.
  split; [exact ten_names_built|]. split; [vm_compute; reflexivity|].
  exact (built_capacity_prime ten_names ten_names_built).
Defined.

Lemma getsize_grows_witness :
  getsize nine_names = Some 31 /\ 2 <= Hashtable.size nine_names /\
  Hashtable.size nine_names + 2 <= 31 < 4 * Hashtable.size nine_names.
Proof.
  assert (getsize nine_names = Some 31) as Hg by (vm_compute; reflexivity).
  assert (2 <= Hashtable.size nine_names) as Hs by (vm_compute; discriminate).
  split; [exact Hg|]. split; [exact Hs|].
  exact (getsize_grows nine_names 31 Hg Hs).
Defined.

Lemma built_load_bounded_witness :
  built ten_names /\ max_loadfactor ten_names = 3 # 4 /\
  Hashtable.size ten_names <= 2 ^ 22 /\
  (loadfactor ten_names <= max_loadfactor ten_names)%Q.
Proof.
  assert (max_loadfactor ten_names = 3 # 4) as Hlf by reflexivity.
  assert (Hashtable.size ten_names <= 2 ^ 22) as Hsz
    by (vm_compute; discriminate).
  split; [exact ten_names_built|]. split; [exact Hlf|].
  split; [exact Hsz|].
  exact (built_load_bounded ten_names ten_names_built Hlf Hsz).
Defined.

Lemma ht_free_values_all_witness :
  ht_wf ten_names /\ length (entries ten_names) = 10%nat /\
  ht_free_values ten_names = Some (map value (entries ten_names)).
Proof.
  pose proof (built_wf ten_names ten_names_built) as Hwf.
  split; [exact Hwf|]. split; [vm_compute; reflexivity|].
  exact (ht_free_values_all ten_names Hwf).
Defined.

End HashtablePropertiesSample.

(** * Further properties: the symbol table *)

Section SymboltableHashProperties.
Import Symboltable SymboltableSpec SymboltableSamples SymboltableHash.
Import SymboltableStrings SymboltableHashBits.
Local Open Scope Z_scope.
Local Open Scope string_scope.

(** X11.  [shift_hash] and [key_strcmp] meet the contract that the hash
    table relies on: for every positive table size the hash of a key is a
    bucket index below the size, and two keys that [key_strcmp] finds equal
    have the same hash, so that a key is always searched in the bucket where
    an equal key was stored. *)
Theorem shift_hash_contract :
  (forall (k : string) (size : Z), 0 < size -> 0 <= shift_hash k size < size) /\
  (forall (k k' : string) (size : Z),
     key_strcmp k k' = 0 -> shift_hash k size = shift_hash k' size).
Proof. split; [exact shift_hash_range | exact key_strcmp_shift_hash]. Qed.

(** X12.  [shift_hash] looks at the last seven characters of a key only:
    each step shifts the 32-bit hash left by five bits, so two keys without
    NUL that end in the same seven (or more) characters have the same hash
    for every table size, whatever comes before. *)
Theorem shift_hash_last_seven (p p' s : string) (size : Z) :
  no_nul p = true -> no_nul p' = true -> no_nul s = true ->
  (7 <= String.length s)%nat ->
  shift_hash (p ++ s) size = shift_hash (p' ++ s) size.
Proof.
  intros Hp Hp' Hs Hlen. unfold shift_hash.
  rewrite !shift_hash_loop_app by assumption.
  rewrite (shift_hash_loop_forgets s (shift_hash_loop p 0)
             (shift_hash_loop p' 0)); [reflexivity | assumption | assumption
    | apply shift_hash_loop_high | apply shift_hash_loop_high];
    intros i Hi; apply Z.bits_0.
Qed.

Lemma shift_hash_last_seven_witness :
  shift_hash "total_counter" 13 = shift_hash "x_counter" 13 /\
  shift_hash "total_counter" 31 = shift_hash "x_counter" 31.
Proof.
  split.
  - exact (shift_hash_last_seven "total_" "x_" "counter" 13
             eq_refl eq_refl eq_refl ltac:(simpl; lia)).
  - exact (shift_hash_last_seven "total_" "x_" "counter" 31
             eq_refl eq_refl eq_refl ltac:(simpl; lia)).
Defined.

End SymboltableHashProperties.

Section SymboltableScopeProperties.
Import HashtableKeys HashtablePermutation HashtableLoad HashtableTotal.
Import Symboltable SymboltableSpec SymboltableSamples SymboltableScopes.
Import SymboltableHash SymboltableSteps SymboltableInvariant.
Import SymboltableStrings SymboltableSafety SymboltableSampleStates.
Local Open Scope Z_scope.
Local Open Scope string_scope.

(** X13.  Insert, then find: when [insert_name] has returned [TRUE] for a
    name and a record, [find_name] on that name yields that record, whatever
    the saved outer scope holds. *)
Theorem insert_name_then_find (id : string) (prop : ptr) (s s1 : SymTab) :
  sym_inv s -> small s -> fresh_record s prop ->
  insert_name id prop s = Ok true s1 ->
  find_name id s1 = Ok (Some prop) s1.
Proof.
  intros Hinv Hsmall Hfresh H.
  destruct (insert_name_inv id prop s Hinv Hsmall Hfresh)
    as (b & s1' & E & Hpost).
  rewrite H in E. injection E as <- <-.
  destruct Hpost as (_ & Hb & Hinv1 & _).
  rewrite (proj1 (find_name_inv id s1 Hinv1)). unfold find_name_spec.
  now rewrite Hb.
Qed.

Lemma insert_name_then_find_witness :
  insert_name "x" 1%nat scope_f = Ok true scope_f_x /\
  find_name "x" scope_f_x = Ok (Some 1%nat) scope_f_x.
Proof.
  destruct scope_f_step as (_ & Hinv & _).
  assert (small scope_f) as Hsmall by (vm_compute; reflexivity).
  assert (fresh_record scope_f 1%nat) as Hfresh.
  { split; [vm_compute; intros [H|[H|[]]]; discriminate|].
    apply (sample_record_var _ _ TYPE_BOOLEAN); vm_compute; reflexivity. }
  split; [exact (proj1 scope_f_x_step)|].
  exact (insert_name_then_find "x" 1%nat scope_f scope_f_x Hinv Hsmall Hfresh
           (proj1 scope_f_x_step)).
Defined.

(** X14.  [insert_name] returns [FALSE] exactly for a name that the current
    scope binds already, and then it changes nothing: neither the tables nor
    the offset counter.  A binding of the name in the saved outer scope does
    not count. *)
Theorem insert_name_duplicate (id : string) (prop : ptr) (s : SymTab) :
  sym_inv s -> small s -> fresh_record s prop ->
  match scope_binding s (table s) id with
  | Some _ => insert_name id prop s = Ok false s
  | None => exists s1, insert_name id prop s = Ok true s1
  end.
Proof.
  intros Hinv Hsmall Hfresh.
  destruct (insert_name_inv id prop s Hinv Hsmall Hfresh)
    as (b & s1 & E & Hpost).
  destruct b.
  - destruct Hpost as (-> & _). eauto.
  - destruct Hpost as (-> & Hb).
    destruct (scope_binding s (table s) id); [exact E | now destruct Hb].
Qed.

Lemma insert_name_duplicate_witness :
  insert_name "x" 3%nat scope_f_x = Ok false scope_f_x /\
  exists s1, insert_name "v" 3%nat scope_f_x = Ok true s1.
Proof.
  destruct scope_f_x_step as (_ & Hinv & _).
  assert (small scope_f_x) as Hsmall by (vm_compute; reflexivity).
  assert (fresh_record scope_f_x 3%nat) as Hfresh.
  { split; [vm_compute; intros [H|[H|[H|[]]]]; discriminate|].
    apply (sample_record_var _ _ (Z.lor TYPE_INTEGER TYPE_ARRAY));
      vm_compute; reflexivity. }
  pose proof (insert_name_duplicate "x" 3%nat scope_f_x Hinv Hsmall Hfresh)
    as Hx.
  pose proof (insert_name_duplicate "v" 3%nat scope_f_x Hinv Hsmall Hfresh)
    as Hv.
  assert (scope_binding scope_f_x (table scope_f_x) "x" = Some 1%nat) as Ex
    by (vm_compute; reflexivity).
  assert (scope_binding scope_f_x (table scope_f_x) "v" = None) as Ev
    by (vm_compute; reflexivity).
  rewrite Ex in Hx. rewrite Ev in Hv. exact (conj Hx Hv).
Defined.

(** X15.  [insert_name] does not disturb the other names: whatever it
    returns, [find_name] on a name that does not compare equal to the
    inserted one finds afterwards what it found before. *)
Theorem insert_name_other_names (id n : string) (prop : ptr) (s s1 : SymTab)
    (b : bool) :
  sym_inv s -> small s -> fresh_record s prop ->
  insert_name id prop s = Ok b s1 -> key_strcmp n id <> 0 ->
  returned (find_name n s1) = returned (find_name n s).
Proof.
  intros Hinv Hsmall Hfresh H Hne.
  destruct (insert_name_other id n prop s s1 b Hinv H Hne)
    as (Ht & Hs & Hb & Hcall).
  assert (sym_inv s1) as Hinv1.
  { destruct (insert_name_inv id prop s Hinv Hsmall Hfresh)
      as (b' & s1' & E & Hpost).
    rewrite H in E. injection E as <- <-.
    destruct b; [apply Hpost | now destruct Hpost as [-> _]]. }
  rewrite (proj1 (find_name_inv n s1 Hinv1)),
    (proj1 (find_name_inv n s Hinv)). simpl. f_equal.
  unfold find_name_spec. rewrite !Hb.
  destruct (scope_binding s (table s1) n) eqn:E1;
    rewrite Ht in E1; rewrite E1; [reflexivity|].
  rewrite Hs. destruct (scope_binding s (saved_table s) n); [|reflexivity].
  now rewrite Hcall.
Qed.

Lemma insert_name_other_names_witness :
  insert_name "x" 1%nat scope_f = Ok true scope_f_x /\
  returned (find_name "f" scope_f_x) = returned (find_name "f" scope_f) /\
  returned (find_name "f" scope_f) = Some (Some 2%nat).
Proof.
  destruct scope_f_step as (_ & Hinv & _).
  assert (small scope_f) as Hsmall by (vm_compute; reflexivity).
  assert (fresh_record scope_f 1%nat) as Hfresh.
  { split; [vm_compute; intros [H|[H|[]]]; discriminate|].
    apply (sample_record_var _ _ TYPE_BOOLEAN); vm_compute; reflexivity. }
  assert (key_strcmp "f" "x" <> 0) as Hne by (vm_compute; discriminate).
  split; [exact (proj1 scope_f_x_step)|].
  split; [|vm_compute; reflexivity].
  exact (insert_name_other_names "x" "f" 1%nat scope_f scope_f_x true
           Hinv Hsmall Hfresh (proj1 scope_f_x_step) Hne).
Defined.

(** X16.  After a successful [open_subroutine] the new scope starts empty
    with the offset counter at 1, and [find_name] sees from inside it the
    subroutine itself and the callables of the scope that was saved, but
    none of its variables. *)
Theorem open_subroutine_scope (id : string) (prop : ptr) (s s1 : SymTab) :
  sym_inv s -> small s -> fresh_record s prop ->
  open_subroutine id prop s = Ok true s1 ->
  get_variables_width s1 = 1 /\
  find_name id s1 = Ok (if callable s prop then Some prop else None) s1 /\
  (forall n, key_strcmp n id <> 0 ->
     find_name n s1
     = Ok match scope_binding s (table s) n with
          | Some p => if callable s p then Some p else None
          | None => None
          end s1).
Proof.
  intros Hinv Hsmall Hfresh H.
  destruct (open_subroutine_inv id prop s Hinv Hsmall Hfresh)
    as (b & s1' & E & Hrecs & _ & Hpost).
  rewrite H in E. injection E as <- <-.
  destruct Hpost as (_ & Hinv1 & _ & _ & Hoff & Hempty & Hself & _).
  assert (forall p, callable s1 p = callable s p) as Hcall
    by (intros p; unfold callable; now rewrite Hrecs).
  split; [unfold get_variables_width; now rewrite Hoff|]. split.
  - rewrite (proj1 (find_name_inv id s1 Hinv1)). unfold find_name_spec.
    now rewrite (scope_values_nil_binding s1 _ id Hempty), Hself, Hcall.
  - intros n Hne.
    rewrite (proj1 (find_name_inv n s1 Hinv1)). unfold find_name_spec.
    rewrite (scope_values_nil_binding s1 _ n Hempty),
      (open_subroutine_other id n prop s s1 Hinv H Hne).
    destruct (scope_binding s (table s) n); [now rewrite Hcall | reflexivity].
Qed.

Lemma open_subroutine_scope_witness :
  open_subroutine "f" 2%nat scope_global_v = Ok true scope_f /\
  get_variables_width scope_f = 1 /\
  find_name "f" scope_f = Ok (Some 2%nat) scope_f /\
  find_name "v" scope_f = Ok None scope_f.
Proof.
  assert (small scope_global_v) as Hsmall by (vm_compute; reflexivity).
  assert (fresh_record scope_global_v 2%nat) as Hfresh.
  { split; [vm_compute; intros [H|[]]; discriminate|].
    eexists. split; [vm_compute; reflexivity|].
    intros _. split; [discriminate | vm_compute; discriminate]. }
  destruct (open_subroutine_scope "f" 2%nat scope_global_v scope_f
              (proj2 scope_global_v_step) Hsmall Hfresh (proj1 scope_f_step))
    as (Hw & Hf & Hn).
  assert (key_strcmp "v" "f" <> 0) as Hne by (vm_compute; discriminate).
  specialize (Hn "v" Hne).
  assert (callable scope_global_v 2%nat = true) as Ec
    by (vm_compute; reflexivity).
  assert (scope_binding scope_global_v (table scope_global_v) "v"
          = Some 0%nat) as Ev by (vm_compute; reflexivity).
  assert (callable scope_global_v 0%nat = false) as Ec0
    by (vm_compute; reflexivity).
  rewrite Ec in Hf. rewrite Ev, Ec0 in Hn.
  exact (conj (proj1 scope_f_step) (conj Hw (conj Hf Hn))).
Defined.

(** X17.  [close_subroutine] in a subroutine scope frees the table of the
    scope and exactly the records it binds, and makes the saved scope the
    current one again: afterwards [find_name] finds every name of the saved
    scope, variables included, and no name of the closed one. *)
Theorem close_subroutine_restores (s : SymTab) :
  sym_inv s -> nested s ->
  exists s1,
    close_subroutine s = Ok tt s1 /\ sym_inv s1 /\
    table s1 = saved_table s /\
    (forall n, find_name n s1 = Ok (scope_binding s (saved_table s) n) s1) /\
    (forall p, In p (scope_values s (table s)) -> deref (recs s1) p = None) /\
    (forall p, ~ In p (scope_values s (table s)) ->
               deref (recs s1) p = deref (recs s) p).
Proof.
  intros Hinv Hnested.
  destruct (close_subroutine_inv s Hinv Hnested)
    as (s1 & E & Hinv1 & Ht & Hs & _ & _ & _ & Hb & Hfreed & Hkept).
  exists s1. split; [exact E|]. split; [exact Hinv1|]. split; [exact Ht|].
  split; [|auto]. intros n.
  rewrite (proj1 (find_name_inv n s1 Hinv1)). unfold find_name_spec.
  assert (scope_binding s1 (saved_table s1) n
          = scope_binding s (saved_table s) n) as Hb'
    by (rewrite <- (Hb n); congruence).
  rewrite Hb, Hb'.
  now destruct (scope_binding s (saved_table s) n).
Qed.

Lemma close_subroutine_restores_witness :
  close_subroutine scope_f_x = Ok tt scope_closed /\
  find_name "x" scope_closed = Ok None scope_closed /\
  find_name "v" scope_closed = Ok (Some 0%nat) scope_closed /\
  find_name "f" scope_closed = Ok (Some 2%nat) scope_closed /\
  deref (recs scope_closed) 1%nat = None.
Proof.
  destruct scope_f_x_step as (_ & Hinv & Hnested).
  destruct (close_subroutine_restores scope_f_x Hinv Hnested)
    as (s1 & E & _ & _ & Hfind & Hfreed & _).
  assert (scope_closed = s1) as <- by (unfold scope_closed; now rewrite E).
  split; [exact E|].
  rewrite (Hfind "x"), (Hfind "v"), (Hfind "f").
  assert (scope_binding scope_f_x (saved_table scope_f_x) "x" = None) as ->
    by (vm_compute; reflexivity).
  assert (scope_binding scope_f_x (saved_table scope_f_x) "v" = Some 0%nat)
    as -> by (vm_compute; reflexivity).
  assert (scope_binding scope_f_x (saved_table scope_f_x) "f" = Some 2%nat)
    as -> by (vm_compute; reflexivity).
  repeat (split; [reflexivity|]).
  apply Hfreed. vm_compute. now left.
Defined.

(** X18.  The symbol table is memory safe: [init_symbol_table] establishes
    an invariant under which, as long as fewer than [2^26] records exist and
    the client binds records that are live and not bound yet, no function of
    the interface faults or exits, and which all of them maintain
    ([close_subroutine] in a subroutine scope, where it is called). *)
Theorem symbol_table_safe (s : SymTab) :
  sym_inv s -> small s ->
  (forall n, exists r, find_name n s = Ok r s) /\
  (forall id prop, fresh_record s prop ->
     exists b s1, insert_name id prop s = Ok b s1 /\ sym_inv s1) /\
  (forall id prop, fresh_record s prop ->
     exists b s1, open_subroutine id prop s = Ok b s1 /\ sym_inv s1) /\
  (nested s -> exists s1, close_subroutine s = Ok tt s1 /\ sym_inv s1) /\
  (exists s1, release_symbol_table s = Ok tt s1) /\
  (forall s0, exists s1, init_symbol_table s0 = Ok tt s1 /\ sym_inv s1).
Proof.
  intros Hinv Hsmall. split; [|split; [|split; [|split; [|split]]]].
  - intros n. eexists. exact (proj1 (find_name_inv n s Hinv)).
  - intros id prop Hfresh.
    destruct (insert_name_inv id prop s Hinv Hsmall Hfresh)
      as (b & s1 & E & Hpost).
    exists b, s1. split; [exact E|].
    destruct b; [apply Hpost | now destruct Hpost as [-> _]].
  - intros id prop Hfresh.
    destruct (open_subroutine_inv id prop s Hinv Hsmall Hfresh)
      as (b & s1 & E & Hrecs & _ & Hpost).
    exists b, s1. split; [exact E|].
    destruct b; [apply Hpost|].
    destruct Hpost as (_ & Htabs & Ht & Hs & _).
    now apply (sym_inv_ext s s1).
  - intros Hnested.
    destruct (close_subroutine_inv s Hinv Hnested) as (s1 & E & Hinv1 & _).
    eauto.
  - destruct (release_symbol_table_inv s Hinv) as (t & rs & _ & E & _).
    eauto.
  - intros s0. destruct (init_symbol_table_inv s0) as (s1 & E & Hinv1 & _).
    eauto.
Qed.

Lemma symbol_table_safe_witness :
  sym_inv scope_f_x /\ small scope_f_x /\
  exists s1, close_subroutine scope_f_x = Ok tt s1 /\ sym_inv s1.
Proof.
  destruct scope_f_x_step as (_ & Hinv & Hnested).
  assert (small scope_f_x) as Hsmall by (vm_compute; reflexivity).
  split; [exact Hinv|]. split; [exact Hsmall|].
  exact (proj1 (proj2 (proj2 (proj2 (symbol_table_safe scope_f_x Hinv Hsmall))))
           Hnested).
Defined.

Lemma scope_global_is_scope_start : scope_start scope_global.
Proof.
  left. exists records_only. apply returned_state_of. reflexivity.
Qed.

(** X26.  From [init_symbol_table] or a successful [open_subroutine] on,
    through any sequence of [insert_name] and [find_name] calls, and as
    long as the count fits the [int] that [get_variables_width] returns:
    the variable records that [insert_name] inserts successfully receive
    the offsets 1, 2, 3, ... in order, and [get_variables_width] is 1 plus
    the number of variables inserted so far. *)
Theorem offsets_in_definition_order (ops : list ScopeOp) (s s' : SymTab)
    (offsets : list Z) :
  scope_start s ->
  run_scope ops s = Ok offsets s' ->
  Z.of_nat (length offsets) < 2 ^ 31 - 1 ->
  offsets = map Z.of_nat (seq 1 (length offsets)) /\
  get_variables_width s' = 1 + Z.of_nat (length offsets).
Proof.
  intros Hstart Hrun Hlen. pose proof (scope_start_offset s Hstart) as H1.
  destruct (run_scope_offsets ops s s' offsets Hrun) as [Ho Hc]; try lia.
  rewrite H1 in Ho, Hc. split.
  - rewrite Ho at 1. rewrite <- seq_shift, map_map. apply map_ext.
    intros i. lia.
  - unfold get_variables_width, to_int. rewrite Hc.
    destruct (1 + Z.of_nat (length offsets) <? 2 ^ 31)%Z eqn:E; [reflexivity|].
    apply Z.ltb_ge in E. lia.
Qed.

Lemma offsets_in_definition_order_witness :
  scope_start scope_global /\
  run_scope sample_ops scope_global = Ok [1; 2; 3] sample_end /\
  Z.of_nat (length [1; 2; 3]) < 2 ^ 31 - 1 /\
  [1; 2; 3] = map Z.of_nat (seq 1 (length [1; 2; 3])) /\
  get_variables_width sample_end = 1 + Z.of_nat (length [1; 2; 3]).
Proof.
  assert (run_scope sample_ops scope_global = Ok [1; 2; 3] sample_end) as Hrun
    by (apply returned_state_of; vm_compute; reflexivity).
  assert (Z.of_nat (length [1; 2; 3]) < 2 ^ 31 - 1) as Hlen
    by (vm_compute; reflexivity).
  split; [exact scope_global_is_scope_start|].
  split; [exact Hrun|]. split; [exact Hlen|].
  exact (offsets_in_definition_order sample_ops scope_global sample_end
           [1; 2; 3] scope_global_is_scope_start Hrun Hlen).
Defined.

End SymboltableScopeProperties.

(** * Further properties: the parser *)

Section AmplcProperties.
Import Token Amplc AmplcSpec AmplcSteps AmplcRuns AmplcRules.
Import AmplcExprRuns AmplcStmtRuns AmplcDefRuns.
Import Symboltable SymboltableSpec SymboltableScopes SymboltableSafety.
Import SymboltableSampleStates.
Local Open Scope Z_scope.
Local Open Scope string_scope.

(** X19.  The compilation steps of [main] on a source of fewer than [2^26]
    tokens, with a recursion depth of five calls per token, end in one of
    three ways: the parser accepts the program and the symbol table is
    released; or the compilation stops in [leprintf] with a diagnostic
    whose text is determined; or it stops in [_abort_cp] at a call that
    passes no argument for the [%s] of its message, so that the text is
    formatted from an argument that was not passed, which is undefined
    behaviour.  Before that, no step reads through a [NULL] or released
    pointer of the symbol table or past the end of a parameter array, and
    [eprintf] is not reached. *)
Theorem main_ends_or_reports (fuel : nat) (tokens : list (Token * SourcePos))
    (eof : SourcePos) :
  Z.of_nat (length tokens) < 2 ^ 26 -> (5 * length tokens <= fuel)%nat ->
  (exists st, main fuel tokens eof = Ok tt st /\ table (symtab st) = None) \/
  (exists pos text, main fuel tokens eof = Abort (Leprintf pos (Some text))) \/
  (exists pos, main fuel tokens eof = Abort (Leprintf pos None)).
Proof.
  intros Hsmall Hfuel.
  destruct (outcome_diagnostic _ _ (main_runs fuel tokens eof Hsmall Hfuel))
    as [([] & st & E & H) | (pos & [text|] & E)].
  - left. eauto.
  - right. left. eauto.
  - right. right. eauto.
Qed.

Lemma main_ends_or_reports_witness :
  (exists st,
     main 100 call_no_arguments call_no_arguments_eof = Ok tt st /\
     table (symtab st) = None) \/
  (exists pos text,
     main 100 call_no_arguments call_no_arguments_eof
     = Abort (Leprintf pos (Some text))) \/
  (exists pos,
     main 100 call_no_arguments call_no_arguments_eof
     = Abort (Leprintf pos None)).
Proof.
  apply main_ends_or_reports; [vm_compute; reflexivity | vm_compute; lia].
Defined.

(** X20.  An expression is parsed without a change to the symbol table:
    in a state whose symbol table is sound, [parse_expr] returns a type,
    with the symbol table as it was and at least one token consumed, or
    it stops with a diagnostic. *)
Theorem parse_expr_reads_only (fuel : nat) (st : State) :
  sym_inv (symtab st) -> (5 * remaining st + 4 <= fuel)%nat ->
  (exists t st', parse_expr fuel st = Ok t st' /\ symtab st' = symtab st /\
                 (remaining st' < remaining st)%nat) \/
  (exists d, parse_expr fuel st = Abort d).
Proof.
  intros Hinv Hfuel.
  destruct (outcome_cases _ _ (proj1 (expr_runs fuel) st Hinv Hfuel))
    as [(t & st' & E & Hs & Hr) | [d E]]; [left | right; eauto].
  exists t, st'. split; [exact E | split; [exact Hs | lia]].
Qed.

Lemma parse_expr_reads_only_witness :
  (exists t st', parse_expr 20 at_expression = Ok t st' /\
                 symtab st' = symtab at_expression /\
                 (remaining st' < remaining at_expression)%nat) \/
  (exists d, parse_expr 20 at_expression = Abort d).
Proof.
  apply parse_expr_reads_only.
  - exact (proj1 (proj2 scope_f_x_step)).
  - vm_compute. lia.
Defined.

(** X21.  A statement sequence is parsed without a change to the symbol
    table: [parse_statements] returns with the symbol table as it was and
    at least one token consumed, or it stops with a diagnostic. *)
Theorem parse_statements_reads_only (fuel : nat) (st : State) :
  sym_inv (symtab st) -> (5 * remaining st + 3 <= fuel)%nat ->
  (exists st', parse_statements fuel st = Ok tt st' /\
               symtab st' = symtab st /\
               (remaining st' < remaining st)%nat) \/
  (exists d, parse_statements fuel st = Abort d).
Proof.
  intros Hinv Hfuel.
  destruct (outcome_cases _ _ (proj1 (stmt_runs fuel) st Hinv Hfuel))
    as [([] & st' & E & Hs & Hr) | [d E]]; [left | right; eauto].
  exists st'. split; [exact E | split; [exact Hs | lia]].
Qed.

Lemma parse_statements_reads_only_witness :
  (exists st', parse_statements 30 at_statement = Ok tt st' /\
               symtab st' = symtab at_statement /\
               (remaining st' < remaining at_statement)%nat) \/
  (exists d, parse_statements 30 at_statement = Abort d).
Proof.
  apply parse_statements_reads_only.
  - exact (proj1 (proj2 scope_f_x_step)).
  - vm_compute. lia.
Defined.

(** X22.  A body, with its variable definitions and its statements, is
    parsed in one scope: [parse_body] returns with a sound symbol table
    whose current and saved table pointers are the ones it started with,
    or it stops with a diagnostic. *)
Theorem parse_body_keeps_scope (fuel : nat) (st : State) :
  sym_inv (symtab st) -> light st -> (5 * remaining st + 3 <= fuel)%nat ->
  (exists st', parse_body fuel st = Ok tt st' /\ sym_inv (symtab st') /\
               table (symtab st') = table (symtab st) /\
               saved_table (symtab st') = saved_table (symtab st) /\
               (remaining st' < remaining st)%nat) \/
  (exists d, parse_body fuel st = Abort d).
Proof.
  intros Hinv Hl Hfuel.
  destruct (outcome_cases _ _ (parse_body_runs fuel st Hinv Hl Hfuel))
    as [([] & st' & E & H1 & H2 & H3 & _ & Hr) | [d E]];
    [left | right; eauto].
  exists st'. repeat (split; [assumption|]). lia.
Qed.

Lemma parse_body_keeps_scope_witness :
  (exists st', parse_body 40 at_body = Ok tt st' /\ sym_inv (symtab st') /\
               table (symtab st') = table (symtab at_body) /\
               saved_table (symtab st') = saved_table (symtab at_body) /\
               (remaining st' < remaining at_body)%nat) \/
  (exists d, parse_body 40 at_body = Abort d).
Proof.
  apply parse_body_keeps_scope.
  - exact (proj1 (proj2 scope_f_x_step)).
  - vm_compute. reflexivity.
  - vm_compute. lia.
Defined.

(** X23.  A subroutine definition closes the scope that it opens:
    [parse_subdef] returns with a sound symbol table whose current table
    is the one it started with, or it stops with a diagnostic. *)
Theorem parse_subdef_closes_scope (fuel : nat) (st : State) :
  sym_inv (symtab st) -> light st -> (5 * remaining st <= fuel)%nat ->
  (exists st', parse_subdef fuel st = Ok tt st' /\ sym_inv (symtab st') /\
               table (symtab st') = table (symtab st) /\
               (remaining st' < remaining st)%nat) \/
  (exists d, parse_subdef fuel st = Abort d).
Proof.
  intros Hinv Hl Hfuel.
  destruct (outcome_cases _ _ (parse_subdef_runs fuel st Hinv Hl Hfuel))
    as [([] & st' & E & H1 & H2 & _ & Hr) | [d E]];
    [left | right; eauto].
  exists st'. repeat (split; [assumption|]). lia.
Qed.

Lemma parse_subdef_closes_scope_witness :
  (exists st', parse_subdef 40 at_subdef = Ok tt st' /\
               sym_inv (symtab st') /\
               table (symtab st') = table (symtab at_subdef) /\
               (remaining st' < remaining at_subdef)%nat) \/
  (exists d, parse_subdef 40 at_subdef = Abort d).
Proof.
  apply parse_subdef_closes_scope.
  - exact (proj2 scope_global_v_step).
  - vm_compute. reflexivity.
  - vm_compute. lia.
Defined.

(** X24.  Defining a variable, as [parse_vardef] and the parameter loop of
    [parse_subdef] do it: when [find_name] resolves the name already, to a
    name of the current scope or to a callable of the saved one, the
    compilation stops with "multiple definition" at the position of the
    name; otherwise a new record is allocated and bound, no token is
    consumed, and [find_name] resolves the name to that record
    afterwards. *)
Theorem define_variable_then_find (id : string) (t1 : ValType)
    (pos : SourcePos) (st : State) :
  sym_inv (symtab st) ->
  Z.of_nat (length (recs (symtab st))) + 1 < 2 ^ 26 ->
  IS_CALLABLE_TYPE t1 = false ->
  (forall p,
     Symboltable.find_name id (symtab st) = Ok (Some p) (symtab st) ->
     define_variable id t1 pos st
     = Abort (Leprintf pos (Some ("multiple definition of '" ++ id ++ "'"))))
  /\
  (Symboltable.find_name id (symtab st) = Ok None (symtab st) ->
   exists st',
     define_variable id t1 pos st = Ok tt st' /\
     Symboltable.find_name id (symtab st')
     = Ok (Some (length (recs (symtab st)))) (symtab st') /\
     sym_inv (symtab st') /\
     token st' = token st /\ source st' = source st).
Proof.
  intros Hinv Hsmall Ht. split.
  - intros p Hf. unfold define_variable, Amplc.find_name, sym, bind.
    rewrite Hf. reflexivity.
  - intros Hf.
    assert (Hnone : scope_binding (symtab st) (table (symtab st)) id = None).
    { rewrite (proj1 (find_name_inv id _ Hinv)) in Hf.
      injection Hf as Hf. unfold find_name_spec in Hf.
      now destruct (scope_binding (symtab st) (table (symtab st)) id). }
    unfold define_variable, Amplc.find_name, Amplc.get_variables_width,
      Amplc.insert_name, idpropt, get, sym, bind.
    rewrite Hf, set_symtab_same. cbn [when ret symtab set_symtab].
    set (r := mkIDPropt t1 (Hashtable.uint (get_variables_width (symtab st))) 0 []).
    set (s1 := {| tabs := tabs (symtab st);
                  recs := recs (symtab st) ++ [Some r];
                  table := table (symtab st);
                  saved_table := saved_table (symtab st);
                  curr_offset := curr_offset (symtab st);
                  saved_offset := saved_offset (symtab st) |}).
    assert (Hr : record_ok r) by (intros Hc; simpl in Hc; congruence).
    destruct (sym_inv_alloc _ r Hinv Hr) as [Hinv1 Hfresh1].
    fold s1 in Hinv1, Hfresh1.
    assert (Hsmall1 : small s1).
    { unfold small, s1. simpl. rewrite length_app. simpl. lia. }
    destruct (insert_name_inv id (length (recs (symtab st))) s1
                Hinv1 Hsmall1 Hfresh1) as (b & s2 & E & Hb).
    rewrite E.
    destruct b.
    + destruct Hb as (_ & Hbind & Hinv2 & _).
      eexists. split; [reflexivity|]. cbn [symtab set_symtab].
      split; [|split; [exact Hinv2 | split; reflexivity]].
      rewrite (proj1 (find_name_inv id s2 Hinv2)). unfold find_name_spec.
      now rewrite Hbind.
    + destruct Hb as (_ & Hbound). exfalso. apply Hbound. exact Hnone.
Qed.

Lemma define_variable_then_find_witness :
  (forall p,
     Symboltable.find_name "n" (symtab at_body)
     = Ok (Some p) (symtab at_body) ->
     define_variable "n" TYPE_INTEGER (mkSourcePos 1 5) at_body
     = Abort (Leprintf (mkSourcePos 1 5)
                (Some ("multiple definition of '" ++ "n" ++ "'"))))
  /\
  (Symboltable.find_name "n" (symtab at_body) = Ok None (symtab at_body) ->
   exists st',
     define_variable "n" TYPE_INTEGER (mkSourcePos 1 5) at_body
     = Ok tt st' /\
     Symboltable.find_name "n" (symtab st')
     = Ok (Some (length (recs (symtab at_body)))) (symtab st') /\
     sym_inv (symtab st') /\
     token st' = token at_body /\ source st' = source at_body).
Proof.
  apply define_variable_then_find.
  - exact (proj1 (proj2 scope_f_x_step)).
  - vm_compute. reflexivity.
  - reflexivity.
Defined.

(** X25.  A [return] outside every subroutine: when the current return type
    is neither that of a function nor that of a procedure, as in the main
    body, [parse_return] consumes the keyword and returns; an expression
    that follows is left unread. *)
Theorem parse_return_outside_subroutine (fuel : nat) (st : State) :
  Token.type (token st) = TOK_RETURN ->
  IS_CALLABLE_TYPE (return_type st) = false ->
  parse_return fuel st = Ok tt (get_token st).
Proof.
  intros Ht Hc.
  assert (Hp : IS_PROCEDURE (return_type st) = false)
    by (unfold IS_PROCEDURE; now rewrite Hc).
  assert (Hf : IS_FUNCTION (return_type st) = false)
    by (unfold IS_FUNCTION; now rewrite Hc).
  unfold parse_return. run_parser. rewrite Ht. cbn.
  rewrite get_token_return_type, Hp, Hf. cbn.
  now destruct (STARTS_EXPR (Token.type (token (get_token st)))).
Qed.

Lemma parse_return_outside_subroutine_witness :
  parse_return 10 (at_return TYPE_NONE [num "1" 1 36])
  = Ok tt (get_token (at_return TYPE_NONE [num "1" 1 36])).
Proof.
  apply parse_return_outside_subroutine; reflexivity.
Defined.

(** X27.  The rules of [return] that [parse_return] applies when an
    expression follows the keyword in a procedure, and in a function: in a
    procedure, [return e] ends the compilation with
    [ERR_RETURN_EXPRESSION_NOT_ALLOWED]; in a function, a bare [return]
    ends it with [ERR_MISSING_RETURN_EXPRESSION] at the position of the
    keyword, and [return e], for an expression [e] that parses with type
    [t1], is accepted exactly when [t1] and the declared return type agree
    once the callable bit is stripped from both, and is a type mismatch at
    the start of [e] otherwise; an expression that does not parse ends the
    compilation with its own diagnostic. *)
Theorem parse_return_rules (fuel : nat) (st : State) :
  Token.type (token st) = TOK_RETURN ->
  (IS_PROCEDURE (return_type st) = true ->
   STARTS_EXPR (Token.type (token (get_token st))) = true ->
   parse_return fuel st
   = Abort (Leprintf (position (get_token st))
              (Some "a return expression is not allowed for a procedure")))
  /\
  (IS_FUNCTION (return_type st) = true ->
   STARTS_EXPR (Token.type (token (get_token st))) = false ->
   parse_return fuel st
   = Abort (Leprintf (position st)
              (Some "missing return expression for a function"))) /\
  (IS_FUNCTION (return_type st) = true ->
   STARTS_EXPR (Token.type (token (get_token st))) = true ->
   (forall t1 st2,
      parse_expr fuel (get_token st) = Ok t1 st2 ->
      parse_return fuel st
      = if return_types_agree t1 (return_type st) then Ok tt st2
        else Abort (Leprintf (position (get_token st))
               (Some ("incompatible types (expected "
                      ++ get_valtype_string (SET_RETURN_TYPE (return_type st))
                      ++ ", found "
                      ++ get_valtype_string (SET_RETURN_TYPE t1)
                      ++ ") for 'return' statement")))) /\
   (forall d,
      parse_expr fuel (get_token st) = Abort d ->
      parse_return fuel st = Abort d)).
Proof.
  intros Ht. split; [|split].
  - intros Hp _. now rewrite (parse_return_procedure fuel st Ht Hp).
  - intros Hf Hs. rewrite (parse_return_function fuel st Ht Hf).
    now rewrite Hs.
  - intros Hf Hs. rewrite (parse_return_function fuel st Ht Hf). rewrite Hs.
    split.
    + intros t1 st2 ->. unfold chktypes, return_types_agree.
      now destruct (SET_RETURN_TYPE t1 =? SET_RETURN_TYPE (return_type st))%Z.
    + now intros d ->.
Qed.

Lemma parse_return_rules_witness :
  parse_return 10 (at_return TYPE_CALLABLE [num "1" 1 36])
  = Abort (Leprintf (mkSourcePos 1 36)
             (Some "a return expression is not allowed for a procedure")) /\
  parse_return 10 (at_return (Z.lor TYPE_CALLABLE TYPE_INTEGER) [])
  = Abort (Leprintf (mkSourcePos 1 29)
             (Some "missing return expression for a function")) /\
  returned (parse_return 10
              (at_return (Z.lor TYPE_CALLABLE TYPE_INTEGER) [num "1" 1 36]))
  = Some tt /\
  parse_return 10
    (at_return (Z.lor TYPE_CALLABLE TYPE_INTEGER) [kw TOK_TRUE 1 36])
  = Abort (Leprintf (mkSourcePos 1 36)
             (Some ("incompatible types (expected int, found bool) "
                    ++ "for 'return' statement"))).
Proof.
  set (fn := Z.lor TYPE_CALLABLE TYPE_INTEGER).
  assert (forall rt rest,
             Token.type (token (at_return rt rest)) = TOK_RETURN) as Hr
    by reflexivity.
  assert (IS_FUNCTION fn = true) as Hf by (vm_compute; reflexivity).
  split; [|split; [|split]].
  - exact (proj1 (parse_return_rules 10
                    (at_return TYPE_CALLABLE [num "1" 1 36]) (Hr _ _))
             eq_refl eq_refl).
  - exact (proj1 (proj2 (parse_return_rules 10 (at_return fn []) (Hr _ _)))
             Hf eq_refl).
  - destruct (parse_expr 10 (get_token (at_return fn [num "1" 1 36])))
      as [t1 st2| | |] eqn:E; try (vm_compute in E; discriminate).
    rewrite (proj1 (proj2 (proj2 (parse_return_rules 10
                                    (at_return fn [num "1" 1 36]) (Hr _ _)))
                      Hf eq_refl) t1 st2 E).
    vm_compute in E. injection E as <- _. vm_compute. reflexivity.
  - destruct (parse_expr 10 (get_token (at_return fn [kw TOK_TRUE 1 36])))
      as [t1 st2| | |] eqn:E; try (vm_compute in E; discriminate).
    rewrite (proj1 (proj2 (proj2 (parse_return_rules 10
                                    (at_return fn [kw TOK_TRUE 1 36])
                                    (Hr _ _)))
                      Hf eq_refl) t1 st2 E).
    vm_compute in E. injection E as <- _. vm_compute. reflexivity.
Defined.

End AmplcProperties.
